(** * GoDatabase: the B+Tree index and the Raft RPC handlers

    A shallow embedding of [internal/btree] (node.go, btree.go), of the
    storage engine built on it, and of the Raft handlers
    ([internal/raft/handlers.go], the Raft node), followed by the properties
    of the specification that were checked against them.

    Conventions.
    - [uint16], [uint64] and [int] values are integers of [Z]; every
      arithmetic operation of the source is followed by the wrap-around of
      its type ([u16], [u64], [int]).
    - A Go slice is a list.  The source never relies on two live slices
      sharing a backing array (every slice that is kept is copied or is the
      only reference), so value semantics is enough; a slice expression is
      checked against the length.
    - Run-time panics (index out of range, nil dereference, explicit
      [panic]) are results of their own, distinct from returned errors.
    - [*Node] values are addresses into a heap of nodes; the package-level
      variables [nodeRelationships] and [nextNodeID] are part of the state.
    - Recursive descents through the heap take a fuel argument. *)

From Stdlib Require Import ZArith Lia.
From Stdlib.Strings Require Import Byte.
From stdpp Require Import base numbers list gmap strings.

Local Open Scope Z_scope.

(** ** The Go run-time model *)

Module Go.

Inductive panic : Type :=
| IndexOutOfRange
| SliceBoundsOutOfRange
| NilDereference
| Explicit (msg : string).

(** Result of running a piece of Go code. *)
Inductive res (A : Type) : Type :=
| Ret (a : A)
| Panic (p : panic)
| OutOfFuel.
Arguments Ret {A} a.
Arguments Panic {A} p.
Arguments OutOfFuel {A}.

Definition res_bind {A B} (f : A → res B) (m : res A) : res B :=
  match m with
  | Ret a => f a
  | Panic p => Panic p
  | OutOfFuel => OutOfFuel
  end.

#[export] Instance res_ret : MRet res := λ A a, Ret a.
#[export] Instance res_mbind : MBind res := λ A B f m, res_bind f m.

(** Fixed-width integers. *)
Definition u16 (z : Z) : Z := z `mod` 65536.
Definition u64 (z : Z) : Z := z `mod` 18446744073709551616.
Definition int (z : Z) : Z :=
  (z + 9223372036854775808) `mod` 18446744073709551616 - 9223372036854775808.
Definition MaxInt : Z := 9223372036854775807.

Definition byte_to_Z (b : byte) : Z := Z.of_N (Byte.to_N b).
Definition byte_of_Z (z : Z) : byte :=
  default Byte.x00 (Byte.of_N (Z.to_N (z `mod` 256))).

#[export] Instance byte_eq_decision : EqDecision byte := Byte.byte_eq_dec.

Definition len {A} (l : list A) : Z := Z.of_nat (length l).

(** [l[i]] *)
Definition index {A} (l : list A) (i : Z) : res A :=
  if decide (0 ≤ i) then
    match l !! Z.to_nat i with
    | Some x => Ret x
    | None => Panic IndexOutOfRange
    end
  else Panic IndexOutOfRange.

(** [l[lo:hi]], [l[lo:]] and [l[:hi]] *)
Definition slice {A} (l : list A) (lo hi : Z) : res (list A) :=
  if decide (0 ≤ lo ∧ lo ≤ hi ∧ hi ≤ len l)
  then Ret (take (Z.to_nat (hi - lo)) (drop (Z.to_nat lo) l))
  else Panic SliceBoundsOutOfRange.

Definition slice_from {A} (l : list A) (lo : Z) : res (list A) :=
  slice l lo (len l).

Definition slice_to {A} (l : list A) (hi : Z) : res (list A) :=
  slice l 0 hi.

(** [copy(dst[off:], src)], for [0 <= off <= len(dst)] *)
Definition copy_at {A} (dst : list A) (off : Z) (src : list A) : list A :=
  let o := Z.to_nat off in
  let k := Nat.min (length src) (length dst - o) in
  take o dst ++ take k src ++ drop (o + k) dst.

(** [bytes.Compare] *)
Fixpoint Compare (a b : list byte) : comparison :=
  match a, b with
  | [], [] => Eq
  | [], _ :: _ => Lt
  | _ :: _, [] => Gt
  | x :: a', y :: b' =>
      match N.compare (Byte.to_N x) (Byte.to_N y) with
      | Eq => Compare a' b'
      | c => c
      end
  end.

(** Big-endian reads and writes, as the source spells them:
    [uint16(d[o])<<8 | uint16(d[o+1])] and [byte(x >> 8), byte(x)]. *)
Definition be16 (b0 b1 : byte) : Z :=
  Z.lor (u16 (byte_to_Z b0 ≪ 8)) (byte_to_Z b1).

Definition put16 (x : Z) : list byte :=
  [byte_of_Z (x ≫ 8); byte_of_Z x].

Definition put64 (x : Z) : list byte :=
  [byte_of_Z (x ≫ 56); byte_of_Z (x ≫ 48); byte_of_Z (x ≫ 40);
   byte_of_Z (x ≫ 32); byte_of_Z (x ≫ 24); byte_of_Z (x ≫ 16);
   byte_of_Z (x ≫ 8); byte_of_Z x].

Definition be64 (b0 b1 b2 b3 b4 b5 b6 b7 : byte) : Z :=
  Z.lor (Z.lor (Z.lor (Z.lor (Z.lor (Z.lor (Z.lor
    (u64 (byte_to_Z b0 ≪ 56)) (u64 (byte_to_Z b1 ≪ 48)))
    (u64 (byte_to_Z b2 ≪ 40))) (u64 (byte_to_Z b3 ≪ 32)))
    (u64 (byte_to_Z b4 ≪ 24))) (u64 (byte_to_Z b5 ≪ 16)))
    (u64 (byte_to_Z b6 ≪ 8))) (byte_to_Z b7).

End Go.

Import Go.

(** ** internal/btree/node.go *)

Module Btree.

Definition BNODE_NODE : Z := 1.
Definition BNODE_LEAF : Z := 2.

Definition BTREE_PAGE_SIZE : Z := 4096.
Definition BTREE_MAX_KEY_SIZE : Z := 1000.
Definition BTREE_MAX_VAL_SIZE : Z := 3000.

(** [errors.New] values returned by the package. *)
Inductive error : Type :=
| ErrDataTooShort      (* "data too short" *)
| ErrKeyTooLarge       (* "key too large" *)
| ErrValueTooLarge     (* "value too large" *)
| ErrKeyExists         (* "key already exists" *)
| ErrKeyNotFound.      (* "key not found" *)

#[export] Instance error_eq_dec : EqDecision error.
Proof. solve_decision. Defined.

Record Node : Type := mkNode {
  typ : Z;                (* uint16 *)
  nkeys : Z;              (* uint16 *)
  pointers : list Z;      (* []uint64 *)
  offsets : list Z;       (* []uint16 *)
  data : list byte        (* []byte *)
}.

Definition NewNode (typ : Z) : Node :=
  {| typ := typ; nkeys := 0; pointers := []; offsets := []; data := [] |}.

(** *** Serialize / Deserialize *)

(** The source fills a buffer of [4 + 8*len(pointers) + 2*len(offsets) +
    len(data)] bytes from left to right; the buffer is the concatenation
    of the pieces written. *)
Definition Serialize (n : Node) : list byte :=
  put16 (typ n) ++ put16 (nkeys n)
    ++ concat (put64 <$> pointers n)
    ++ concat (put16 <$> offsets n)
    ++ data n.

Definition read16 (d : list byte) (offset : Z) : res Z :=
  b0 ← index d offset;
  b1 ← index d (offset + 1);
  mret (be16 b0 b1).

Definition read64 (d : list byte) (offset : Z) : res Z :=
  b0 ← index d offset;
  b1 ← index d (offset + 1);
  b2 ← index d (offset + 2);
  b3 ← index d (offset + 3);
  b4 ← index d (offset + 4);
  b5 ← index d (offset + 5);
  b6 ← index d (offset + 6);
  b7 ← index d (offset + 7);
  mret (be64 b0 b1 b2 b3 b4 b5 b6 b7).

(** The two reading loops of [Deserialize]: [count] iterations from
    [offset], returning the values read and the offset reached. *)
Fixpoint read_pointers (d : list byte) (offset : Z) (count : nat)
  : res (list Z * Z) :=
  match count with
  | O => mret ([], offset)
  | S c =>
      p ← read64 d offset;
      '(ps, o) ← read_pointers d (offset + 8) c;
      mret (p :: ps, o)
  end.

Fixpoint read_offsets (d : list byte) (offset : Z) (count : nat)
  : res (list Z * Z) :=
  match count with
  | O => mret ([], offset)
  | S c =>
      x ← read16 d offset;
      '(xs, o) ← read_offsets d (offset + 2) c;
      mret (x :: xs, o)
  end.

(** [n.Deserialize(data)]: the node after the call and the error returned. *)
Definition Deserialize (n : Node) (d : list byte) : res (Node * option error) :=
  if decide (len d < 4) then mret (n, Some ErrDataTooShort)
  else
    t ← read16 d 0;
    k ← read16 d 2;
    '(ps, offset) ← read_pointers d 4 (Z.to_nat k);
    '(os, offset) ← read_offsets d offset (Z.to_nat k);
    rest ← slice_from d offset;
    mret ({| typ := t; nkeys := k; pointers := ps; offsets := os; data := rest |},
          None).

(** *** Size *)

Definition Size (n : Node) : Z :=
  4 + len (pointers n) * 8 + len (offsets n) * 2 + len (data n).

Definition IsFull (n : Node) : bool := bool_decide (Size n >= BTREE_PAGE_SIZE).

Definition IsEmpty (n : Node) : bool := bool_decide (nkeys n = 0).

(** *** keys *)

(** One iteration of the loop of [keys]: the value left in [keys[i]]
    ([nil], the empty slice, when the iteration is skipped). *)
Definition key_at (n : Node) (i : Z) : res (list byte) :=
  if decide (i >= len (offsets n)) then mret []
  else
    start ← index (offsets n) i;
    if decide (start + 4 > len (data n)) then mret []
    else
      b0 ← index (data n) start;
      b1 ← index (data n) (u16 (start + 1));
      let keyLen := be16 b0 b1 in
      let keyStart := u16 (start + 4) in
      let keyEnd := u16 (keyStart + keyLen) in
      if decide (keyEnd > len (data n)) then mret []
      else slice (data n) keyStart keyEnd.

Definition keys (n : Node) : res (list (list byte)) :=
  if decide (nkeys n = 0) then mret []
  else mapM (key_at n) (seqZ 0 (nkeys n)).

(** *** insertKV *)

Definition insertKV (n : Node) (pos : Z) (key value : list byte) : res Node :=
  let keyLen := u16 (len key) in
  let valLen := u16 (len value) in
  let entrySize := 4 + keyLen + valLen in
  let header := put16 keyLen ++ put16 valLen in
  let entry := header ++ replicate (Z.to_nat (entrySize - 4)) Byte.x00 in
  let entry := copy_at entry 4 key in
  tail ← slice_from entry (u16 (4 + keyLen));
  let entry := copy_at entry (u16 (4 + keyLen)) value in
  '(newOffset, d) ←
    (if decide (pos = nkeys n) then
       mret (u16 (len (data n)), data n ++ entry)
     else
       newOffset ← index (offsets n) pos;
       post ← slice_from (data n) newOffset;
       pre ← slice_to (data n) newOffset;
       mret (newOffset, pre ++ entry ++ post));
  (* offsets: grow by one, shift [pos..] right, store, bump the rest *)
  shifted ← slice_from (offsets n) pos;
  before ← slice_to (offsets n) pos;
  let offs := before ++ newOffset :: ((λ o, u16 (o + u16 entrySize)) <$> shifted) in
  mret {| typ := typ n; nkeys := u16 (nkeys n + 1); pointers := pointers n;
          offsets := offs; data := d |}.

(** *** getValue *)

Definition getValue (n : Node) (i : Z) : res (list byte) :=
  if decide (typ n ≠ BNODE_LEAF ∨ i < 0 ∨ i >= nkeys n) then mret []
  else
    start ← index (offsets n) i;
    if decide (start + 4 > len (data n)) then mret []
    else
      k0 ← index (data n) start;
      k1 ← index (data n) (u16 (start + 1));
      v0 ← index (data n) (u16 (start + 2));
      v1 ← index (data n) (u16 (start + 3));
      let keyLen := be16 k0 k1 in
      let valLen := be16 v0 v1 in
      let valStart := u16 (u16 (start + 4) + keyLen) in
      let valEnd := u16 (valStart + valLen) in
      if decide (valEnd > len (data n)) then mret []
      else slice (data n) valStart valEnd.

(** *** removeKV *)

Definition removeKV (n : Node) (pos : Z) : res Node :=
  if decide (pos < 0 ∨ pos >= nkeys n) then mret n
  else
    start ← index (offsets n) pos;
    if decide (start + 4 > len (data n)) then mret n
    else
      k0 ← index (data n) start;
      k1 ← index (data n) (u16 (start + 1));
      v0 ← index (data n) (u16 (start + 2));
      v1 ← index (data n) (u16 (start + 3));
      let keyLen := be16 k0 k1 in
      let valLen := be16 v0 v1 in
      let entrySize := u16 (u16 (4 + keyLen) + valLen) in
      let end_ := u16 (start + u16 entrySize) in
      pre ← slice_to (data n) start;
      post ← slice_from (data n) end_;
      before ← slice_to (offsets n) pos;
      after ← slice_from (offsets n) (pos + 1);
      mret {| typ := typ n; nkeys := u16 (nkeys n - 1); pointers := pointers n;
              offsets := before ++ ((λ o, u16 (o - u16 entrySize)) <$> after);
              data := pre ++ post |}.

(** *** Split *)

(** The promoted key: the first key of the right node ([nil] when the
    guards fail). *)
Definition promoted_key (right : Node) : res (list byte) :=
  if decide (len (offsets right) > 0) then
    o ← index (offsets right) 0;
    if decide (o + 4 ≤ len (data right)) then
      b0 ← index (data right) o;
      b1 ← index (data right) (u16 (o + 1));
      let kLen := be16 b0 b1 in
      let kStart := u16 (o + 4) in
      let kEnd := u16 (kStart + kLen) in
      if decide (kEnd ≤ len (data right)) then slice (data right) kStart kEnd
      else mret []
    else mret []
  else mret [].

(** [n.Split()]: the receiver after the call, the right node ([None] for
    the [nil] result) and the promoted key. *)
Definition Split (n : Node) : res (Node * option Node * list byte) :=
  if decide (nkeys n < 2) then mret (n, None, [])
  else
    let splitIdx := nkeys n `div` 2 in
    '(lptrs, rptrs) ←
      (if decide (typ n = BNODE_NODE) then
         r ← slice_from (pointers n) splitIdx;
         l ← slice_to (pointers n) splitIdx;
         mret (l, r)
       else mret (pointers n, []));
    startOffset ← index (offsets n) splitIdx;
    rdata ← slice_from (data n) startOffset;
    roffs ← mapM (λ i, o ← index (offsets n) (u16 (splitIdx + i));
                        mret (u16 (o - startOffset)))
                 (seqZ 0 (u16 (nkeys n - splitIdx)));
    loffs ← slice_to (offsets n) splitIdx;
    ldata ← slice_to (data n) startOffset;
    let right := {| typ := typ n; nkeys := u16 (nkeys n - splitIdx);
                    pointers := rptrs; offsets := roffs; data := rdata |} in
    let left := {| typ := typ n; nkeys := splitIdx;
                   pointers := lptrs; offsets := loffs; data := ldata |} in
    promotedKey ← promoted_key right;
    mret (left, Some right, promotedKey).

(** *** The heap and the package-level variables *)

(** A [*Node]: [None] is [nil], [Some a] the node stored at address [a]. *)
Abbreviation pointer := (option nat).

Record State : Type := mkState {
  nodes : gmap nat Node;            (* the nodes allocated so far *)
  brk : nat;                        (* the next address to allocate *)
  nodeRelationships : gmap Z nat;   (* var nodeRelationships map[uint64]*Node *)
  nextNodeID : Z;                   (* var nextNodeID uint64 = 1 *)
  root : pointer;                   (* t.root *)
  size : Z                          (* t.size *)
}.

Definition M (A : Type) : Type := State → res (A * State).

Definition M_ret {A} (a : A) : M A := λ s, Ret (a, s).
Definition M_bind {A B} (f : A → M B) (m : M A) : M B :=
  λ s, match m s with
       | Ret (a, s') => f a s'
       | Panic p => Panic p
       | OutOfFuel => OutOfFuel
       end.

#[export] Instance M_mret : MRet M := @M_ret.
#[export] Instance M_mbind : MBind M := @M_bind.

Definition lift {A} (r : res A) : M A :=
  λ s, match r with
       | Ret a => Ret (a, s)
       | Panic p => Panic p
       | OutOfFuel => OutOfFuel
       end.

Definition panic_with {A} (p : panic) : M A := λ _, Panic p.
Definition out_of_fuel {A} : M A := λ _, OutOfFuel.
Definition get_state : M State := λ s, Ret (s, s).

(** [*p] *)
Definition deref (p : pointer) : M Node :=
  λ s, match p with
       | None => Panic NilDereference
       | Some a => match nodes s !! a with
                   | Some n => Ret (n, s)
                   | None => Panic NilDereference
                   end
       end.

(** [*p = n] *)
Definition store (p : pointer) (n : Node) : M unit :=
  λ s, match p with
       | None => Panic NilDereference
       | Some a =>
           Ret (tt, {| nodes := <[a := n]> (nodes s); brk := brk s;
                       nodeRelationships := nodeRelationships s;
                       nextNodeID := nextNodeID s;
                       root := root s; size := size s |})
       end.

(** [&Node{...}] *)
Definition alloc (n : Node) : M nat :=
  λ s, Ret (brk s,
            {| nodes := <[brk s := n]> (nodes s); brk := S (brk s);
               nodeRelationships := nodeRelationships s;
               nextNodeID := nextNodeID s;
               root := root s; size := size s |}).

(** [nodeRelationships[id] = a] *)
Definition register (id : Z) (a : nat) : M unit :=
  λ s, Ret (tt, {| nodes := nodes s; brk := brk s;
                   nodeRelationships := <[id := a]> (nodeRelationships s);
                   nextNodeID := nextNodeID s;
                   root := root s; size := size s |}).

Definition set_nextNodeID (id : Z) : M unit :=
  λ s, Ret (tt, {| nodes := nodes s; brk := brk s;
                   nodeRelationships := nodeRelationships s;
                   nextNodeID := id;
                   root := root s; size := size s |}).

Definition set_root (p : pointer) : M unit :=
  λ s, Ret (tt, {| nodes := nodes s; brk := brk s;
                   nodeRelationships := nodeRelationships s;
                   nextNodeID := nextNodeID s;
                   root := p; size := size s |}).

Definition set_size (z : Z) : M unit :=
  λ s, Ret (tt, {| nodes := nodes s; brk := brk s;
                   nodeRelationships := nodeRelationships s;
                   nextNodeID := nextNodeID s;
                   root := root s; size := z |}).

(** *** getChild / setChild / children *)

Definition getChild (n : pointer) (i : Z) : M pointer :=
  nd ← deref n;
  if decide (i >= len (pointers nd)) then mret None
  else
    nodeID ← lift (index (pointers nd) i);
    s ← get_state;
    match nodeRelationships s !! nodeID with
    | Some child => mret (Some child)
    | None =>
        child ← alloc (NewNode BNODE_LEAF);
        (if decide (nodeID > 0) then register nodeID child else mret tt);;
        mret (Some child)
    end.

(** The id under which [child] is registered, found by the loop
    [for id, node := range nodeRelationships]; [0] when there is none.
    Go leaves the iteration order of a map unspecified: the model takes
    the first match in the order of [map_to_list].  The choice is only
    visible when a node is registered under two ids, which neither
    [getChild] nor [setChild] ever does. *)
Definition id_of (rel : gmap Z nat) (child : pointer) : Z :=
  match child with
  | None => 0
  | Some a =>
      match list_find (λ kv, kv.2 = a) (map_to_list rel) with
      | Some (_, (id, _)) => id
      | None => 0
      end
  end.

Definition setChild (n : pointer) (i : Z) (child : pointer) : M unit :=
  nd ← deref n;
  let ptrs :=
    if decide (i >= len (pointers nd))
    then pointers nd ++ replicate (Z.to_nat (i - len (pointers nd) + 1)) 0
    else pointers nd in
  s ← get_state;
  let found := id_of (nodeRelationships s) child in
  nodeID ←
    match child with
    | Some a =>
        if decide (found = 0) then
          set_nextNodeID (u64 (nextNodeID s + 1));;
          register (nextNodeID s) a;;
          mret (nextNodeID s)
        else mret found
    | None => mret found
    end;
  if decide (0 ≤ i) then
    store n {| typ := typ nd; nkeys := nkeys nd;
               pointers := <[Z.to_nat i := nodeID]> ptrs;
               offsets := offsets nd; data := data nd |}
  else panic_with IndexOutOfRange.

Fixpoint children_from (n : pointer) (i : Z) (count : nat) : M (list pointer) :=
  match count with
  | O => mret []
  | S c =>
      child ← getChild n i;
      rest ← children_from n (i + 1) c;
      mret (child :: rest)
  end.

Definition children (n : pointer) : M (list pointer) :=
  nd ← deref n;
  children_from n 0 (length (pointers nd)).

(** ** internal/btree/btree.go *)

(** The package-level variables before any tree exists. *)
Definition initial : State :=
  {| nodes := ∅; brk := 0%nat; nodeRelationships := ∅; nextNodeID := 1;
     root := None; size := 0 |}.

Definition NewBTree : M unit :=
  r ← alloc (NewNode BNODE_LEAF);
  set_root (Some r);;
  set_size 0.

Fixpoint findLeaf (fuel : nat) (n : pointer) (key : list byte) : M pointer :=
  match fuel with
  | O => out_of_fuel
  | S fuel' =>
      nd ← deref n;
      if decide (typ nd = BNODE_LEAF) then mret n
      else
        ks ← lift (keys nd);
        match list_find (λ k, Compare key k = Lt) ks with
        | Some (i, _) =>
            child ← getChild n (Z.of_nat i);
            findLeaf fuel' child key
        | None =>
            child ← getChild n (len ks);
            findLeaf fuel' child key
        end
  end.

(** The scan of [insertInLeaf]: [None] when the key is met, otherwise the
    position at which the loop stops. *)
Fixpoint leaf_position (key : list byte) (ks : list (list byte)) (i : Z) : option Z :=
  match ks with
  | [] => Some i
  | k :: ks' =>
      match Compare key k with
      | Eq => None
      | Lt => Some i
      | Gt => leaf_position key ks' (i + 1)
      end
  end.

Definition insertInLeaf (leaf : pointer) (key value : list byte) : M (option error) :=
  nd ← deref leaf;
  ks ← lift (keys nd);
  match leaf_position key ks 0 with
  | None => mret (Some ErrKeyExists)
  | Some pos =>
      nd' ← lift (insertKV nd pos key value);
      store leaf nd';;
      mret None
  end.

Fixpoint findParent (fuel : nat) (root target : pointer) : M pointer :=
  match fuel with
  | O => out_of_fuel
  | S fuel' =>
      if decide (root = target) then mret None
      else
        nd ← deref root;
        if decide (typ nd = BNODE_LEAF) then mret None
        else
          (fix loop (i : Z) (count : nat) : M pointer :=
             match count with
             | O => mret None
             | S c =>
                 child ← getChild root i;
                 if decide (child = target) then mret root
                 else
                   found ← findParent fuel' child target;
                   match found with
                   | Some _ => mret found
                   | None => loop (i + 1) c
                   end
             end) 0 (length (pointers nd))
  end.

(** The scan of [insertInParent]: the first position whose key is greater
    than [key], the number of keys when there is none. *)
Fixpoint parent_position (key : list byte) (ks : list (list byte)) (i : Z) : Z :=
  match ks with
  | [] => i
  | k :: ks' =>
      match Compare key k with
      | Lt => i
      | _ => parent_position key ks' (i + 1)
      end
  end.

(** [n.Split()] on the heap: the receiver is updated in place and the right
    node is allocated. *)
Definition SplitAt (n : pointer) : M (pointer * list byte) :=
  nd ← deref n;
  '(nd', rnd, promotedKey) ← lift (Split nd);
  match rnd with
  | None => mret (None, promotedKey)
  | Some r =>
      store n nd';;
      a ← alloc r;
      mret (Some a, promotedKey)
  end.

Fixpoint insertInParent (fuel : nat) (oldNode : pointer) (key : list byte)
    (newNode : pointer) : M unit :=
  match fuel with
  | O => out_of_fuel
  | S fuel' =>
      s ← get_state;
      if decide (oldNode = root s) then
        a ← alloc (NewNode BNODE_NODE);
        let newRoot := Some a in
        nd ← lift (insertKV (NewNode BNODE_NODE) 0 key []);
        store newRoot nd;;
        setChild newRoot 0 oldNode;;
        setChild newRoot 1 newNode;;
        set_root newRoot
      else
        parent ← findParent fuel (root s) oldNode;
        match parent with
        | None => panic_with (Explicit "parent not found")
        | Some _ =>
            pnd ← deref parent;
            ks ← lift (keys pnd);
            let pos := parent_position key ks 0 in
            pnd' ← lift (insertKV pnd pos key []);
            store parent pnd';;
            setChild parent (pos + 1) newNode;;
            pnd'' ← deref parent;
            if IsFull pnd'' then
              '(newParent, promotedKey) ← SplitAt parent;
              insertInParent fuel' parent promotedKey newParent
            else mret tt
        end
  end.

Definition Insert (fuel : nat) (key value : list byte) : M (option error) :=
  if decide (len key > BTREE_MAX_KEY_SIZE) then mret (Some ErrKeyTooLarge)
  else if decide (len value > BTREE_MAX_VAL_SIZE) then mret (Some ErrValueTooLarge)
  else
    s ← get_state;
    leaf ← findLeaf fuel (root s) key;
    err ← insertInLeaf leaf key value;
    match err with
    | Some e => mret (Some e)
    | None =>
        lnd ← deref leaf;
        (if IsFull lnd then
           '(newLeaf, promotedKey) ← SplitAt leaf;
           insertInParent fuel leaf promotedKey newLeaf
         else mret tt);;
        s ← get_state;
        set_size (int (size s + 1));;
        mret None
    end.

Definition Get (fuel : nat) (key : list byte) : M (list byte * option error) :=
  s ← get_state;
  leaf ← findLeaf fuel (root s) key;
  nd ← deref leaf;
  ks ← lift (keys nd);
  match list_find (λ k, Compare key k = Eq) ks with
  | Some (i, _) =>
      v ← lift (getValue nd (Z.of_nat i));
      mret (v, None)
  | None => mret ([], Some ErrKeyNotFound)
  end.

(** The stubs of the source: both bodies are empty. *)
Definition redistribute (left right parent : pointer) (pos : Z) : M unit := mret tt.
Definition merge (left right parent : pointer) (pos : Z) : M unit := mret tt.

Definition rebalance (fuel : nat) (n : pointer) : M unit :=
  s ← get_state;
  parent ← findParent fuel (root s) n;
  match parent with
  | None => mret tt
  | Some _ =>
      cs ← children parent;
      match list_find (λ c, c = n) cs with
      | None => panic_with (Explicit "node not found in parent")
      | Some (p, _) =>
          let pos := Z.of_nat p in
          (* try to redistribute with the left sibling *)
          done ←
            (if decide (pos > 0) then
               leftSibling ← getChild parent (pos - 1);
               lnd ← deref leftSibling;
               if IsFull lnd then mret false
               else redistribute leftSibling n parent (pos - 1);; mret true
             else mret false);
          if (done : bool) then mret tt
          else
            (* try to redistribute with the right sibling *)
            cs' ← children parent;
            done ←
              (if decide (pos < len cs' - 1) then
                 rightSibling ← getChild parent (pos + 1);
                 rnd ← deref rightSibling;
                 if IsFull rnd then mret false
                 else redistribute n rightSibling parent pos;; mret true
               else mret false);
            if (done : bool) then mret tt
            else if decide (pos > 0) then
              leftSibling ← getChild parent (pos - 1);
              merge leftSibling n parent (pos - 1)
            else
              rightSibling ← getChild parent (pos + 1);
              merge n rightSibling parent pos
      end
  end.

Definition Delete (fuel : nat) (key : list byte) : M (option error) :=
  s ← get_state;
  leaf ← findLeaf fuel (root s) key;
  nd ← deref leaf;
  ks ← lift (keys nd);
  match list_find (λ k, Compare key k = Eq) ks with
  | None => mret (Some ErrKeyNotFound)
  | Some (pos, _) =>
      nd' ← lift (removeKV nd (Z.of_nat pos));
      store leaf nd';;
      s ← get_state;
      (if IsEmpty nd' && bool_decide (leaf ≠ root s)
       then rebalance fuel leaf else mret tt);;
      s ← get_state;
      set_size (int (size s - 1));;
      mret None
  end.

Definition BTreeSize : M Z := s ← get_state; mret (size s).

Fixpoint Height_from (fuel : nat) (node : pointer) (height : Z) : M Z :=
  match fuel with
  | O => out_of_fuel
  | S fuel' =>
      nd ← deref node;
      if decide (typ nd ≠ BNODE_LEAF) then
        child ← getChild node 0;
        Height_from fuel' child (int (height + 1))
      else mret height
  end.

Definition Height (fuel : nat) : M Z :=
  s ← get_state;
  Height_from fuel (root s) 0.

(** ** internal/btree/node.go: Validate and Iterate *)

(** The errors of [Merge] and [Validate]. *)
Inductive node_error : Type :=
  | ErrMergeTypes
  | ErrInconsistent
  | ErrInvalidOffsets.

(** The loop of [Validate] over the indices [0 .. nkeys-1]; the offsets are
    only read when [i > 0]. *)
Fixpoint Validate_loop (offs : list Z) (idxs : list Z) : res (option node_error) :=
  match idxs with
  | [] => mret None
  | i :: rest =>
      if decide (i > 0) then
        cur ← index offs i;
        prev ← index offs (i - 1);
        if decide (cur ≤ prev) then mret (Some ErrInvalidOffsets)
        else Validate_loop offs rest
      else Validate_loop offs rest
  end.

Definition Validate (n : Node) : res (option node_error) :=
  if decide (nkeys n ≠ u16 (len (pointers n)) ∨ nkeys n ≠ u16 (len (offsets n)))
  then mret (Some ErrInconsistent)
  else Validate_loop (offsets n) (seqZ 0 (nkeys n)).

(** One iteration of the loop of [Iterate]: the key and the value handed to
    the callback, [None] when the iteration is skipped by [continue]. *)
Definition entry_at (n : Node) (i : Z) : res (option (list byte * list byte)) :=
  if decide (i >= len (offsets n)) then mret None
  else
    start ← index (offsets n) i;
    if decide (start + 4 > len (data n)) then mret None
    else
      k0 ← index (data n) start;
      k1 ← index (data n) (u16 (start + 1));
      v0 ← index (data n) (u16 (start + 2));
      v1 ← index (data n) (u16 (start + 3));
      let keyLen := be16 k0 k1 in
      let valLen := be16 v0 v1 in
      let keyStart := u16 (start + 4) in
      let keyEnd := u16 (keyStart + keyLen) in
      if decide (keyEnd > len (data n)) then mret None
      else
        key ← slice (data n) keyStart keyEnd;
        if decide (typ n = BNODE_LEAF) then
          let valEnd := u16 (keyEnd + valLen) in
          if decide (valEnd > len (data n)) then mret None
          else
            value ← slice (data n) keyEnd valEnd;
            mret (Some (key, value))
        else mret (Some (key, [])).

(** [Iterate]: the callback is a function on a state of its own ([Acc]),
    returning the error that stops the iteration; it does not touch the
    node. *)
Fixpoint Iterate_loop {Acc Err} (n : Node)
    (f : list byte → list byte → Acc → Acc * option Err)
    (idxs : list Z) (s : Acc) : res (Acc * option Err) :=
  match idxs with
  | [] => mret (s, None)
  | i :: rest =>
      e ← entry_at n i;
      match e with
      | None => Iterate_loop n f rest s
      | Some (k, v) =>
          let '(s', err) := f k v s in
          match err with
          | Some _ => mret (s', err)
          | None => Iterate_loop n f rest s'
          end
      end
  end.

Definition Iterate {Acc Err} (n : Node)
    (f : list byte → list byte → Acc → Acc * option Err) (s : Acc)
  : res (Acc * option Err) :=
  Iterate_loop n f (seqZ 0 (nkeys n)) s.

End Btree.

(** ** internal/storage: the Storage interface and the B+Tree engine *)

Module Storage.

Import Btree.

(** [type Storage interface], restricted to the methods the Raft node calls.
    A method returns the error of the call ([None] for [nil]) and the
    storage after it. *)
Class Storage (S : Type) : Type := {
  Put : list byte → list byte → S → res (option error * S);
  Get : list byte → S → res (list byte * option error * S);
  Delete : list byte → S → res (option error * S)
}.

Definition PAGE_SIZE : Z := 4096.
Definition MAGIC : Z := 305419896.   (* 0x12345678 *)
Definition VERSION : Z := 1.

Definition u32 (z : Z) : Z := z `mod` 4294967296.

(** [binary.BigEndian.PutUint32] *)
Definition put32 (x : Z) : list byte :=
  [byte_of_Z (x ≫ 24); byte_of_Z (x ≫ 16); byte_of_Z (x ≫ 8); byte_of_Z x].

(** The database file is an external collaborator; it is modelled by its
    contents, and its operations are taken to succeed. *)
Record StorageEngine : Type := mkEngine {
  file : list byte;
  btree : Btree.State
}.

(** [Seek(off)] followed by [Write(bs)] *)
Definition write_at (f : list byte) (off : nat) (bs : list byte) : list byte :=
  take off (f ++ replicate (off - length f) Byte.x00) ++ bs
    ++ drop (off + length bs) f.

(** [serializeNode]: the placeholder of the source, eight zero bytes. *)
Definition serializeNode (t : Btree.State) : list byte :=
  replicate 8 Byte.x00.

Definition flush (fuel : nat) (e : StorageEngine) : res (option error * StorageEngine) :=
  '(h, t) ← Btree.Height fuel (btree e);
  let treeHeader := put32 (u32 (Btree.size t)) ++ put32 (u32 h) in
  let f := write_at (file e) 8 treeHeader in
  let f := if decide (Btree.size t > 0)
           then write_at f 16 (serializeNode t) else f in
  mret (None, {| file := f; btree := t |}).

(** [NewStorageEngine] on a file that does not exist yet. *)
Definition NewStorageEngine : res StorageEngine :=
  '(_, t) ← Btree.NewBTree Btree.initial;
  mret {| file := put32 MAGIC ++ put32 VERSION; btree := t |}.

Definition EnginePut (fuel : nat) (key value : list byte) (e : StorageEngine)
  : res (option error * StorageEngine) :=
  '(err, t) ← Btree.Insert fuel key value (btree e);
  match err with
  | Some _ => mret (err, {| file := file e; btree := t |})
  | None => flush fuel {| file := file e; btree := t |}
  end.

Definition EngineGet (fuel : nat) (key : list byte) (e : StorageEngine)
  : res (list byte * option error * StorageEngine) :=
  '(r, t) ← Btree.Get fuel key (btree e);
  mret (r, {| file := file e; btree := t |}).

Definition EngineDelete (fuel : nat) (key : list byte) (e : StorageEngine)
  : res (option error * StorageEngine) :=
  '(err, t) ← Btree.Delete fuel key (btree e);
  match err with
  | Some _ => mret (err, {| file := file e; btree := t |})
  | None => flush fuel {| file := file e; btree := t |}
  end.

(** [StorageEngine] implements [Storage]. *)
Definition engine_storage (fuel : nat) : Storage StorageEngine :=
  {| Put := EnginePut fuel; Get := EngineGet fuel; Delete := EngineDelete fuel |}.

(** The errors of [initialize]. *)
Inductive engine_error : Type :=
  | ErrShortHeader
  | ErrInvalidDatabaseFile
  | ErrUnsupportedVersion.

(** [binary.BigEndian.Uint32] *)
Definition Uint32 (b0 b1 b2 b3 : byte) : Z :=
  Z.lor (Z.lor (Z.lor (u32 (byte_to_Z b0 ≪ 24)) (u32 (byte_to_Z b1 ≪ 16)))
               (u32 (byte_to_Z b2 ≪ 8))) (byte_to_Z b3).

(** [initialize] on the contents of the file: the contents afterwards and
    the error returned.  An empty file receives the header; otherwise the
    header is read back ([ReadAt] fails on a file shorter than 8 bytes) and
    checked. *)
Definition initialize (f : list byte) : list byte * option engine_error :=
  if decide (len f = 0) then (put32 MAGIC ++ put32 VERSION, None)
  else
    match f with
    | b0 :: b1 :: b2 :: b3 :: b4 :: b5 :: b6 :: b7 :: _ =>
        let magic := Uint32 b0 b1 b2 b3 in
        let version := Uint32 b4 b5 b6 b7 in
        if decide (magic ≠ MAGIC) then (f, Some ErrInvalidDatabaseFile)
        else if decide (version ≠ VERSION) then (f, Some ErrUnsupportedVersion)
        else (f, None)
    | _ => (f, Some ErrShortHeader)
    end.

End Storage.

(** ** internal/raft: the node state and the RPC handlers *)

Module Raft.

Import Storage.

Inductive NodeState : Type := Follower | Candidate | Leader.

#[export] Instance NodeState_eq_dec : EqDecision NodeState.
Proof. solve_decision. Defined.

Record LogEntry : Type := mkLogEntry {
  Term : Z;
  Index : Z;
  Command : list byte
}.

Record RequestVoteRequest : Type := mkRequestVoteRequest {
  rvTerm : Z;
  CandidateID : string;
  LastLogIndex : Z;
  LastLogTerm : Z
}.

Record RequestVoteResponse : Type := mkRequestVoteResponse {
  rvrTerm : Z;
  VoteGranted : bool
}.

Record AppendEntriesRequest : Type := mkAppendEntriesRequest {
  aeTerm : Z;
  LeaderID : string;
  PrevLogIndex : Z;
  PrevLogTerm : Z;
  Entries : list LogEntry;
  LeaderCommit : Z
}.

Record AppendEntriesResponse : Type := mkAppendEntriesResponse {
  aerTerm : Z;
  Success : bool
}.

(** [RaftNode], without its channels, mutex and context.  Times are
    numbers; [time.Now()] is an argument of the operation that reads it. *)
Record RaftNode (St : Type) : Type := mkRaftNode {
  id : string;
  currentTerm : Z;
  votedFor : string;
  log : list LogEntry;
  commitIndex : Z;
  lastApplied : Z;
  nextIndex : gmap string Z;
  matchIndex : gmap string Z;
  state : NodeState;
  peers : gmap string string;
  storage : St;
  electionTimeout : Z;
  lastHeartbeat : Z
}.
Arguments mkRaftNode {St}.
Arguments id {St}.
Arguments currentTerm {St}.
Arguments votedFor {St}.
Arguments log {St}.
Arguments commitIndex {St}.
Arguments lastApplied {St}.
Arguments nextIndex {St}.
Arguments matchIndex {St}.
Arguments state {St}.
Arguments peers {St}.
Arguments storage {St}.
Arguments electionTimeout {St}.
Arguments lastHeartbeat {St}.

Section Handlers.

Context {St : Type} `{!Storage St}.

Definition NewRaftNode (id : string) (peers : gmap string string) (st : St)
    (timeout : Z) : RaftNode St :=
  {| id := id; currentTerm := 0; votedFor := ""; log := [];
     commitIndex := 0; lastApplied := 0; nextIndex := ∅; matchIndex := ∅;
     state := Follower; peers := peers; storage := st;
     electionTimeout := timeout; lastHeartbeat := 0 |}.

(** Field updates. *)
Definition set_log (n : RaftNode St) (l : list LogEntry) : RaftNode St :=
  {| id := id n; currentTerm := currentTerm n; votedFor := votedFor n; log := l;
     commitIndex := commitIndex n; lastApplied := lastApplied n;
     nextIndex := nextIndex n; matchIndex := matchIndex n;
     state := state n; peers := peers n; storage := storage n;
     electionTimeout := electionTimeout n; lastHeartbeat := lastHeartbeat n |}.

Definition set_commitIndex (n : RaftNode St) (c : Z) : RaftNode St :=
  {| id := id n; currentTerm := currentTerm n; votedFor := votedFor n; log := log n;
     commitIndex := c; lastApplied := lastApplied n;
     nextIndex := nextIndex n; matchIndex := matchIndex n;
     state := state n; peers := peers n; storage := storage n;
     electionTimeout := electionTimeout n; lastHeartbeat := lastHeartbeat n |}.

Definition set_lastApplied (n : RaftNode St) (a : Z) : RaftNode St :=
  {| id := id n; currentTerm := currentTerm n; votedFor := votedFor n; log := log n;
     commitIndex := commitIndex n; lastApplied := a;
     nextIndex := nextIndex n; matchIndex := matchIndex n;
     state := state n; peers := peers n; storage := storage n;
     electionTimeout := electionTimeout n; lastHeartbeat := lastHeartbeat n |}.

Definition set_storage (n : RaftNode St) (st : St) : RaftNode St :=
  {| id := id n; currentTerm := currentTerm n; votedFor := votedFor n; log := log n;
     commitIndex := commitIndex n; lastApplied := lastApplied n;
     nextIndex := nextIndex n; matchIndex := matchIndex n;
     state := state n; peers := peers n; storage := st;
     electionTimeout := electionTimeout n; lastHeartbeat := lastHeartbeat n |}.

Definition set_lastHeartbeat (n : RaftNode St) (t : Z) : RaftNode St :=
  {| id := id n; currentTerm := currentTerm n; votedFor := votedFor n; log := log n;
     commitIndex := commitIndex n; lastApplied := lastApplied n;
     nextIndex := nextIndex n; matchIndex := matchIndex n;
     state := state n; peers := peers n; storage := storage n;
     electionTimeout := electionTimeout n; lastHeartbeat := t |}.

Definition set_votedFor (n : RaftNode St) (v : string) : RaftNode St :=
  {| id := id n; currentTerm := currentTerm n; votedFor := v; log := log n;
     commitIndex := commitIndex n; lastApplied := lastApplied n;
     nextIndex := nextIndex n; matchIndex := matchIndex n;
     state := state n; peers := peers n; storage := storage n;
     electionTimeout := electionTimeout n; lastHeartbeat := lastHeartbeat n |}.

Definition set_indices (n : RaftNode St) (nx mx : gmap string Z) : RaftNode St :=
  {| id := id n; currentTerm := currentTerm n; votedFor := votedFor n; log := log n;
     commitIndex := commitIndex n; lastApplied := lastApplied n;
     nextIndex := nx; matchIndex := mx;
     state := state n; peers := peers n; storage := storage n;
     electionTimeout := electionTimeout n; lastHeartbeat := lastHeartbeat n |}.

(** The three assignments made whenever a higher term [t] is seen:
    [currentTerm = t; state = Follower; votedFor = ""]. *)
Definition adoptTerm (n : RaftNode St) (t : Z) : RaftNode St :=
  {| id := id n; currentTerm := t; votedFor := ""; log := log n;
     commitIndex := commitIndex n; lastApplied := lastApplied n;
     nextIndex := nextIndex n; matchIndex := matchIndex n;
     state := Follower; peers := peers n; storage := storage n;
     electionTimeout := electionTimeout n; lastHeartbeat := lastHeartbeat n |}.

Definition getLastLogTerm (n : RaftNode St) : Z :=
  match last (log n) with
  | None => 0
  | Some e => Term e
  end.

Definition isLogUpToDate (n : RaftNode St) (candidateLastIndex candidateLastTerm : Z) : bool :=
  let lastIndex := len (log n) in
  let lastTerm := getLastLogTerm n in
  bool_decide (candidateLastTerm > lastTerm)
  || (bool_decide (candidateLastTerm = lastTerm)
      && bool_decide (candidateLastIndex >= lastIndex)).

Definition logContainsEntry (n : RaftNode St) (index term : Z) : res bool :=
  if decide (index = 0) then mret true
  else if decide (index > len (log n)) then mret false
  else
    e ← Go.index (log n) (int (index - 1));
    mret (bool_decide (Term e = term)).

(** [RequestVote], run under the node's lock. *)
Definition RequestVote (n : RaftNode St) (req : RequestVoteRequest) (now : Z)
  : RaftNode St * RequestVoteResponse :=
  if decide (rvTerm req < currentTerm n) then
    (n, {| rvrTerm := currentTerm n; VoteGranted := false |})
  else
    let n := if decide (rvTerm req > currentTerm n)
             then adoptTerm n (rvTerm req) else n in
    if (bool_decide (votedFor n = "") || bool_decide (votedFor n = CandidateID req))
       && isLogUpToDate n (LastLogIndex req) (LastLogTerm req)
    then
      (set_lastHeartbeat (set_votedFor n (CandidateID req)) now,
       {| rvrTerm := currentTerm n; VoteGranted := true |})
    else
      (n, {| rvrTerm := currentTerm n; VoteGranted := false |}).

(** *** applyCommittedEntries *)

Definition PUT_ : list byte := ["P"; "U"; "T"; " "]%byte.
Definition DEL_ : list byte := ["D"; "E"; "L"; " "]%byte.

(** The loop looking for the separator: the index of the first space,
    [-1] when there is none. *)
Fixpoint spaceIndex (keyValue : list byte) (i : Z) : Z :=
  match keyValue with
  | [] => -1
  | b :: rest => if decide (b = " "%byte) then i else spaceIndex rest (i + 1)
  end.

(** The [switch] on the first four bytes of the command.  [Command[:4]] is
    taken against the length of the command (the commands of the log are
    built with exactly their length).  The error returned by the storage
    is dropped, as in the source. *)
Definition applyCommand (command : list byte) (st : St) : res St :=
  op ← slice_to command 4;
  if decide (op = PUT_) then
    keyValue ← slice_from command 4;
    let sp := spaceIndex keyValue 0 in
    if decide (sp > 0) then
      key ← slice_to keyValue sp;
      value ← slice_from keyValue (int (sp + 1));
      '(_, st') ← Put key value st;
      mret st'
    else mret st
  else if decide (op = DEL_) then
    key ← slice_from command 4;
    '(_, st') ← Delete key st;
    mret st'
  else mret st.

(** One iteration of [for r.node.lastApplied < r.node.commitIndex]. *)
Definition applyNext (n : RaftNode St) : res (RaftNode St) :=
  let n := set_lastApplied n (int (lastApplied n + 1)) in
  entry ← Go.index (log n) (int (lastApplied n - 1));
  st ← applyCommand (Command entry) (storage n);
  mret (set_storage n st).

(** The loop runs [commitIndex - lastApplied] times at most: each
    iteration adds one to [lastApplied]. *)
Fixpoint applyLoop (count : nat) (n : RaftNode St) : res (RaftNode St) :=
  match count with
  | O => mret n
  | S c =>
      if decide (lastApplied n < commitIndex n) then
        n' ← applyNext n;
        applyLoop c n'
      else mret n
  end.

Definition applyCommittedEntries (n : RaftNode St) : res (RaftNode St) :=
  applyLoop (Z.to_nat (commitIndex n - lastApplied n)) n.

(** *** AppendEntries *)

(** The conflict scan: the first [logIndex] whose entry of the log has a
    term different from the new entry, [-1] when there is none. *)
Fixpoint conflictIndex (lg : list LogEntry) (prevLogIndex : Z)
    (entries : list LogEntry) (i : Z) : res Z :=
  match entries with
  | [] => mret (-1)
  | entry :: rest =>
      let logIndex := int (int (prevLogIndex + 1) + i) in
      if decide (logIndex < len lg) then
        e ← Go.index lg logIndex;
        if decide (Term e ≠ Term entry) then mret logIndex
        else conflictIndex lg prevLogIndex rest (i + 1)
      else conflictIndex lg prevLogIndex rest (i + 1)
  end.

(** The appending loop: every entry gets [Index = len(log) + 1]. *)
Fixpoint appendAll (lg : list LogEntry) (entries : list LogEntry) : list LogEntry :=
  match entries with
  | [] => lg
  | entry :: rest =>
      appendAll (lg ++ [{| Term := Term entry; Index := int (len lg + 1);
                           Command := Command entry |}]) rest
  end.

(** [AppendEntries], run under the node's lock. *)
Definition AppendEntries (n : RaftNode St) (req : AppendEntriesRequest) (now : Z)
  : res (RaftNode St * AppendEntriesResponse) :=
  if decide (aeTerm req < currentTerm n) then
    mret (n, {| aerTerm := currentTerm n; Success := false |})
  else
    let n := if decide (aeTerm req > currentTerm n)
             then adoptTerm n (aeTerm req) else n in
    let n := set_lastHeartbeat n now in
    (* a heartbeat: just return success *)
    if decide (len (Entries req) = 0) then
      mret (n, {| aerTerm := currentTerm n; Success := true |})
    else
      ok ← logContainsEntry n (PrevLogIndex req) (PrevLogTerm req);
      if negb ok then
        mret (n, {| aerTerm := currentTerm n; Success := false |})
      else
        c ← conflictIndex (log n) (PrevLogIndex req) (Entries req) 0;
        lg ← (if decide (c ≠ -1) then slice_to (log n) c else mret (log n));
        let n := set_log n (appendAll lg (Entries req)) in
        let n :=
          if decide (LeaderCommit req > commitIndex n) then
            let lastNewEntryIndex := len (log n) in
            if decide (LeaderCommit req < lastNewEntryIndex)
            then set_commitIndex n (LeaderCommit req)
            else set_commitIndex n lastNewEntryIndex
          else n in
        n ← applyCommittedEntries n;
        mret (n, {| aerTerm := currentTerm n; Success := true |}).

(** *** Elections and heartbeats (the Raft node) *)

(** [startElection], the part run under the lock before the vote requests
    are sent; [timeout] is the value drawn for the election timeout. *)
Definition startElection (n : RaftNode St) (now timeout : Z) : RaftNode St :=
  {| id := id n; currentTerm := int (currentTerm n + 1); votedFor := id n;
     log := log n; commitIndex := commitIndex n; lastApplied := lastApplied n;
     nextIndex := nextIndex n; matchIndex := matchIndex n;
     state := Candidate; peers := peers n; storage := storage n;
     electionTimeout := timeout; lastHeartbeat := now |}.

(** [becomeLeader]: the assignments to the fields of the node.  The call
    of [sendHeartbeats] that ends it sends messages and takes the lock
    again; it assigns to no field and is not part of this function. *)
Definition becomeLeader (n : RaftNode St) (now : Z) : RaftNode St :=
  {| id := id n; currentTerm := currentTerm n; votedFor := votedFor n;
     log := log n; commitIndex := commitIndex n; lastApplied := lastApplied n;
     nextIndex := ((λ _, int (len (log n) + 1)) <$> peers n) ∪ nextIndex n;
     matchIndex := ((λ _, 0) <$> peers n) ∪ matchIndex n;
     state := Leader; peers := peers n; storage := storage n;
     electionTimeout := electionTimeout n; lastHeartbeat := now |}.

(** The locked section of the goroutine of [startElection] that integrates
    a vote response; [votes] is the counter shared by the goroutines. *)
Definition startElection_response (n : RaftNode St) (resp : RequestVoteResponse)
    (votes totalVotes now : Z) : RaftNode St * Z :=
  if decide (rvrTerm resp > currentTerm n) then (adoptTerm n (rvrTerm resp), votes)
  else if VoteGranted resp then
    let votes := int (votes + 1) in
    if decide (votes > totalVotes `quot` 2) then (becomeLeader n now, votes)
    else (n, votes)
  else (n, votes).

(** The locked section of the goroutine of [sendHeartbeats]. *)
Definition sendHeartbeats_response (n : RaftNode St) (resp : AppendEntriesResponse)
  : RaftNode St :=
  if decide (aerTerm resp > currentTerm n) then adoptTerm n (aerTerm resp) else n.

(** The locked section of the goroutine of [replicateLogEntry]. *)
Definition replicateLogEntry_response (n : RaftNode St) (resp : AppendEntriesResponse)
    (peer : string) (logIndex successCount totalPeers : Z) : res (RaftNode St * Z) :=
  if decide (aerTerm resp > currentTerm n) then
    mret (adoptTerm n (aerTerm resp), successCount)
  else if Success resp then
    let n := set_indices n (<[peer := int (logIndex + 1)]> (nextIndex n))
                           (<[peer := logIndex]> (matchIndex n)) in
    let successCount := int (successCount + 1) in
    if decide (successCount > totalPeers `quot` 2) then
      n ← applyCommittedEntries (set_commitIndex n logIndex);
      mret (n, successCount)
    else mret (n, successCount)
  else
    let nx := default 0 (nextIndex n !! peer) in
    if decide (nx > 0)
    then mret (set_indices n (<[peer := int (nx - 1)]> (nextIndex n)) (matchIndex n),
               successCount)
    else mret (n, successCount).

(** [StepDown] *)
Definition StepDown (n : RaftNode St) (now : Z) : RaftNode St :=
  if decide (state n = Leader) then
    {| id := id n; currentTerm := currentTerm n; votedFor := "";
       log := log n; commitIndex := commitIndex n; lastApplied := lastApplied n;
       nextIndex := nextIndex n; matchIndex := matchIndex n;
       state := Follower; peers := peers n; storage := storage n;
       electionTimeout := electionTimeout n; lastHeartbeat := now |}
  else n.

(** ** internal/raft/client.go *)

(** The error values of [handleClientRequest]. *)
Inductive ClientError : Type :=
  | ErrNotLeader
  | ErrUnknownOperation (operation : string)
  | ErrReplication.

(** The command built by the [switch] on [req.Operation]; [None] in the
    [default] case. *)
Definition client_command (operation : string) (key value : list byte)
  : option (list byte) :=
  if decide (operation = "put") then Some ((PUT_ ++ key) ++ [" "%byte] ++ value)
  else if decide (operation = "delete") then Some (DEL_ ++ key)
  else None.

(** [handleClientRequest] up to the call of [replicateLogEntry]: either the
    error sent on the response channel, or the node with the new entry
    appended, the entry and [logIndex]. *)
Definition handleClientRequest_append (n : RaftNode St)
    (operation : string) (key value : list byte)
  : RaftNode St * (ClientError + LogEntry * Z) :=
  if decide (state n ≠ Leader) then (n, inl ErrNotLeader)
  else
    match client_command operation key value with
    | None => (n, inl (ErrUnknownOperation operation))
    | Some command =>
        let entry := {| Term := currentTerm n; Index := int (len (log n) + 1);
                        Command := command |} in
        let n := set_log n (log n ++ [entry]) in
        (n, inr (entry, len (log n)))
    end.

(** [getPrevLogTerm] *)
Definition getPrevLogTerm (n : RaftNode St) (index : Z) : res Z :=
  if decide (index = 0) then mret 0
  else if decide (index > len (log n)) then mret 0
  else
    e ← Go.index (log n) (int (index - 1));
    mret (Term e).

(** The request [replicateLogEntry] sends to every peer; [term] is the
    term read under the lock at the start. *)
Definition replicateLogEntry_request (n : RaftNode St) (term : Z)
    (entry : LogEntry) (logIndex : Z) : res AppendEntriesRequest :=
  prevTerm ← getPrevLogTerm n (int (logIndex - 1));
  mret {| aeTerm := term; LeaderID := id n;
          PrevLogIndex := int (logIndex - 1); PrevLogTerm := prevTerm;
          Entries := [entry]; LeaderCommit := commitIndex n |}.

(** [bytes.Split(s, []byte{sep})] *)
Fixpoint bytes_Split (s : list byte) (sep : byte) : list (list byte) :=
  match s with
  | [] => [[]]
  | c :: rest =>
      if decide (c = sep) then [] :: bytes_Split rest sep
      else match bytes_Split rest sep with
           | p :: ps => (c :: p) :: ps
           | [] => [[c]]
           end
  end.

(** [applyEntry]: the leader applies the entry it has replicated.  The
    error returned by the storage is dropped. *)
Definition applyEntry (entry : LogEntry) (st : St) : res St :=
  let command := Command entry in
  if decide (len command < 4) then mret st
  else
    op ← slice_to command 4;
    if decide (op = PUT_) then
      rest ← slice_from command 4;
      let parts := bytes_Split rest " "%byte in
      if decide (len parts >= 2) then
        key ← Go.index parts 0;
        value ← Go.index parts 1;
        '(_, st') ← Put key value st;
        mret st'
      else mret st
    else if decide (op = DEL_) then
      key ← slice_from command 4;
      '(_, st') ← Delete key st;
      mret st'
    else mret st.

End Handlers.

End Raft.

Import Btree Storage Raft.

(** * The statements of the specification *)

(** ** The index as a sorted map *)

(** The operations of the index and what a caller observes of each. *)
Inductive op : Type :=
  | OpInsert (key value : list byte)
  | OpGet (key : list byte)
  | OpDelete (key : list byte).

Inductive observation : Type :=
  | Done
  | Value (v : list byte)
  | Failed (e : error).

#[export] Instance observation_eq_dec : EqDecision observation.
Proof. solve_decision. Defined.

#[export] Instance byte_countable : Countable byte :=
  inj_countable' Byte.to_N (λ n, default Byte.x00 (Byte.of_N n))
    (λ b, @eq_ind_r _ (Some b) (λ o, default Byte.x00 o = b) eq_refl _
            (Byte.of_to_N b)).

(** The sorted map the specification compares the index with: inserting a
    present key is refused, reading or deleting an absent key is an error. *)
Definition sorted_map : Type := gmap (list byte) (list byte).

Definition sorted_map_step (m : sorted_map) (o : op) : sorted_map * observation :=
  match o with
  | OpInsert k v =>
      match m !! k with
      | Some _ => (m, Failed ErrKeyExists)
      | None => (<[k := v]> m, Done)
      end
  | OpGet k =>
      match m !! k with
      | Some v => (m, Value v)
      | None => (m, Failed ErrKeyNotFound)
      end
  | OpDelete k =>
      match m !! k with
      | Some _ => (delete k m, Done)
      | None => (m, Failed ErrKeyNotFound)
      end
  end.

Fixpoint sorted_map_run (m : sorted_map) (ops : list op) : list observation :=
  match ops with
  | [] => []
  | o :: rest =>
      let '(m', r) := sorted_map_step m o in
      r :: sorted_map_run m' rest
  end.

(** The same operations on the B+Tree. *)
Definition observe (err : option error) (r : observation) : observation :=
  match err with
  | Some e => Failed e
  | None => r
  end.

Definition tree_step (fuel : nat) (o : op) : M observation :=
  match o with
  | OpInsert k v => err ← Btree.Insert fuel k v; mret (observe err Done)
  | OpGet k => '(v, err) ← Btree.Get fuel k; mret (observe err (Value v))
  | OpDelete k => err ← Btree.Delete fuel k; mret (observe err Done)
  end.

Fixpoint tree_run (fuel : nat) (ops : list op) : M (list observation) :=
  match ops with
  | [] => mret []
  | o :: rest =>
      r ← tree_step fuel o;
      rs ← tree_run fuel rest;
      mret (r :: rs)
  end.

(** The result of a computation started on the package's initial state. *)
Definition eval {A} (m : M A) : res A :=
  '(a, _) ← m initial; mret a.

(** ** Nodes of the tree *)

(** The addresses met when descending from [a] through the ids of the
    pointers, as [getChild] resolves them (ids that are not registered lead
    nowhere). *)
Fixpoint reachable_from (fuel : nat) (s : State) (a : nat) : list nat :=
  match fuel with
  | O => []
  | S fuel' =>
      a :: match nodes s !! a with
           | Some nd =>
               flat_map (λ id, match nodeRelationships s !! id with
                               | Some c => reachable_from fuel' s c
                               | None => []
                               end) (pointers nd)
           | None => []
           end
  end.

Definition reachable (fuel : nat) (s : State) : list nat :=
  match root s with
  | Some r => reachable_from fuel s r
  | None => []
  end.

(** No node other than the root has zero entries. *)
Definition no_empty_non_root (fuel : nat) (s : State) : bool :=
  forallb (λ a, bool_decide (root s = Some a)
                || match nodes s !! a with
                   | Some nd => negb (IsEmpty nd)
                   | None => true
                   end) (reachable fuel s).

(** Every node fits in a page once serialized. *)
Definition pages_fit (fuel : nat) (s : State) : bool :=
  forallb (λ a, match nodes s !! a with
                | Some nd => bool_decide (len (Serialize nd) ≤ BTREE_PAGE_SIZE)
                | None => true
                end) (reachable fuel s).

(** The keys of a leaf in strictly ascending order, the order in which
    [insertInLeaf] keeps them. *)
Fixpoint ascending (ks : list (list byte)) : bool :=
  match ks with
  | [] => true
  | k :: rest => forallb (λ k', bool_decide (Compare k k' = Lt)) rest && ascending rest
  end.

Definition leaf_sorted (nd : Node) : bool :=
  match keys nd with
  | Ret ks => ascending ks
  | _ => true
  end.

Definition leaves_sorted (s : State) : Prop :=
  map_Forall (λ _ nd, leaf_sorted nd = true) (nodes s).

(** ** Commands of the log *)

(** The command [PUT <key> <value>]. *)
Definition put_command (key value : list byte) : list byte :=
  PUT_ ++ key ++ " "%byte :: value.

(** ** The Raft rules *)

Section Rules.

Context {St : Type} `{!Storage St}.



(** The log contains an entry at [prevLogIndex] whose term is
    [prevLogTerm]; index [0] matches vacuously. *)
Definition log_matches (lg : list LogEntry) (prevLogIndex prevLogTerm : Z) : Prop :=
  prevLogIndex = 0
  ∨ (1 ≤ prevLogIndex
     ∧ ∃ e, lg !! Z.to_nat (prevLogIndex - 1) = Some e ∧ Term e = prevLogTerm).

End Rules.

(** ** Concrete inputs *)

Definition v3000 : list byte := replicate 3000 "v"%byte.

Definition key_a : list byte := ["a"%byte].
Definition key_b : list byte := ["b"%byte].
Definition key_c : list byte := ["c"%byte].
Definition key_k : list byte := ["k"%byte].
Definition val_old : list byte := ["o"; "l"; "d"]%byte.
Definition val_new : list byte := ["n"; "e"; "w"]%byte.

(** Three insertions of page-filling values, then a read of the second. *)
Definition three_inserts : list op :=
  [OpInsert key_b v3000; OpInsert key_c v3000; OpInsert key_a v3000].

Definition three_inserts_get : list op := three_inserts ++ [OpGet key_c].

(** The leaf [NewNode(BNODE_LEAF)] after [insertKV(0, "a", "b")]. *)
Definition leaf_ab : Node :=
  {| typ := BNODE_LEAF; nkeys := 1; pointers := []; offsets := [0];
     data := [Byte.x00; Byte.x01; Byte.x00; Byte.x01; "a"; "b"]%byte |}.

(** A leaf header announcing one entry, with nothing after it. *)
Definition truncated_page : list byte := [Byte.x00; Byte.x02; Byte.x00; Byte.x01].

(** The engine [NewStorageEngine] returns on a new file. *)
Definition new_engine : StorageEngine :=
  match NewStorageEngine with
  | Ret e => e
  | _ => {| file := []; btree := initial |}
  end.

(** The engine after [Put("k", "old")]. *)
Definition engine_k : StorageEngine :=
  match EnginePut 10 key_k val_old new_engine with
  | Ret (_, e) => e
  | _ => new_engine
  end.

Definition fresh_node : RaftNode StorageEngine :=
  @NewRaftNode StorageEngine "n1" ∅ new_engine 150.

(** A heartbeat of term 1 that names an entry the receiver does not have. *)
Definition heartbeat_5 : AppendEntriesRequest :=
  {| aeTerm := 1; LeaderID := "n2"; PrevLogIndex := 5; PrevLogTerm := 1;
     Entries := []; LeaderCommit := 0 |}.

(** The same request carrying one entry. *)
Definition append_5 : AppendEntriesRequest :=
  {| aeTerm := 1; LeaderID := "n2"; PrevLogIndex := 5; PrevLogTerm := 1;
     Entries := [{| Term := 1; Index := 6; Command := put_command key_k val_new |}];
     LeaderCommit := 0 |}.

(** A vote request at the largest term an [int] holds. *)
Definition vote_MaxInt : RequestVoteRequest :=
  {| rvTerm := MaxInt; CandidateID := "n2"; LastLogIndex := 0; LastLogTerm := 0 |}.

(** ** The layout of a node *)

(** An entry of a node: a key and a value. *)
Abbreviation entry := (list byte * list byte)%type.

(** The bytes of an entry, as the comment on [Node.data] gives them:
    [| key_size (2B) | val_size (2B) | key | val |]. *)
Definition entry_bytes (e : entry) : list byte :=
  put16 (len e.1) ++ put16 (len e.2) ++ e.1 ++ e.2.

Definition entries_bytes (es : list entry) : list byte :=
  concat (entry_bytes <$> es).

(** The offset of each entry in the concatenation, counted from [start]. *)
Fixpoint entry_offsets (start : Z) (es : list entry) : list Z :=
  match es with
  | [] => []
  | e :: rest => start :: entry_offsets (start + len (entry_bytes e)) rest
  end.

(** The node [n] holds the entries [es], in this order: [nkeys] counts
    them, [data] is their concatenation, [offsets] points at each of them,
    and the data stay within the range of a [uint16] offset. *)
Definition holds (n : Node) (es : list entry) : Prop :=
  nkeys n = len es
  ∧ offsets n = entry_offsets 0 es
  ∧ data n = entries_bytes es
  ∧ len (data n) < 65536.

(** [x] inserted before position [pos]. *)
Definition insert_at {A} (pos : nat) (x : A) (l : list A) : list A :=
  take pos l ++ x :: drop pos l.

(** The fields of a node within the ranges of their Go types. *)
Definition in_range (n : Node) : Prop :=
  0 ≤ typ n < 65536 ∧ 0 ≤ nkeys n < 65536
  ∧ Forall (λ p, 0 ≤ p < 18446744073709551616) (pointers n)
  ∧ Forall (λ o, 0 ≤ o < 65536) (offsets n).

(** What [Iterate] is expected to do on the entries [es]: call [f] on each
    of them in order, until [f] returns an error. *)
Fixpoint visit {Acc Err} (f : list byte → list byte → Acc → Acc * option Err)
    (es : list entry) (s : Acc) : Acc * option Err :=
  match es with
  | [] => (s, None)
  | (k, v) :: rest =>
      let '(s', err) := f k v s in
      match err with
      | Some _ => (s', err)
      | None => visit f rest s'
      end
  end.

(** ** Trees of one page *)

(** The root of the tree is the leaf [nd], which holds the entries [es] in
    ascending order of their keys. *)
Definition root_leaf (s : State) (nd : Node) (es : list entry) : Prop :=
  ∃ a, root s = Some a ∧ nodes s !! a = Some nd
       ∧ typ nd = BNODE_LEAF ∧ holds nd es ∧ ascending es.*1 = true.

(** The bytes the insertions of [ops] add to a leaf: the entry and its
    offset. *)
Fixpoint ops_bytes (ops : list op) : Z :=
  match ops with
  | [] => 0
  | OpInsert k v :: rest => 6 + len k + len v + ops_bytes rest
  | _ :: rest => ops_bytes rest
  end.

Definition op_in_bounds (o : op) : Prop :=
  match o with
  | OpInsert k v => len k ≤ BTREE_MAX_KEY_SIZE ∧ len v ≤ BTREE_MAX_VAL_SIZE
  | _ => True
  end.

(** A computation that leaves the counter [size] of the tree alone. *)
Definition keeps_size {A} (m : M A) : Prop :=
  ∀ s a s', m s = Ret (a, s') → size s' = size s.

(** ** The storage engine driven by a sequence of operations *)

Inductive engine_op : Type :=
  | EnginePutOp (key value : list byte)
  | EngineDeleteOp (key : list byte).

Fixpoint engine_run (fuel : nat) (ops : list engine_op) (e : StorageEngine)
  : res StorageEngine :=
  match ops with
  | [] => mret e
  | EnginePutOp k v :: rest =>
      '(_, e') ← EnginePut fuel k v e; engine_run fuel rest e'
  | EngineDeleteOp k :: rest =>
      '(_, e') ← EngineDelete fuel k e; engine_run fuel rest e'
  end.

(** ** The log *)

(** The entries [es] as [AppendEntries] stores them after [start] entries:
    each one numbered with its position in the log. *)
Definition renumber (start : Z) (es : list LogEntry) : list LogEntry :=
  imap (λ i e, {| Term := Term e; Index := int (start + Z.of_nat i + 1);
                  Command := Command e |}) es.

(** Every entry of the log carries its position, counted from one. *)
Definition log_indexed (lg : list LogEntry) : Prop :=
  ∀ i e, lg !! i = Some e → Index e = Z.of_nat i + 1.

(** The bytes of [s] before its first space. *)
Fixpoint before_space (s : list byte) : list byte :=
  match s with
  | [] => []
  | c :: rest => if decide (c = " "%byte) then [] else c :: before_space rest
  end.

(** ** More concrete inputs *)

(** An internal node with one key and one child, as [Validate] wants it. *)
Definition node_one_child : Node :=
  {| typ := BNODE_NODE; nkeys := 1; pointers := [7]; offsets := [0];
     data := [Byte.x00; Byte.x01; Byte.x00; Byte.x00; "k"]%byte |}.

(** The leaf holding "a" -> "b" and "c" -> "d". *)
Definition leaf_ab_cd : Node :=
  {| typ := BNODE_LEAF; nkeys := 2; pointers := []; offsets := [0; 6];
     data := [Byte.x00; Byte.x01; Byte.x00; Byte.x01; "a"; "b";
              Byte.x00; Byte.x01; Byte.x00; Byte.x01; "c"; "d"]%byte |}.

(** A callback for [Iterate] that collects the keys and never fails. *)
Definition collect_keys (k v : list byte) (acc : list (list byte))
  : list (list byte) * option unit :=
  (acc ++ [k], None).

Definition small_ops : list op :=
  [OpInsert key_b val_old; OpInsert key_a val_new; OpInsert key_b val_new;
   OpGet key_b; OpDelete key_a; OpGet key_a; OpDelete key_c].

Definition small_engine_ops : list engine_op :=
  [EnginePutOp key_k val_old; EnginePutOp key_a val_new; EngineDeleteOp key_k].

(** The tree after [NewBTree]. *)
Definition new_tree : State :=
  {| nodes := {[ 0%nat := NewNode BNODE_LEAF ]}; brk := 1%nat;
     nodeRelationships := ∅; nextNodeID := 1; root := Some 0%nat; size := 0 |}.

(** A leader of term 1 with an empty log, and a follower with the same log. *)
Definition leader_node : RaftNode StorageEngine :=
  {| Raft.id := "n1"; currentTerm := 1; votedFor := "n1"; log := [];
     commitIndex := 0; lastApplied := 0; nextIndex := ∅; matchIndex := ∅;
     Raft.state := Leader; peers := ∅; storage := new_engine;
     electionTimeout := 150; lastHeartbeat := 0 |}.

Definition vote_n2 : RequestVoteRequest :=
  {| rvTerm := 1; CandidateID := "n2"; LastLogIndex := 0; LastLogTerm := 0 |}.

Definition vote_n3 : RequestVoteRequest :=
  {| rvTerm := 1; CandidateID := "n3"; LastLogIndex := 0; LastLogTerm := 0 |}.

(** A request of term 1 carrying one entry after an empty log. *)
Definition append_first : AppendEntriesRequest :=
  {| aeTerm := 1; LeaderID := "n2"; PrevLogIndex := 0; PrevLogTerm := 0;
     Entries := [{| Term := 1; Index := 9; Command := put_command key_k val_new |}];
     LeaderCommit := 0 |}.

Definition granted_vote : RequestVoteResponse :=
  {| rvrTerm := 1; VoteGranted := true |}.

(** A candidate of term 1. *)
Definition candidate_node : RaftNode StorageEngine :=
  startElection fresh_node 0 150.

(** * Properties *)

(** ** Running monadic code *)

Lemma res_bind_Ret {A B} (f : A → res B) (m : res A) (b : B) :
  m ≫= f = Ret b → ∃ a, m = Ret a ∧ f a = Ret b.
Proof. destruct m as [a| |]; simpl; intros H; try discriminate; eauto. Qed.

Lemma M_bind_Ret {A B} (f : A → M B) (m : M A) s (b : B) s' :
  (m ≫= f) s = Ret (b, s') → ∃ a s1, m s = Ret (a, s1) ∧ f a s1 = Ret (b, s').
Proof.
  unfold mbind, M_mbind, M_bind.
  destruct (m s) as [[a s1]| |]; intros H; try discriminate; eauto.
Qed.

Lemma lift_Ret {A} (r : res A) s (a : A) s' :
  lift r s = Ret (a, s') → r = Ret a ∧ s' = s.
Proof. destruct r; simpl; intros H; inversion H; auto. Qed.

Lemma deref_Ret p s nd s' :
  deref p s = Ret (nd, s') → s' = s ∧ ∃ a, p = Some a ∧ nodes s !! a = Some nd.
Proof.
  unfold deref. destruct p as [a|]; [|discriminate].
  destruct (nodes s !! a) eqn:E; intros H; inversion H; subst; eauto.
Qed.

(** Inversion of a computation that returned: peel the binds of [H]. *)
Ltac inv_bind H :=
  let a := fresh "a" in
  let s1 := fresh "s" in
  let H1 := fresh H in
  first
    [ apply M_bind_Ret in H; destruct H as (a & s1 & H1 & H)
    | apply res_bind_Ret in H; destruct H as (a & H1 & H) ].

(** ** Arithmetic, comparison and slices *)

Lemma int_id z : -9223372036854775808 ≤ z ≤ 9223372036854775807 → int z = z.
Proof. intros Hz. unfold int. rewrite Z.mod_small; lia. Qed.

Lemma to_N_inj (x y : byte) : Byte.to_N x = Byte.to_N y → x = y.
Proof.
  intros H. pose proof (Byte.of_to_N x) as Hx. pose proof (Byte.of_to_N y) as Hy.
  rewrite H in Hx. congruence.
Qed.

Lemma Compare_refl k : Compare k k = Eq.
Proof. induction k as [|x k IH]; simpl; auto. rewrite N.compare_refl. auto. Qed.

Lemma Compare_Eq a b : Compare a b = Eq → a = b.
Proof.
  revert b. induction a as [|x a IH]; intros [|y b]; simpl; try discriminate; auto.
  destruct (N.compare (Byte.to_N x) (Byte.to_N y)) eqn:E; try discriminate.
  intros H. apply N.compare_eq_iff in E. apply to_N_inj in E. f_equal; auto.
Qed.

Lemma Compare_Lt_Gt a b : Compare a b = Lt → Compare b a = Gt.
Proof.
  revert b. induction a as [|x a IH]; intros [|y b]; simpl; try discriminate; auto.
  rewrite (N.compare_antisym (Byte.to_N x) (Byte.to_N y)).
  destruct (N.compare (Byte.to_N x) (Byte.to_N y)) eqn:E; simpl; try discriminate; auto.
Qed.

Lemma slice_to_app {A} (l1 l2 : list A) : slice_to (l1 ++ l2) (len l1) = Ret l1.
Proof.
  unfold slice_to, slice, len. rewrite length_app.
  destruct (decide _) as [_|Hn]; [|lia].
  rewrite Z.sub_0_r, Nat2Z.id. change (Z.to_nat 0) with 0%nat. rewrite drop_0.
  rewrite take_app_length. reflexivity.
Qed.

Lemma slice_from_app {A} (l1 l2 : list A) : slice_from (l1 ++ l2) (len l1) = Ret l2.
Proof.
  unfold slice_from, slice, len. rewrite length_app.
  destruct (decide _) as [_|Hn]; [|lia].
  rewrite Nat2Z.id, drop_app_length. f_equal. apply take_ge.
  lia.
Qed.

Lemma res_bind_eq {A B} (m : res A) (a : A) (f : A → res B) :
  m = Ret a → m ≫= f = f a.
Proof. intros ->. reflexivity. Qed.


(** ** The descent to a leaf *)

(** In a leaf whose keys ascend, the scan of [insertInLeaf] meets every key
    of the leaf. *)
Lemma leaf_position_found key ks i0 :
  ascending ks = true → key ∈ ks → leaf_position key ks i0 = None.
Proof.
  revert i0. induction ks as [|k ks IH]; intros i0 Hasc Hin.
  - inversion Hin.
  - simpl in *. apply andb_true_iff in Hasc as [Hk Hasc].
    apply elem_of_cons in Hin as [->|Hin].
    + rewrite Compare_refl. reflexivity.
    + rewrite forallb_forall in Hk.
      assert (Compare k key = Lt) as Hlt.
      { eapply bool_decide_eq_true_1. apply Hk. apply list_elem_of_In. exact Hin. }
      rewrite (Compare_Lt_Gt _ _ Hlt). apply IH; assumption.
Qed.

(** [getChild] changes the state only by allocating a new, empty leaf,
    which it then returns. *)
Lemma getChild_spec n i s c s' :
  getChild n i s = Ret (c, s') →
  s' = s ∨ (∃ a, c = Some a ∧ nodes s' !! a = Some (NewNode BNODE_LEAF)).
Proof.
  unfold getChild. intros H.
  apply M_bind_Ret in H as (nd & s1 & Hd & H). apply deref_Ret in Hd as [-> _].
  destruct (decide _).
  { inversion H; auto. }
  apply M_bind_Ret in H as (nodeID & s2 & Hl & H). apply lift_Ret in Hl as [_ ->].
  apply M_bind_Ret in H as (s3 & s4 & Hg & H). inversion Hg; subst s3 s4; clear Hg.
  destruct (nodeRelationships s !! nodeID).
  { inversion H; auto. }
  apply M_bind_Ret in H as (child & s5 & Ha & H).
  apply M_bind_Ret in H as (u & s6 & Hr & H).
  inversion H; subst. right. exists child. split; auto.
  unfold alloc in Ha. inversion Ha; subst; clear Ha.
  destruct (decide (nodeID > 0)); inversion Hr; subst; simpl; apply lookup_insert_eq.
Qed.

Lemma findLeaf_spec fuel n key s leaf s' :
  findLeaf fuel n key s = Ret (leaf, s') →
  s' = s ∨ (∃ a, leaf = Some a ∧ nodes s' !! a = Some (NewNode BNODE_LEAF)).
Proof.
  revert n s. induction fuel as [|fuel IH]; intros n s; simpl; [discriminate|].
  intros H. apply M_bind_Ret in H as (nd & s1 & Hd & H). apply deref_Ret in Hd as [-> _].
  destruct (decide (typ nd = BNODE_LEAF)).
  { inversion H; auto. }
  apply M_bind_Ret in H as (ks & s2 & Hl & H). apply lift_Ret in Hl as [_ ->].
  assert (Hstep : ∀ i, (getChild n i ≫= λ child, findLeaf fuel child key) s = Ret (leaf, s') →
     s' = s ∨ (∃ a, leaf = Some a ∧ nodes s' !! a = Some (NewNode BNODE_LEAF))).
  { clear H. intros i H. apply M_bind_Ret in H as (child & s3 & Hc & H).
    pose proof (IH _ _ H) as [->|Hfresh]; [|auto].
    apply getChild_spec in Hc as [->|(c & -> & Hc)]; [auto|].
    right. destruct fuel; simpl in H; [discriminate|].
    apply M_bind_Ret in H as (nd' & s4 & Hd & H).
    unfold deref in Hd. rewrite Hc in Hd. inversion Hd; subst.
    simpl in H. inversion H; subst. eauto. }
  destruct (list_find _ ks) as [[i k]|]; eapply Hstep; eauto.
Qed.

(** ** Errors of [Insert] *)



(** A key that [Get] finds is refused by [Insert], and neither call changes
    the tree. *)
Lemma Get_found_Insert_exists fuel key value s old s1 :
  leaves_sorted s →
  len key ≤ BTREE_MAX_KEY_SIZE →
  Btree.Get fuel key s = Ret (old, None, s1) →
  s1 = s
  ∧ ((len value ≤ BTREE_MAX_VAL_SIZE
      ∧ Insert fuel key value s = Ret (Some ErrKeyExists, s))
     ∨ (len value > BTREE_MAX_VAL_SIZE
        ∧ Insert fuel key value s = Ret (Some ErrValueTooLarge, s))).
Proof.
  intros Hsorted Hk HG. unfold Btree.Get in HG.
  apply M_bind_Ret in HG as (s0 & s0' & Hg & HG). inversion Hg; subst s0 s0'; clear Hg.
  apply M_bind_Ret in HG as (leaf & s2 & Hfind & HG).
  apply M_bind_Ret in HG as (nd & s3 & Hd & HG).
  pose proof Hd as Hd'. apply deref_Ret in Hd' as (-> & a & -> & Hnd).
  apply M_bind_Ret in HG as (ks & s4 & Hks & HG). apply lift_Ret in Hks as [Hks ->].
  destruct (list_find (λ k, Compare key k = Eq) ks) as [[i k]|] eqn:Hfound; [|inversion HG].
  apply M_bind_Ret in HG as (v & s5 & Hv & HG). apply lift_Ret in Hv as [Hv ->].
  inversion HG; subst v s1; clear HG.
  apply list_find_Some in Hfound as (Hi & Heq & _). apply Compare_Eq in Heq. subst k.
  assert (s2 = s) as ->.
  { apply findLeaf_spec in Hfind as [->|(a' & Ha' & Hfresh)]; [reflexivity|].
    exfalso. inversion Ha'; subst a'. rewrite Hfresh in Hnd. inversion Hnd; subst nd.
    vm_compute in Hks. inversion Hks; subst ks. rewrite lookup_nil in Hi. discriminate. }
  split; [reflexivity|].
  assert (Hasc : ascending ks = true).
  { specialize (Hsorted a nd Hnd). simpl in Hsorted. unfold leaf_sorted in Hsorted.
    rewrite Hks in Hsorted. exact Hsorted. }
  unfold Insert. destruct (decide (len key > BTREE_MAX_KEY_SIZE)); [lia|].
  destruct (decide (len value > BTREE_MAX_VAL_SIZE)); [right; split; [assumption|reflexivity]|].
  left. split; [lia|].
  unfold mbind, M_mbind, M_bind at 1. unfold get_state.
  unfold M_bind at 1. rewrite Hfind.
  unfold insertInLeaf. unfold mbind, M_mbind.
  unfold M_bind at 1. unfold M_bind at 1. rewrite Hd.
  unfold M_bind at 1. unfold lift at 1. rewrite Hks.
  rewrite (leaf_position_found key ks 0 Hasc); [reflexivity|].
  apply list_elem_of_lookup. eauto.
Qed.

(** ** The B+Tree *)

(** C1, at the input where the code departs from it: on a fresh tree the
    three insertions ("b", "c", "a", each with a 3000-byte value) succeed, as
    on a sorted map; the sorted map then returns the value stored under "c",
    whereas [Get] dereferences a nil node.  The split triggered by the third
    insertion stores the new leaf with [setChild(pos+1, ...)], which
    overwrites the pointer to the leaf holding "c". *)
Theorem tree_diverges_from_sorted_map :
  sorted_map_run ∅ three_inserts_get = [Done; Done; Done; Value v3000]
  ∧ eval (NewBTree;; tree_run 10 three_inserts) = Ret [Done; Done; Done]
  ∧ eval (NewBTree;; tree_run 10 three_inserts_get) = Panic NilDereference.
Proof. repeat split; vm_compute; reflexivity. Qed.

(** C2, at the input where the code departs from it: the leaf obtained by
    [insertKV(0, "a", "b")] on a new leaf is serialized without pointers,
    and [Deserialize] reads [nkeys] pointers: decoding the page indexes past
    its end. *)
Theorem Deserialize_Serialize_leaf_panics :
  insertKV (NewNode BNODE_LEAF) 0 key_a key_b = Ret leaf_ab
  ∧ Deserialize (NewNode BNODE_LEAF) (Serialize leaf_ab) = Panic IndexOutOfRange.
Proof. split; vm_compute; reflexivity. Qed.

(** C6, at the input where the code departs from it: after "b" and "c" are
    inserted with 3000-byte values the root has two leaves; deleting "b"
    succeeds and leaves its leaf, which is not the root, with no entry
    ([redistribute] and [merge] have empty bodies). *)
Theorem Delete_leaves_empty_leaf :
  eval (NewBTree;;
        e1 ← Btree.Insert 10 key_b v3000;
        e2 ← Btree.Insert 10 key_c v3000;
        s0 ← get_state;
        d ← Btree.Delete 10 key_b;
        s ← get_state;
        mret (e1, e2, no_empty_non_root 10 s0, d, no_empty_non_root 10 s))
  = Ret (None, None, true, None, false).
Proof. vm_compute. reflexivity. Qed.

(** C7, at the input where the code departs from it: after "a" (empty
    value), "c" and "b" (3000-byte values) are inserted, all successfully,
    a leaf reachable from the root holds "b" and "c": [Split] halves the
    entries by count, and the right half does not fit in a page. *)
Theorem Insert_leaves_oversized_leaf :
  eval (NewBTree;;
        e1 ← Btree.Insert 10 key_a [];
        e2 ← Btree.Insert 10 key_c v3000;
        s0 ← get_state;
        e3 ← Btree.Insert 10 key_b v3000;
        s ← get_state;
        mret (e1, e2, pages_fit 10 s0, e3, pages_fit 10 s,
              (λ a, (len ∘ Serialize) <$> nodes s !! a) <$> reachable 10 s))
  = Ret (None, None, true, None, false, [Some 27; Some 11; Some 6018]).
Proof. vm_compute. reflexivity. Qed.

(** C8, at the input where the code departs from it: a four-byte page
    announcing one entry passes the only length check of [Deserialize],
    which then reads the pointer array past the end of the page. *)
Theorem Deserialize_truncated_panics :
  len truncated_page = 4
  ∧ Deserialize (NewNode BNODE_LEAF) truncated_page = Panic IndexOutOfRange.
Proof. split; vm_compute; reflexivity. Qed.




(** ** Applying a PUT *)

Lemma spaceIndex_app key rest i :
  " "%byte ∉ key → spaceIndex (key ++ " "%byte :: rest) i = i + len key.
Proof.
  revert i. induction key as [|b key IH]; intros i Hno; simpl.
  - destruct (decide (" "%byte = " "%byte)); [unfold len; simpl; lia | congruence].
  - destruct (decide (b = " "%byte)) as [->|_].
    + exfalso. apply Hno. left.
    + rewrite IH; [unfold len; simpl; lia|]. intros Hin. apply Hno. right. exact Hin.
Qed.

(** A well-formed PUT command reaches [Put] with its key and its value, and
    the error [Put] returns is dropped. *)
Lemma applyCommand_PUT `{!Storage St} key value (st : St) :
  key ≠ [] → " "%byte ∉ key → len key < MaxInt →
  applyCommand (put_command key value) st = Put key value st ≫= λ '(_, st'), mret st'.
Proof.
  intros Hne Hsp Hk. unfold applyCommand, put_command.
  rewrite (res_bind_eq _ PUT_) by apply (slice_to_app PUT_).
  destruct (decide (PUT_ = PUT_)) as [_|]; [|congruence].
  rewrite (res_bind_eq _ (key ++ " "%byte :: value)) by apply (slice_from_app PUT_).
  rewrite spaceIndex_app by assumption. rewrite Z.add_0_l.
  destruct (decide (len key > 0)) as [_|Hz].
  2:{ destruct key; [congruence | unfold len in Hz; simpl in Hz; lia]. }
  rewrite (res_bind_eq _ key) by apply slice_to_app.
  rewrite (res_bind_eq _ value); [reflexivity|].
  rewrite int_id by (unfold MaxInt, len in *; lia).
  replace (key ++ " "%byte :: value) with ((key ++ [" "%byte]) ++ value)
    by (rewrite <- app_assoc; reflexivity).
  replace (len key + 1) with (len (key ++ [" "%byte]))
    by (unfold len; rewrite length_app; simpl; lia).
  apply slice_from_app.
Qed.



Lemma leaves_sorted_engine_k : leaves_sorted (btree engine_k).
Proof.
  apply (bool_decide_unpack (leaves_sorted (btree engine_k))).
  vm_compute. exact I.
Defined.


(** ** The Raft handlers *)

Section Handlers_properties.

Context {St : Type} `{!Storage St}.



Lemma logContainsEntry_false (n : RaftNode St) i t :
  0 ≤ i → len (log n) ≤ MaxInt → ¬ log_matches (log n) i t →
  logContainsEntry n i t = Ret false.
Proof.
  intros Hi Hlen Hno. unfold logContainsEntry, log_matches in *.
  destruct (decide (i = 0)); [tauto|].
  destruct (decide (i > len (log n))); [reflexivity|].
  unfold MaxInt in Hlen.
  rewrite int_id by lia. unfold index.
  destruct (decide (0 ≤ i - 1)); [|lia].
  destruct (log n !! Z.to_nat (i - 1)) as [e|] eqn:E.
  - simpl. f_equal. apply bool_decide_eq_false. intros Ht. apply Hno. right. split; [lia|]. eauto.
  - apply lookup_ge_None in E. unfold len in *. lia.
Qed.

(** C4 as the code has it: a request that carries at least one entry, with
    a term at least [currentTerm] and a [prevLogIndex] that is not negative,
    is answered with [success = false] and leaves the log unchanged when the
    log has no entry at [prevLogIndex] with term [prevLogTerm].  (The length
    of a Go slice is an [int].) *)
Theorem AppendEntries_rejects_mismatch (n : RaftNode St) req now :
  aeTerm req >= currentTerm n →
  Entries req ≠ [] →
  0 ≤ PrevLogIndex req →
  len (log n) ≤ MaxInt →
  ¬ log_matches (log n) (PrevLogIndex req) (PrevLogTerm req) →
  ∃ n', AppendEntries n req now
          = Ret (n', {| aerTerm := Z.max (aeTerm req) (currentTerm n); Success := false |})
        ∧ log n' = log n.
Proof.
  intros Hterm Hne Hidx Hlen Hno. unfold AppendEntries.
  destruct (decide (aeTerm req < currentTerm n)); [lia|].
  destruct (decide (len (Entries req) = 0)) as [E0|_].
  { destruct (Entries req); [congruence | unfold len in E0; simpl in E0; lia]. }
  set (n1 := set_lastHeartbeat _ now).
  assert (Hlog : log n1 = log n).
  { unfold n1. destruct (decide (aeTerm req > currentTerm n)); reflexivity. }
  assert (Hct : currentTerm n1 = Z.max (aeTerm req) (currentTerm n)).
  { unfold n1. destruct (decide (aeTerm req > currentTerm n)); simpl; lia. }
  rewrite (logContainsEntry_false n1);
    [| assumption | rewrite Hlog; assumption | rewrite Hlog; assumption].
  exists n1. split; [|exact Hlog]. rewrite <- Hct. reflexivity.
Qed.

Lemma applyNext_currentTerm (n n' : RaftNode St) :
  applyNext n = Ret n' → currentTerm n' = currentTerm n.
Proof.
  unfold applyNext. intros H.
  apply res_bind_Ret in H as (entry & _ & H).
  apply res_bind_Ret in H as (st & _ & H). inversion H. reflexivity.
Qed.

Lemma applyLoop_currentTerm count (n n' : RaftNode St) :
  applyLoop count n = Ret n' → currentTerm n' = currentTerm n.
Proof.
  revert n. induction count as [|c IH]; intros n; simpl.
  - intros H; inversion H; reflexivity.
  - destruct (decide (lastApplied n < commitIndex n)).
    + intros H. apply res_bind_Ret in H as (n1 & Hn & H).
      apply IH in H. apply applyNext_currentTerm in Hn. congruence.
    + intros H; inversion H; reflexivity.
Qed.

Lemma applyCommittedEntries_currentTerm (n n' : RaftNode St) :
  applyCommittedEntries n = Ret n' → currentTerm n' = currentTerm n.
Proof. apply applyLoop_currentTerm. Qed.

(** C10 as the code has it: handling [RequestVote], handling
    [AppendEntries] and integrating a response (in [startElection],
    [sendHeartbeats] and [replicateLogEntry]) never decrease [currentTerm];
    starting an election increases it strictly as long as [currentTerm] is
    below the largest [int]. *)
Theorem currentTerm_never_decreases (n : RaftNode St) :
  (∀ req now, currentTerm n ≤ currentTerm (RequestVote n req now).1)
  ∧ (∀ req now n' resp,
        AppendEntries n req now = Ret (n', resp) → currentTerm n ≤ currentTerm n')
  ∧ (∀ now timeout, - MaxInt - 1 ≤ currentTerm n < MaxInt →
        currentTerm n < currentTerm (startElection n now timeout))
  ∧ (∀ resp votes total now,
        currentTerm n ≤ currentTerm (startElection_response n resp votes total now).1)
  ∧ (∀ resp, currentTerm n ≤ currentTerm (sendHeartbeats_response n resp))
  ∧ (∀ resp peer logIndex cnt total n' cnt',
        replicateLogEntry_response n resp peer logIndex cnt total = Ret (n', cnt') →
        currentTerm n ≤ currentTerm n').
Proof.
  repeat split.
  - intros req now. unfold RequestVote.
    destruct (decide (rvTerm req < currentTerm n)); simpl; [lia|].
    destruct (decide (rvTerm req > currentTerm n)); simpl;
      match goal with |- context [if ?b then _ else _] => destruct b end; simpl; lia.
  - intros req now n' resp. unfold AppendEntries.
    destruct (decide (aeTerm req < currentTerm n)).
    { intros H; inversion H; subst; lia. }
    set (n1 := set_lastHeartbeat _ now).
    assert (Hct : currentTerm n ≤ currentTerm n1).
    { unfold n1. destruct (decide (aeTerm req > currentTerm n)); simpl; lia. }
    clearbody n1.
    destruct (decide (len (Entries req) = 0)).
    { intros H; inversion H; subst; exact Hct. }
    intros H. apply res_bind_Ret in H as (ok & _ & H). destruct (negb ok).
    { inversion H; subst; exact Hct. }
    apply res_bind_Ret in H as (c & _ & H).
    apply res_bind_Ret in H as (lg & _ & H).
    apply res_bind_Ret in H as (napp & Happly & H). inversion H; subst.
    apply applyCommittedEntries_currentTerm in Happly. rewrite Happly.
    repeat (match goal with |- context [if ?b then _ else _] => destruct b end; simpl);
      exact Hct.
  - intros now timeout Hr. unfold startElection, MaxInt in *. simpl.
    rewrite int_id; lia.
  - intros resp votes total now. unfold startElection_response.
    repeat (match goal with |- context [if ?b then _ else _] => destruct b end; simpl); lia.
  - intros resp. unfold sendHeartbeats_response.
    destruct (decide _); simpl; lia.
  - intros resp peer logIndex cnt total n' cnt'. unfold replicateLogEntry_response.
    destruct (decide (aerTerm resp > currentTerm n)).
    { intros H; inversion H; subst; simpl; lia. }
    destruct (Success resp).
    + destruct (decide _).
      * intros H. apply res_bind_Ret in H as (napp & Happly & H). inversion H; subst.
        apply applyCommittedEntries_currentTerm in Happly. rewrite Happly. simpl. lia.
      * intros H; inversion H; subst; simpl; lia.
    + destruct (decide _); intros H; inversion H; subst; simpl; lia.
Qed.

End Handlers_properties.

(** C4 as stated fails on heartbeats: a request without entries is answered
    with [success = true] although the (empty) log has no entry at
    [prevLogIndex = 5]. *)
Lemma AppendEntries_heartbeat_accepts_mismatch :
  aeTerm heartbeat_5 >= currentTerm fresh_node
  ∧ ¬ log_matches (log fresh_node) (PrevLogIndex heartbeat_5) (PrevLogTerm heartbeat_5)
  ∧ (AppendEntries (Storage0 := engine_storage 10) fresh_node heartbeat_5 0
       ≫= λ r, mret (Success r.2)) = Ret true.
Proof.
  split; [vm_compute; discriminate|].
  split; [|vm_compute; reflexivity].
  intros [H|(_ & e & H & _)]; [discriminate H | inversion H].
Qed.

Lemma AppendEntries_rejects_mismatch_witness :
  ∃ n', AppendEntries (Storage0 := engine_storage 10) fresh_node append_5 0
          = Ret (n', {| aerTerm := 1; Success := false |})
        ∧ log n' = log fresh_node.
Proof.
  apply (AppendEntries_rejects_mismatch (Storage0 := engine_storage 10) fresh_node append_5 0).
  - vm_compute. discriminate.
  - discriminate.
  - vm_compute. discriminate.
  - vm_compute. discriminate.
  - intros [H|(_ & e & H & _)]; [discriminate H | inversion H].
Defined.

(** C10 as stated fails at the largest term: a replica that has adopted
    the term [MaxInt] from a vote request starts an election and its
    [currentTerm] wraps around to the smallest [int]. *)
Lemma startElection_wraps_currentTerm :
  currentTerm (RequestVote fresh_node vote_MaxInt 0).1 = MaxInt
  ∧ currentTerm (startElection
                   (RequestVote fresh_node vote_MaxInt 0).1
                   0 150)
    < MaxInt.
Proof. split; vm_compute; reflexivity. Qed.

Lemma currentTerm_never_decreases_witness :
  currentTerm fresh_node < currentTerm (startElection fresh_node 0 150).
Proof.
  destruct (currentTerm_never_decreases (Storage0 := engine_storage 10) fresh_node)
    as (_ & _ & H & _).
  apply (H 0 150). vm_compute. split; [discriminate | reflexivity].
Defined.

(** ** Big-endian integers *)

Lemma byte_to_of_Z z : byte_to_Z (byte_of_Z z) = z `mod` 256.
Proof.
  unfold byte_to_Z, byte_of_Z.
  assert (Hr : 0 ≤ z `mod` 256 < 256) by (apply Z.mod_pos_bound; lia).
  destruct (Byte.of_N (Z.to_N (z `mod` 256))) as [b|] eqn:E.
  - simpl. apply Byte.to_of_N in E. rewrite E. lia.
  - apply Byte.of_N_None_iff in E. lia.
Qed.

Lemma byte_to_Z_range b : 0 ≤ byte_to_Z b < 256.
Proof.
  unfold byte_to_Z. pose proof (Byte.to_N_bounded b). lia.
Qed.

Lemma byte_of_to_Z b : byte_of_Z (byte_to_Z b) = b.
Proof.
  unfold byte_of_Z. rewrite Z.mod_small by apply byte_to_Z_range.
  unfold byte_to_Z. rewrite N2Z.id, Byte.of_to_N. reflexivity.
Qed.

Lemma lor_shiftl_add a b k :
  0 ≤ k → 0 ≤ b < 2 ^ k → Z.lor (a ≪ k) b = a * 2 ^ k + b.
Proof.
  intros Hk Hb. rewrite <- Z.shiftl_mul_pow2 by assumption.
  rewrite <- Z.lxor_lor, <- Z.add_nocarry_lxor; try reflexivity.
  all: apply Z.bits_inj'; intros n Hn; rewrite Z.land_spec, Z.bits_0;
    destruct (Z.ltb_spec n k);
    [ rewrite Z.shiftl_spec_low by assumption; reflexivity
    | rewrite andb_comm; destruct (Z.eq_dec b 0) as [->|Hb0];
      [ rewrite Z.bits_0; reflexivity
      | rewrite (Z.bits_above_log2 b n); [reflexivity | lia |];
        apply Z.lt_le_trans with k; [apply Z.log2_lt_pow2; lia | assumption] ] ].
Qed.

Lemma lor_add_low a b k :
  0 ≤ k → 0 ≤ b < 2 ^ k → a `mod` 2 ^ k = 0 → Z.lor a b = a + b.
Proof.
  intros Hk Hb Ha.
  assert (a = (a / 2 ^ k) * 2 ^ k) as Hd.
  { pose proof (Z.div_mod a (2 ^ k)). lia. }
  rewrite Hd at 1. rewrite <- Z.shiftl_mul_pow2 by assumption.
  rewrite lor_shiftl_add by assumption. lia.
Qed.

Lemma u16_shiftl b k :
  0 ≤ b < 256 → 0 ≤ k ≤ 8 → u16 (b ≪ k) = b * 2 ^ k.
Proof.
  intros Hb Hk. unfold u16. rewrite Z.shiftl_mul_pow2 by lia.
  apply Z.mod_small. split; [apply Z.mul_nonneg_nonneg; lia|].
  apply Z.lt_le_trans with (256 * 2 ^ k); [apply Z.mul_lt_mono_pos_r; lia|].
  change 65536 with (256 * 2 ^ 8). apply Z.mul_le_mono_nonneg_l; [lia|].
  apply Z.pow_le_mono_r; lia.
Qed.

Lemma be16_val b0 b1 : be16 b0 b1 = byte_to_Z b0 * 256 + byte_to_Z b1.
Proof.
  unfold be16. pose proof (byte_to_Z_range b0). pose proof (byte_to_Z_range b1).
  rewrite u16_shiftl by lia. change (2 ^ 8) with 256.
  apply (lor_add_low _ _ 8); [lia | change (2 ^ 8) with 256; lia |].
  change (2 ^ 8) with 256. apply Z.mod_mul. lia.
Qed.

Lemma be16_range b0 b1 : 0 ≤ be16 b0 b1 < 65536.
Proof.
  rewrite be16_val. pose proof (byte_to_Z_range b0). pose proof (byte_to_Z_range b1). lia.
Qed.

Lemma be16_put16 x : 0 ≤ x < 65536 → be16 (byte_of_Z (x ≫ 8)) (byte_of_Z x) = x.
Proof.
  intros Hx. rewrite be16_val, !byte_to_of_Z.
  rewrite Z.shiftr_div_pow2 by lia. change (2 ^ 8) with 256.
  rewrite (Z.mod_small (x / 256)) by (split; [apply Z.div_pos; lia | apply Z.div_lt_upper_bound; lia]).
  pose proof (Z.div_mod x 256). lia.
Qed.

Lemma u64_shiftl b k :
  0 ≤ b < 256 → 0 ≤ k ≤ 56 → u64 (b ≪ k) = b * 2 ^ k.
Proof.
  intros Hb Hk. unfold u64. rewrite Z.shiftl_mul_pow2 by lia.
  apply Z.mod_small. split; [apply Z.mul_nonneg_nonneg; lia|].
  apply Z.lt_le_trans with (256 * 2 ^ k); [apply Z.mul_lt_mono_pos_r; lia|].
  change 18446744073709551616 with (256 * 2 ^ 56). apply Z.mul_le_mono_nonneg_l; [lia|].
  apply Z.pow_le_mono_r; lia.
Qed.

Lemma be64_val b0 b1 b2 b3 b4 b5 b6 b7 :
  be64 b0 b1 b2 b3 b4 b5 b6 b7
  = byte_to_Z b0 * 2 ^ 56 + byte_to_Z b1 * 2 ^ 48 + byte_to_Z b2 * 2 ^ 40
    + byte_to_Z b3 * 2 ^ 32 + byte_to_Z b4 * 2 ^ 24 + byte_to_Z b5 * 2 ^ 16
    + byte_to_Z b6 * 2 ^ 8 + byte_to_Z b7.
Proof.
  unfold be64.
  pose proof (byte_to_Z_range b0). pose proof (byte_to_Z_range b1).
  pose proof (byte_to_Z_range b2). pose proof (byte_to_Z_range b3).
  pose proof (byte_to_Z_range b4). pose proof (byte_to_Z_range b5).
  pose proof (byte_to_Z_range b6). pose proof (byte_to_Z_range b7).
  rewrite !u64_shiftl by lia.
  rewrite (lor_add_low _ (byte_to_Z b1 * 2 ^ 48) 56); [|lia| |apply Z.mod_mul; lia].
  2:{ change (2 ^ 48) with 281474976710656. change (2 ^ 56) with 72057594037927936. lia. }
  rewrite (lor_add_low _ (byte_to_Z b2 * 2 ^ 40) 48); [|lia| |].
  2:{ change (2 ^ 40) with 1099511627776. change (2 ^ 48) with 281474976710656. lia. }
  2:{ change (2 ^ 56) with (2 ^ 8 * 2 ^ 48). rewrite Z.mul_assoc, <- Z.mul_add_distr_r.
      apply Z.mod_mul. lia. }
  rewrite (lor_add_low _ (byte_to_Z b3 * 2 ^ 32) 40); [|lia| |].
  2:{ change (2 ^ 32) with 4294967296. change (2 ^ 40) with 1099511627776. lia. }
  2:{ change (2 ^ 56) with (2 ^ 16 * 2 ^ 40). change (2 ^ 48) with (2 ^ 8 * 2 ^ 40).
      rewrite !Z.mul_assoc, <- !Z.mul_add_distr_r. apply Z.mod_mul. lia. }
  rewrite (lor_add_low _ (byte_to_Z b4 * 2 ^ 24) 32); [|lia| |].
  2:{ change (2 ^ 24) with 16777216. change (2 ^ 32) with 4294967296. lia. }
  2:{ change (2 ^ 56) with (2 ^ 24 * 2 ^ 32). change (2 ^ 48) with (2 ^ 16 * 2 ^ 32).
      change (2 ^ 40) with (2 ^ 8 * 2 ^ 32).
      rewrite !Z.mul_assoc, <- !Z.mul_add_distr_r. apply Z.mod_mul. lia. }
  rewrite (lor_add_low _ (byte_to_Z b5 * 2 ^ 16) 24); [|lia| |].
  2:{ change (2 ^ 16) with 65536. change (2 ^ 24) with 16777216. lia. }
  2:{ change (2 ^ 56) with (2 ^ 32 * 2 ^ 24). change (2 ^ 48) with (2 ^ 24 * 2 ^ 24).
      change (2 ^ 40) with (2 ^ 16 * 2 ^ 24). change (2 ^ 32) with (2 ^ 8 * 2 ^ 24).
      rewrite !Z.mul_assoc, <- !Z.mul_add_distr_r. apply Z.mod_mul. lia. }
  rewrite (lor_add_low _ (byte_to_Z b6 * 2 ^ 8) 16); [|lia| |].
  2:{ change (2 ^ 8) with 256. change (2 ^ 16) with 65536. lia. }
  2:{ change (2 ^ 56) with (2 ^ 40 * 2 ^ 16). change (2 ^ 48) with (2 ^ 32 * 2 ^ 16).
      change (2 ^ 40) with (2 ^ 24 * 2 ^ 16). change (2 ^ 32) with (2 ^ 16 * 2 ^ 16).
      change (2 ^ 24) with (2 ^ 8 * 2 ^ 16).
      rewrite !Z.mul_assoc, <- !Z.mul_add_distr_r. apply Z.mod_mul. lia. }
  rewrite (lor_add_low _ (byte_to_Z b7) 8); [reflexivity|lia| |].
  { change (2 ^ 8) with 256. lia. }
  change (2 ^ 56) with (2 ^ 48 * 2 ^ 8). change (2 ^ 48) with (2 ^ 40 * 2 ^ 8) at 2.
  change (2 ^ 40) with (2 ^ 32 * 2 ^ 8) at 2. change (2 ^ 32) with (2 ^ 24 * 2 ^ 8) at 2.
  change (2 ^ 24) with (2 ^ 16 * 2 ^ 8) at 2. change (2 ^ 16) with (2 ^ 8 * 2 ^ 8) at 2.
  rewrite !Z.mul_assoc, <- !Z.mul_add_distr_r. apply Z.mod_mul. lia.
Qed.

Lemma be64_put64 x :
  0 ≤ x < 18446744073709551616 →
  be64 (byte_of_Z (x ≫ 56)) (byte_of_Z (x ≫ 48)) (byte_of_Z (x ≫ 40))
       (byte_of_Z (x ≫ 32)) (byte_of_Z (x ≫ 24)) (byte_of_Z (x ≫ 16))
       (byte_of_Z (x ≫ 8)) (byte_of_Z x) = x.
Proof.
  intros Hx. rewrite be64_val, !byte_to_of_Z.
  rewrite !Z.shiftr_div_pow2 by lia.
  change (2 ^ 56) with 72057594037927936. change (2 ^ 48) with 281474976710656.
  change (2 ^ 40) with 1099511627776. change (2 ^ 32) with 4294967296.
  change (2 ^ 24) with 16777216. change (2 ^ 16) with 65536. change (2 ^ 8) with 256.
  Z.div_mod_to_equations. lia.
Qed.

Lemma u16_id z : 0 ≤ z < 65536 → u16 z = z.
Proof. intros Hz. unfold u16. apply Z.mod_small. exact Hz. Qed.

Lemma len_app {A} (l k : list A) : len (l ++ k) = len l + len k.
Proof. unfold len. rewrite length_app. lia. Qed.

Lemma len_nonneg {A} (l : list A) : 0 ≤ len l.
Proof. unfold len. lia. Qed.

(** ** Serialize and Deserialize *)

Lemma index_app_r {A} (l k : list A) z :
  len l ≤ z → index (l ++ k) z = index k (z - len l).
Proof.
  intros Hz. unfold index, len in *.
  assert (0 ≤ Z.of_nat (length l)) by lia.
  destruct (decide (0 ≤ z)); [|lia].
  destruct (decide (0 ≤ z - Z.of_nat (length l))); [|lia].
  replace (Z.to_nat (z - Z.of_nat (length l))) with (Z.to_nat z - length l)%nat by lia.
  rewrite lookup_app_r by lia. reflexivity.
Qed.

Lemma index_app_off {A} (l k : list A) j :
  0 ≤ j → index (l ++ k) (len l + j) = index k j.
Proof.
  intros Hj. rewrite index_app_r by lia. f_equal. lia.
Qed.

Lemma read16_put16 pre x rest :
  0 ≤ x < 65536 → read16 (pre ++ put16 x ++ rest) (len pre) = Ret x.
Proof.
  intros Hx. unfold read16.
  rewrite <- (Z.add_0_r (len pre)) at 1. rewrite !index_app_off by lia.
  simpl. f_equal. apply be16_put16. exact Hx.
Qed.

Lemma read64_put64 pre x rest :
  0 ≤ x < 18446744073709551616 → read64 (pre ++ put64 x ++ rest) (len pre) = Ret x.
Proof.
  intros Hx. unfold read64.
  rewrite <- (Z.add_0_r (len pre)) at 1. rewrite !index_app_off by lia.
  simpl. f_equal. apply be64_put64. exact Hx.
Qed.

Lemma read_pointers_put pre ps rest :
  Forall (λ p, 0 ≤ p < 18446744073709551616) ps →
  read_pointers (pre ++ concat (put64 <$> ps) ++ rest) (len pre) (length ps)
  = Ret (ps, len pre + 8 * len ps).
Proof.
  intros Hps. revert pre. induction Hps as [|p ps Hp Hps IH]; intros pre.
  - simpl. f_equal. f_equal. unfold len. simpl. lia.
  - cbn [length read_pointers fmap list_fmap concat].
    rewrite <- (app_assoc (put64 p)).
    rewrite (res_bind_eq _ p) by (apply read64_put64; exact Hp).
    specialize (IH (pre ++ put64 p)).
    rewrite <- app_assoc in IH.
    replace (len (pre ++ put64 p)) with (len pre + 8) in IH
      by (unfold len; rewrite length_app; simpl; lia).
    rewrite IH. simpl. f_equal. f_equal. unfold len. simpl. lia.
Qed.

Lemma read_offsets_put pre os rest :
  Forall (λ o, 0 ≤ o < 65536) os →
  read_offsets (pre ++ concat (put16 <$> os) ++ rest) (len pre) (length os)
  = Ret (os, len pre + 2 * len os).
Proof.
  intros Hos. revert pre. induction Hos as [|o os Ho Hos IH]; intros pre.
  - simpl. f_equal. f_equal. unfold len. simpl. lia.
  - cbn [length read_offsets fmap list_fmap concat].
    rewrite <- (app_assoc (put16 o)).
    rewrite (res_bind_eq _ o) by (apply read16_put16; exact Ho).
    specialize (IH (pre ++ put16 o)).
    rewrite <- app_assoc in IH.
    replace (len (pre ++ put16 o)) with (len pre + 2) in IH
      by (unfold len; rewrite length_app; simpl; lia).
    rewrite IH. simpl. f_equal. f_equal. unfold len. simpl. lia.
Qed.

Lemma len_concat_put64 ps : len (concat (put64 <$> ps)) = 8 * len ps.
Proof.
  induction ps as [|p ps IH]; [reflexivity|].
  unfold len in *. cbn [fmap list_fmap concat]. rewrite length_app.
  change (length (put64 p)) with 8%nat. cbn [length]. lia.
Qed.

Lemma len_concat_put16 os : len (concat (put16 <$> os)) = 2 * len os.
Proof.
  induction os as [|o os IH]; [reflexivity|].
  unfold len in *. cbn [fmap list_fmap concat]. rewrite length_app.
  change (length (put16 o)) with 2%nat. cbn [length]. lia.
Qed.

Lemma Deserialize_layout m t k ps os d :
  0 ≤ t < 65536 → 0 ≤ k < 65536 →
  Forall (λ p, 0 ≤ p < 18446744073709551616) ps →
  Forall (λ o, 0 ≤ o < 65536) os →
  len ps = k → len os = k →
  Deserialize m (put16 t ++ put16 k ++ concat (put64 <$> ps) ++ concat (put16 <$> os) ++ d)
  = Ret ({| typ := t; nkeys := k; pointers := ps; offsets := os; data := d |}, None).
Proof.
  intros Ht Hk Hps Hos Hlp Hlo. unfold Deserialize.
  destruct (decide _) as [Hlt|_].
  { unfold len in Hlt. simpl in Hlt. lia. }
  rewrite (res_bind_eq _ t) by (apply (read16_put16 [] t); exact Ht).
  rewrite (res_bind_eq _ k) by (apply (read16_put16 (put16 t) k); exact Hk).
  replace (Z.to_nat k) with (length ps) by (unfold len in *; lia).
  pose proof (read_pointers_put (put16 t ++ put16 k) ps
                (concat (put16 <$> os) ++ d) Hps) as Hrp.
  rewrite <- !app_assoc in Hrp. change (len (put16 t ++ put16 k)) with 4 in Hrp.
  rewrite (res_bind_eq _ _ _ Hrp). cbv beta iota.
  replace (length ps) with (length os) by (unfold len in *; lia).
  pose proof (read_offsets_put (put16 t ++ put16 k ++ concat (put64 <$> ps)) os d Hos) as Hro.
  rewrite <- !app_assoc in Hro.
  replace (len (put16 t ++ put16 k ++ concat (put64 <$> ps))) with (4 + 8 * len ps) in Hro.
  2:{ pose proof (len_concat_put64 ps). unfold len in *. rewrite !length_app. simpl. lia. }
  rewrite (res_bind_eq _ _ _ Hro). cbv beta iota.
  pose proof (slice_from_app (put16 t ++ put16 k ++ concat (put64 <$> ps) ++ concat (put16 <$> os)) d) as Hs.
  rewrite <- !app_assoc in Hs.
  replace (len (put16 t ++ put16 k ++ concat (put64 <$> ps) ++ concat (put16 <$> os)))
    with (4 + 8 * len ps + 2 * len os) in Hs.
  2:{ pose proof (len_concat_put64 ps). pose proof (len_concat_put16 os).
      unfold len in *. rewrite !length_app. simpl. lia. }
  rewrite (res_bind_eq _ _ _ Hs). reflexivity.
Qed.

(** X11: [Size] is the length of what [Serialize] returns, for every node. *)
Theorem Size_is_serialized_length n : Size n = len (Serialize n).
Proof.
  unfold Size, Serialize.
  pose proof (len_concat_put64 (pointers n)). pose proof (len_concat_put16 (offsets n)).
  unfold len in *. rewrite !length_app. simpl. lia.
Qed.

(** X9: a node that [Validate] accepts, with fields in the ranges of their
    types and fewer than 65536 pointers and offsets, is returned unchanged
    by [Deserialize] from the bytes [Serialize] produced, whatever the
    receiver held before. *)
Theorem Validate_roundtrip n m :
  in_range n → len (pointers n) < 65536 → len (offsets n) < 65536 →
  Validate n = Ret None →
  Deserialize m (Serialize n) = Ret (n, None).
Proof.
  intros (Ht & Hk & Hps & Hos) Hlp Hlo Hv. unfold Validate in Hv.
  destruct (decide _) as [|Hn]; [discriminate|].
  assert (Hp : len (pointers n) = nkeys n).
  { destruct (decide (nkeys n = u16 (len (pointers n)))) as [->|]; [|tauto].
    unfold u16. rewrite Z.mod_small; [reflexivity | unfold len in *; lia]. }
  assert (Ho : len (offsets n) = nkeys n).
  { destruct (decide (nkeys n = u16 (len (offsets n)))) as [->|]; [|tauto].
    unfold u16. rewrite Z.mod_small; [reflexivity | unfold len in *; lia]. }
  unfold Serialize.
  rewrite (Deserialize_layout m (typ n) (nkeys n) (pointers n) (offsets n) (data n));
    auto.
  destruct n; reflexivity.
Qed.

Lemma Validate_roundtrip_witness :
  Deserialize (NewNode BNODE_LEAF) (Serialize node_one_child)
  = Ret (node_one_child, None).
Proof.
  apply Validate_roundtrip.
  - unfold in_range, node_one_child, BNODE_NODE. cbn [typ nkeys pointers offsets].
    split; [lia|]. split; [lia|]. split; (constructor; [lia | constructor]).
  - vm_compute. reflexivity.
  - vm_compute. reflexivity.
  - vm_compute. reflexivity.
Defined.

(** X10: [Deserialize] returns an error exactly when the input is shorter
    than four bytes; the error is then data-too-short and the receiver is
    untouched. *)
Theorem Deserialize_error_iff_short n d n' e :
  Deserialize n d = Ret (n', Some e) ↔ len d < 4 ∧ n' = n ∧ e = ErrDataTooShort.
Proof.
  unfold Deserialize. destruct (decide (len d < 4)) as [Hlt|Hge]; split.
  - intros H; inversion H; auto.
  - intros (_ & -> & ->). reflexivity.
  - intros H.
    apply res_bind_Ret in H as (t & _ & H). apply res_bind_Ret in H as (k & _ & H).
    apply res_bind_Ret in H as ([ps o] & _ & H). apply res_bind_Ret in H as ([os o'] & _ & H).
    apply res_bind_Ret in H as (rest & _ & H). inversion H.
  - intros (Hlt & _). lia.
Qed.

(** ** The entries of a node *)

Lemma len_entry_bytes e : len (entry_bytes e) = 4 + len e.1 + len e.2.
Proof. unfold entry_bytes. rewrite !len_app. change (len (put16 _)) with 2. lia. Qed.

Lemma entries_bytes_app es1 es2 :
  entries_bytes (es1 ++ es2) = entries_bytes es1 ++ entries_bytes es2.
Proof. unfold entries_bytes. rewrite fmap_app, concat_app. reflexivity. Qed.

Lemma entries_bytes_cons e es : entries_bytes (e :: es) = entry_bytes e ++ entries_bytes es.
Proof. reflexivity. Qed.

Lemma entry_offsets_length start es : length (entry_offsets start es) = length es.
Proof. revert start. induction es as [|e es IH]; intros start; simpl; auto. Qed.

Lemma entry_offsets_app start es1 es2 :
  entry_offsets start (es1 ++ es2)
  = entry_offsets start es1 ++ entry_offsets (start + len (entries_bytes es1)) es2.
Proof.
  revert start. induction es1 as [|e es1 IH]; intros start; simpl.
  - f_equal. change (len (entries_bytes [])) with 0. lia.
  - f_equal. rewrite IH. f_equal. f_equal. rewrite entries_bytes_cons, len_app. lia.
Qed.

Lemma entry_offsets_lookup start es i e :
  es !! i = Some e →
  entry_offsets start es !! i = Some (start + len (entries_bytes (take i es))).
Proof.
  intros Hi. rewrite <- (take_drop_middle es i e Hi) at 1.
  rewrite entry_offsets_app. rewrite lookup_app_r; rewrite entry_offsets_length, length_take;
    apply lookup_lt_Some in Hi; [|lia].
  replace (i - i `min` length es)%nat with 0%nat by lia. reflexivity.
Qed.

Lemma entry_offsets_shift start d es :
  entry_offsets (start + d) es = (λ o, o + d) <$> entry_offsets start es.
Proof.
  revert start. induction es as [|e es IH]; intros start; simpl; [reflexivity|].
  f_equal. rewrite <- IH. f_equal. lia.
Qed.

Lemma slice_mid {A} (pre mid post : list A) :
  slice (pre ++ mid ++ post) (len pre) (len pre + len mid) = Ret mid.
Proof.
  unfold slice. pose proof (len_nonneg pre). pose proof (len_nonneg mid).
  pose proof (len_nonneg post).
  destruct (decide _) as [_|Hn]; [|rewrite !len_app in Hn; lia].
  unfold len. rewrite Nat2Z.id, drop_app_length.
  replace (Z.to_nat (_ + _ - _)) with (length mid) by lia.
  rewrite take_app_length. reflexivity.
Qed.

(** Reading the entry that starts at [len pre]. *)
Section entry_read.

Context (pre post : list byte) (k v : list byte).

Let d := pre ++ entry_bytes (k, v) ++ post.

Hypothesis Hbound : len d < 65536.

Lemma entry_read_bounds :
  0 ≤ len pre ∧ 0 ≤ len k ∧ 0 ≤ len v ∧ 0 ≤ len post
  ∧ len d = len pre + 4 + len k + len v + len post.
Proof.
  unfold d. rewrite !len_app, len_entry_bytes. simpl.
  pose proof (len_nonneg pre). pose proof (len_nonneg k).
  pose proof (len_nonneg v). pose proof (len_nonneg post). lia.
Qed.

Lemma entry_read_key0 : index d (len pre) = Ret (byte_of_Z (len k ≫ 8)).
Proof. unfold d. rewrite <- (Z.add_0_r (len pre)). rewrite index_app_off by lia. reflexivity. Qed.

Lemma entry_read_key1 : index d (u16 (len pre + 1)) = Ret (byte_of_Z (len k)).
Proof.
  pose proof entry_read_bounds. rewrite u16_id by lia.
  unfold d. rewrite index_app_off by lia. reflexivity.
Qed.

Lemma entry_read_val0 : index d (u16 (len pre + 2)) = Ret (byte_of_Z (len v ≫ 8)).
Proof.
  pose proof entry_read_bounds. rewrite u16_id by lia.
  unfold d. rewrite index_app_off by lia. reflexivity.
Qed.

Lemma entry_read_val1 : index d (u16 (len pre + 3)) = Ret (byte_of_Z (len v)).
Proof.
  pose proof entry_read_bounds. rewrite u16_id by lia.
  unfold d. rewrite index_app_off by lia. reflexivity.
Qed.

Lemma entry_read_keyLen : be16 (byte_of_Z (len k ≫ 8)) (byte_of_Z (len k)) = len k.
Proof. pose proof entry_read_bounds. apply be16_put16. lia. Qed.

Lemma entry_read_valLen : be16 (byte_of_Z (len v ≫ 8)) (byte_of_Z (len v)) = len v.
Proof. pose proof entry_read_bounds. apply be16_put16. lia. Qed.

Lemma entry_read_key :
  slice d (u16 (len pre + 4)) (u16 (u16 (len pre + 4) + len k)) = Ret k.
Proof.
  pose proof entry_read_bounds. rewrite !u16_id by (rewrite ?u16_id; lia).
  unfold d, entry_bytes. simpl fst. simpl snd.
  replace (pre ++ (put16 (len k) ++ put16 (len v) ++ k ++ v) ++ post)
    with ((pre ++ put16 (len k) ++ put16 (len v)) ++ k ++ (v ++ post))
    by (rewrite <- !app_assoc; reflexivity).
  replace (len pre + 4) with (len (pre ++ put16 (len k) ++ put16 (len v)))
    by (rewrite !len_app; reflexivity).
  apply slice_mid.
Qed.

Lemma entry_read_value :
  slice d (u16 (u16 (len pre + 4) + len k))
          (u16 (u16 (u16 (len pre + 4) + len k) + len v)) = Ret v.
Proof.
  pose proof entry_read_bounds. rewrite !u16_id by (rewrite ?u16_id; lia).
  unfold d, entry_bytes. simpl fst. simpl snd.
  replace (pre ++ (put16 (len k) ++ put16 (len v) ++ k ++ v) ++ post)
    with ((pre ++ put16 (len k) ++ put16 (len v) ++ k) ++ v ++ post)
    by (rewrite <- !app_assoc; reflexivity).
  replace (len pre + 4 + len k) with (len (pre ++ put16 (len k) ++ put16 (len v) ++ k))
    by (rewrite !len_app; change (len (put16 _)) with 2; lia).
  apply slice_mid.
Qed.

End entry_read.

Lemma holds_split n es i e :
  holds n es → es !! i = Some e →
  data n = entries_bytes (take i es) ++ entry_bytes e ++ entries_bytes (drop (S i) es)
  ∧ index (offsets n) (Z.of_nat i) = Ret (len (entries_bytes (take i es)))
  ∧ Z.of_nat i < len (offsets n).
Proof.
  intros (Hn & Ho & Hd & Hb) Hi. split; [|split].
  - rewrite Hd. rewrite <- (take_drop_middle es i e Hi) at 1.
    rewrite entries_bytes_app, entries_bytes_cons. reflexivity.
  - unfold index. destruct (decide _); [|lia]. rewrite Nat2Z.id, Ho.
    rewrite (entry_offsets_lookup 0 es i e Hi). reflexivity.
  - rewrite Ho. unfold len. rewrite entry_offsets_length.
    apply lookup_lt_Some in Hi. lia.
Qed.

Lemma key_at_holds n es i k v :
  holds n es → es !! i = Some (k, v) → key_at n (Z.of_nat i) = Ret k.
Proof.
  intros Hh Hi. destruct (holds_split n es i (k, v) Hh Hi) as (Hd & Ho & Hlt).
  destruct Hh as (_ & _ & _ & Hb). rewrite Hd in Hb.
  pose proof (entry_read_bounds (entries_bytes (take i es)) (entries_bytes (drop (S i) es)) k v) as Hbd.
  unfold key_at. destruct (decide _); [lia|].
  rewrite Ho. cbn [mbind res_mbind res_bind].
  rewrite Hd.
  destruct (decide _) as [Hgt|_]; [lia|].
  rewrite (entry_read_key0 _ _ k v). cbn [mbind res_mbind res_bind].
  rewrite (entry_read_key1 _ _ k v Hb). cbn [mbind res_mbind res_bind].
  rewrite (entry_read_keyLen _ _ k v Hb).
  destruct (decide _) as [Hgt|_].
  { exfalso. rewrite (u16_id (_ + 4)) in Hgt by lia.
    rewrite (u16_id (_ + 4 + len k)) in Hgt by lia. lia. }
  apply (entry_read_key _ _ k v Hb).
Qed.

Lemma getValue_holds n es i k v :
  holds n es → typ n = BNODE_LEAF → es !! i = Some (k, v) →
  getValue n (Z.of_nat i) = Ret v.
Proof.
  intros Hh Ht Hi. destruct (holds_split n es i (k, v) Hh Hi) as (Hd & Ho & Hlt).
  destruct Hh as (Hn & _ & _ & Hb). rewrite Hd in Hb.
  pose proof (entry_read_bounds (entries_bytes (take i es)) (entries_bytes (drop (S i) es)) k v) as Hbd.
  unfold getValue. destruct (decide _) as [[?|[?|Hge]]|_]; [congruence|exfalso; lia| |].
  { apply lookup_lt_Some in Hi. rewrite Hn in Hge. unfold len in Hge. exfalso. lia. }
  rewrite Ho. cbn [mbind res_mbind res_bind].
  rewrite Hd.
  destruct (decide _) as [Hgt|_]; [lia|].
  rewrite (entry_read_key0 _ _ k v). cbn [mbind res_mbind res_bind].
  rewrite (entry_read_key1 _ _ k v Hb). cbn [mbind res_mbind res_bind].
  rewrite (entry_read_val0 _ _ k v Hb). cbn [mbind res_mbind res_bind].
  rewrite (entry_read_val1 _ _ k v Hb). cbn [mbind res_mbind res_bind].
  rewrite (entry_read_keyLen _ _ k v Hb), (entry_read_valLen _ _ k v Hb).
  destruct (decide _) as [Hgt|_].
  { exfalso. rewrite (u16_id (_ + 4)) in Hgt by lia.
    rewrite (u16_id (_ + 4 + len k)) in Hgt by lia.
    rewrite (u16_id (_ + 4 + len k + len v)) in Hgt by lia. lia. }
  apply (entry_read_value _ _ k v Hb).
Qed.

Lemma mapM_Ret {A B} (f : A → res B) (g : A → B) (l : list A) :
  (∀ x, x ∈ l → f x = Ret (g x)) → mapM f l = Ret (g <$> l).
Proof.
  induction l as [|x l IH]; intros Hf; [reflexivity|].
  cbn [mapM]. rewrite (Hf x) by left. cbn [mbind res_mbind res_bind].
  rewrite IH by (intros y Hy; apply Hf; right; exact Hy). reflexivity.
Qed.

Lemma keys_holds n es : holds n es → keys n = Ret (es.*1).
Proof.
  intros Hh. pose proof Hh as (Hn & _ & _ & _). unfold keys.
  destruct (decide (nkeys n = 0)) as [H0|Hpos].
  { rewrite Hn in H0. destruct es; [reflexivity | unfold len in H0; simpl in H0; lia]. }
  rewrite (mapM_Ret _ (λ i, default [] (es.*1 !! Z.to_nat i))).
  - f_equal. apply list_eq. intros i.
    rewrite list_lookup_fmap. rewrite Hn.
    destruct (es.*1 !! i) as [k|] eqn:E.
    + assert (i < length es)%nat as Hi.
      { apply lookup_lt_Some in E. rewrite length_fmap in E. exact E. }
      rewrite lookup_seqZ_lt by (unfold len; lia). simpl.
      rewrite Z.add_0_l, Nat2Z.id, E. reflexivity.
    + apply lookup_ge_None in E. rewrite length_fmap in E.
      rewrite lookup_seqZ_ge by (unfold len; lia). reflexivity.
  - intros x Hx. apply elem_of_seqZ in Hx. rewrite Hn in Hx.
    destruct (es !! Z.to_nat x) as [[k v]|] eqn:E.
    + rewrite <- (Z2Nat.id x) at 1 by lia.
      rewrite (key_at_holds n es _ k v Hh E).
      rewrite list_lookup_fmap, E. reflexivity.
    + apply lookup_ge_None in E. unfold len in Hx. lia.
Qed.

Lemma copy_at_fill {A} (pre src : list A) (fill rest : list A) :
  length fill = length src →
  copy_at (pre ++ fill ++ rest) (len pre) src = pre ++ src ++ rest.
Proof.
  intros Hl. unfold copy_at, len. rewrite Nat2Z.id.
  rewrite !length_app.
  replace (length src `min` (length pre + (length fill + length rest) - length pre))%nat
    with (length src) by lia.
  rewrite take_app_length. rewrite firstn_all.
  rewrite drop_app_ge by lia.
  replace (length pre + length src - length pre)%nat with (length fill) by lia.
  rewrite drop_app_length. reflexivity.
Qed.

Lemma entries_bytes_min es : 4 * len es ≤ len (entries_bytes es).
Proof.
  induction es as [|e es IH]; [reflexivity|].
  rewrite entries_bytes_cons, len_app, len_entry_bytes.
  pose proof (len_nonneg e.1). pose proof (len_nonneg e.2).
  unfold len in *. simpl length. lia.
Qed.

Lemma entry_offsets_bound start es :
  Forall (λ o, start ≤ o ≤ start + len (entries_bytes es)) (entry_offsets start es).
Proof.
  revert start. induction es as [|e es IH]; intros start; simpl; [constructor|].
  rewrite entries_bytes_cons, len_app.
  pose proof (len_nonneg (entry_bytes e)). pose proof (len_nonneg (entries_bytes es)).
  constructor; [lia|].
  eapply Forall_impl; [apply IH|]. simpl. intros o Ho. lia.
Qed.

Lemma insertKV_holds n es pos k v :
  holds n es → (pos ≤ length es)%nat →
  len (data n) + 4 + len k + len v < 65536 →
  ∃ n', insertKV n (Z.of_nat pos) k v = Ret n'
        ∧ holds n' (insert_at pos (k, v) es)
        ∧ typ n' = typ n ∧ pointers n' = pointers n.
Proof.
  intros (Hn & Ho & Hd & Hb) Hpos Hfit.
  pose proof (len_nonneg k) as Hk0. pose proof (len_nonneg v) as Hv0.
  pose proof (len_nonneg (data n)) as Hd0.
  pose proof (entries_bytes_min es) as Hmin. rewrite <- Hd in Hmin.
  set (start := len (entries_bytes (take pos es))).
  assert (Hdata : data n = entries_bytes (take pos es) ++ entries_bytes (drop pos es)).
  { rewrite Hd. rewrite <- (take_drop pos es) at 1. apply entries_bytes_app. }
  assert (Hstart : 0 ≤ start ≤ len (data n)).
  { unfold start. rewrite Hdata, len_app.
    pose proof (len_nonneg (entries_bytes (take pos es))).
    pose proof (len_nonneg (entries_bytes (drop pos es))). lia. }
  assert (Hoffs : offsets n = entry_offsets 0 (take pos es)
                              ++ entry_offsets start (drop pos es)).
  { rewrite Ho. rewrite <- (take_drop pos es) at 1. rewrite entry_offsets_app. reflexivity. }
  assert (Hlo : length (entry_offsets 0 (take pos es)) = pos).
  { rewrite entry_offsets_length, length_take. lia. }
  unfold insertKV.
  rewrite (u16_id (len k)) by lia. rewrite (u16_id (len v)) by lia.
  rewrite (u16_id (4 + len k)) by lia. rewrite (u16_id (4 + len k + len v)) by lia.
  replace (Z.to_nat (4 + len k + len v - 4)) with (length k + length v)%nat
    by (unfold len; lia).
  rewrite replicate_add.
  assert (He1 : copy_at ((put16 (len k) ++ put16 (len v))
                           ++ replicate (length k) Byte.x00 ++ replicate (length v) Byte.x00)
                        4 k
                = (put16 (len k) ++ put16 (len v)) ++ k ++ replicate (length v) Byte.x00).
  { apply (copy_at_fill (put16 (len k) ++ put16 (len v))). apply length_replicate. }
  rewrite He1.
  assert (He2 : copy_at ((put16 (len k) ++ put16 (len v)) ++ k ++ replicate (length v) Byte.x00)
                        (4 + len k) v
                = entry_bytes (k, v)).
  { replace ((put16 (len k) ++ put16 (len v)) ++ k ++ replicate (length v) Byte.x00)
      with (((put16 (len k) ++ put16 (len v)) ++ k) ++ replicate (length v) Byte.x00 ++ [])
      by (rewrite app_nil_r, <- !app_assoc; reflexivity).
    replace (4 + len k) with (len ((put16 (len k) ++ put16 (len v)) ++ k))
      by (rewrite !len_app; reflexivity).
    rewrite copy_at_fill by apply length_replicate.
    unfold entry_bytes. simpl. rewrite app_nil_r. reflexivity. }
  rewrite He2.
  assert (Htail : ∃ tl, slice_from ((put16 (len k) ++ put16 (len v)) ++ k
                                      ++ replicate (length v) Byte.x00) (4 + len k) = Ret tl).
  { unfold slice_from, slice. destruct (decide _) as [_|Hbad]; [eauto|].
    exfalso. apply Hbad. rewrite !len_app.
    assert (len (replicate (length v) Byte.x00) = len v) as ->
      by (unfold len; rewrite length_replicate; reflexivity).
    change (len (put16 (len k))) with 2. change (len (put16 (len v))) with 2. lia. }
  destruct Htail as [tl ->]. cbn [mbind res_mbind res_bind].
  assert (Hplace :
    (if decide (Z.of_nat pos = nkeys n)
     then mret (u16 (len (data n)), data n ++ entry_bytes (k, v))
     else newOffset ← index (offsets n) (Z.of_nat pos);
          post ← slice_from (data n) newOffset;
          pre ← slice_to (data n) newOffset;
          mret (newOffset, pre ++ entry_bytes (k, v) ++ post))
    = Ret (start, entries_bytes (take pos es) ++ entry_bytes (k, v)
                    ++ entries_bytes (drop pos es))).
  { destruct (decide (Z.of_nat pos = nkeys n)) as [Heq|Hneq].
    - assert (pos = length es) as -> by (rewrite Hn in Heq; unfold len in Heq; lia).
      unfold start. rewrite firstn_all, drop_all. rewrite <- Hd.
      rewrite u16_id by lia. change (entries_bytes []) with (@nil byte).
      rewrite app_nil_r. reflexivity.
    - assert (pos < length es)%nat as Hlt by (rewrite Hn in Hneq; unfold len in Hneq; lia).
      assert (Hidx : index (offsets n) (Z.of_nat pos) = Ret start).
      { unfold index. destruct (decide _); [|lia]. rewrite Nat2Z.id, Hoffs.
        rewrite lookup_app_r by lia. rewrite Hlo, Nat.sub_diag.
        destruct (drop pos es) as [|e rest] eqn:E.
        - apply (f_equal length) in E. rewrite length_drop in E. simpl in E. lia.
        - reflexivity. }
      rewrite Hidx. cbn [mbind res_mbind res_bind].
      rewrite Hdata. unfold start.
      rewrite slice_from_app. cbn [mbind res_mbind res_bind].
      rewrite slice_to_app. reflexivity. }
  rewrite Hplace. cbn [mbind res_mbind res_bind].
  rewrite Hoffs.
  pose proof (slice_from_app (entry_offsets 0 (take pos es))
                (entry_offsets start (drop pos es))) as Hsf.
  pose proof (slice_to_app (entry_offsets 0 (take pos es))
                (entry_offsets start (drop pos es))) as Hst.
  unfold len in Hsf, Hst. rewrite Hlo in Hsf, Hst.
  rewrite Hsf. cbn [mbind res_mbind res_bind].
  rewrite Hst. cbn [mbind res_mbind res_bind].
  eexists. split; [reflexivity|].
  split; [|split; reflexivity].
  unfold holds, insert_at. cbn [nkeys offsets data].
  split; [|split; [|split]].
  - rewrite Hn. rewrite u16_id.
    + rewrite len_app. unfold len. simpl length. rewrite length_take, length_drop. lia.
    + unfold len in *. lia.
  - rewrite entry_offsets_app. f_equal. simpl. rewrite Z.add_0_l. fold start. f_equal.
    rewrite entry_offsets_shift.
    apply Forall_fmap_ext_1.
    pose proof (entry_offsets_bound start (drop pos es)) as Hbd.
    eapply Forall_impl; [exact Hbd|]. simpl. intros o Hob.
    rewrite len_entry_bytes. simpl.
    assert (len (data n) = start + len (entries_bytes (drop pos es))) as Hsum.
    { rewrite Hdata, len_app. reflexivity. }
    rewrite u16_id by lia. lia.
  - rewrite entries_bytes_app, entries_bytes_cons. reflexivity.
  - rewrite !len_app, len_entry_bytes. simpl.
    rewrite Hdata, len_app in Hfit. lia.
Qed.

Lemma slice_to_app_n {A} (l1 l2 : list A) n :
  length l1 = n → slice_to (l1 ++ l2) (Z.of_nat n) = Ret l1.
Proof. intros <-. apply slice_to_app. Qed.

Lemma slice_from_app_n {A} (l1 l2 : list A) n :
  length l1 = n → slice_from (l1 ++ l2) (Z.of_nat n) = Ret l2.
Proof. intros <-. apply slice_from_app. Qed.

Lemma removeKV_holds n es pos k v :
  holds n es → es !! pos = Some (k, v) →
  ∃ n', removeKV n (Z.of_nat pos) = Ret n'
        ∧ holds n' (delete pos es)
        ∧ typ n' = typ n ∧ pointers n' = pointers n.
Proof.
  intros Hh Hi. destruct (holds_split n es pos (k, v) Hh Hi) as (Hd & Ho & Hlt).
  destruct Hh as (Hn & Hoffs & Hdd & Hb).
  pose proof Hb as Hb'. rewrite Hd in Hb'.
  pose proof (entry_read_bounds (entries_bytes (take pos es))
                (entries_bytes (drop (S pos) es)) k v) as Hbd.
  assert (Hposlt : (pos < length es)%nat) by (apply lookup_lt_Some in Hi; exact Hi).
  unfold removeKV.
  destruct (decide _) as [[?|Hge]|_]; [exfalso; lia| |].
  { exfalso. rewrite Hn in Hge. unfold len in Hge. lia. }
  rewrite Ho. cbn [mbind res_mbind res_bind].
  rewrite Hd in *.
  destruct (decide _) as [Hgt|_]; [exfalso; lia|].
  rewrite (entry_read_key0 _ _ k v). cbn [mbind res_mbind res_bind].
  rewrite (entry_read_key1 _ _ k v Hb'). cbn [mbind res_mbind res_bind].
  rewrite (entry_read_val0 _ _ k v Hb'). cbn [mbind res_mbind res_bind].
  rewrite (entry_read_val1 _ _ k v Hb'). cbn [mbind res_mbind res_bind].
  rewrite (entry_read_keyLen _ _ k v Hb'), (entry_read_valLen _ _ k v Hb').
  set (start := len (entries_bytes (take pos es))) in *.
  rewrite (u16_id (4 + len k)) by lia.
  rewrite (u16_id (4 + len k + len v)) by lia.
  rewrite (u16_id (4 + len k + len v)) by lia.
  rewrite (u16_id (start + (4 + len k + len v))) by lia.
  rewrite (slice_to_app (entries_bytes (take pos es))). cbn [mbind res_mbind res_bind].
  assert (Hpost : slice_from (entries_bytes (take pos es) ++ entry_bytes (k, v)
                                ++ entries_bytes (drop (S pos) es))
                    (start + (4 + len k + len v))
                  = Ret (entries_bytes (drop (S pos) es))).
  { rewrite app_assoc.
    replace (start + (4 + len k + len v))
      with (len (entries_bytes (take pos es) ++ entry_bytes (k, v)))
      by (rewrite len_app, len_entry_bytes; reflexivity).
    apply slice_from_app. }
  rewrite Hpost. cbn [mbind res_mbind res_bind].
  assert (Hoff3 : offsets n = entry_offsets 0 (take pos es)
                    ++ [start]
                    ++ entry_offsets (start + len (entry_bytes (k, v))) (drop (S pos) es)).
  { rewrite Hoffs. rewrite <- (take_drop_middle es pos (k, v) Hi) at 1.
    rewrite entry_offsets_app. simpl. rewrite Z.add_0_l. reflexivity. }
  assert (Hlo : length (entry_offsets 0 (take pos es)) = pos).
  { rewrite entry_offsets_length, length_take. lia. }
  rewrite Hoff3.
  rewrite (slice_to_app_n _ _ pos Hlo). cbn [mbind res_mbind res_bind].
  rewrite app_assoc.
  replace (Z.of_nat pos + 1) with (Z.of_nat (pos + 1)) by lia.
  rewrite (slice_from_app_n (entry_offsets 0 (take pos es) ++ [start]) _ (pos + 1)%nat)
    by (rewrite length_app, Hlo; reflexivity).
  cbn [mbind res_mbind res_bind].
  eexists. split; [reflexivity|]. split; [|split; reflexivity].
  unfold holds. cbn [nkeys offsets data]. rewrite delete_take_drop.
  split; [|split; [|split]].
  - rewrite Hn. rewrite u16_id.
    + rewrite len_app. unfold len. rewrite length_take, length_drop. lia.
    + pose proof (entries_bytes_min es) as Hm. rewrite <- Hdd in Hm. unfold len in *. lia.
  - rewrite entry_offsets_app. f_equal. rewrite Z.add_0_l. fold start.
    transitivity ((λ o, o + - len (entry_bytes (k, v)))
                    <$> entry_offsets (start + len (entry_bytes (k, v))) (drop (S pos) es)).
    + apply Forall_fmap_ext_1.
      pose proof (entry_offsets_bound (start + len (entry_bytes (k, v)))
                    (drop (S pos) es)) as Hbd'.
      eapply Forall_impl; [exact Hbd'|]. simpl. intros o Hob.
      rewrite len_entry_bytes in *. simpl in *.
      rewrite u16_id by lia. lia.
    + rewrite <- entry_offsets_shift. f_equal. lia.
  - rewrite entries_bytes_app. reflexivity.
  - rewrite len_app. lia.
Qed.

Lemma promoted_key_holds r es k v :
  holds r ((k, v) :: es) → promoted_key r = Ret k.
Proof.
  intros Hh.
  destruct (holds_split r _ 0%nat (k, v) Hh eq_refl) as (Hd & Ho & Hlt).
  destruct Hh as (_ & _ & _ & Hb). rewrite Hd in Hb.
  pose proof (entry_read_bounds (entries_bytes (take 0 ((k, v) :: es)))
                (entries_bytes (drop 1 ((k, v) :: es))) k v) as Hbd.
  unfold promoted_key. destruct (decide _) as [_|Hn]; [|exfalso; simpl in Hlt; lia].
  change (Z.of_nat 0) with 0 in Ho. rewrite Ho. cbn [mbind res_mbind res_bind].
  rewrite Hd.
  destruct (decide _) as [_|Hgt]; [|exfalso; lia].
  rewrite (entry_read_key0 _ _ k v). cbn [mbind res_mbind res_bind].
  rewrite (entry_read_key1 _ _ k v Hb). cbn [mbind res_mbind res_bind].
  rewrite (entry_read_keyLen _ _ k v Hb).
  destruct (decide _) as [_|Hgt].
  - apply (entry_read_key _ _ k v Hb).
  - exfalso. rewrite (u16_id (_ + 4)) in Hgt by lia.
    rewrite (u16_id (_ + 4 + len k)) in Hgt by lia. lia.
Qed.

Lemma Split_holds n es :
  holds n es → (2 ≤ length es)%nat → typ n ≠ BNODE_NODE →
  ∃ l r,
    Split n = Ret (l, Some r, default [] (head (drop (length es / 2) es).*1))
    ∧ holds l (take (length es / 2) es)
    ∧ holds r (drop (length es / 2) es)
    ∧ typ l = typ n ∧ typ r = typ n
    ∧ pointers l = pointers n ∧ pointers r = [].
Proof.
  intros Hh Hlen Htyp. pose proof Hh as (Hn & Ho & Hd & Hb).
  set (h := (length es / 2)%nat).
  assert (Hh1 : (1 ≤ h ∧ h < length es)%nat).
  { unfold h. split.
    - apply Nat.div_le_lower_bound; lia.
    - apply Nat.div_lt; lia. }
  assert (Hdiv : nkeys n `div` 2 = Z.of_nat h).
  { rewrite Hn. unfold len, h. rewrite Nat2Z.inj_div. reflexivity. }
  pose proof (entries_bytes_min es) as Hmin. rewrite <- Hd in Hmin.
  destruct (es !! h) as [[k v]|] eqn:Eh.
  2:{ apply lookup_ge_None in Eh. lia. }
  destruct (holds_split n es h (k, v) Hh Eh) as (Hdata & Hidx & Hlt).
  set (start := len (entries_bytes (take h es))) in *.
  assert (Hdata2 : data n = entries_bytes (take h es) ++ entries_bytes (drop h es)).
  { rewrite Hd. rewrite <- (take_drop h es) at 1. apply entries_bytes_app. }
  assert (Hoffs : offsets n = entry_offsets 0 (take h es)
                              ++ entry_offsets start (drop h es)).
  { rewrite Ho. rewrite <- (take_drop h es) at 1. rewrite entry_offsets_app. reflexivity. }
  assert (Hlo : length (entry_offsets 0 (take h es)) = h).
  { rewrite entry_offsets_length, length_take. lia. }
  assert (Hstart : 0 ≤ start ∧ start + len (entries_bytes (drop h es)) = len (data n)).
  { unfold start. rewrite Hdata2, len_app. split; [apply len_nonneg | reflexivity]. }
  unfold Split.
  destruct (decide (nkeys n < 2)) as [Hlt2|_].
  { exfalso. rewrite Hn in Hlt2. unfold len in Hlt2. lia. }
  rewrite Hdiv.
  destruct (decide (typ n = BNODE_NODE)) as [|_]; [contradiction|].
  cbn [mbind res_mbind res_bind mret res_ret].
  rewrite Hidx. cbn [mbind res_mbind res_bind].
  assert (Hrd : slice_from (data n) start = Ret (entries_bytes (drop h es))).
  { rewrite Hdata2. apply slice_from_app. }
  assert (Hld : slice_to (data n) start = Ret (entries_bytes (take h es))).
  { rewrite Hdata2. apply slice_to_app. }
  rewrite Hrd. cbn [mbind res_mbind res_bind].
  assert (Hcount : u16 (nkeys n - Z.of_nat h) = Z.of_nat (length es - h)).
  { rewrite Hn. unfold len in *. rewrite u16_id by lia. lia. }
  rewrite Hcount.
  rewrite (mapM_Ret _ (λ i, default 0 (entry_offsets 0 (drop h es) !! Z.to_nat i))).
  2:{ intros i Hi. apply elem_of_seqZ in Hi.
      assert (Z.to_nat i < length (drop h es))%nat as Hil by (rewrite length_drop; lia).
      destruct (lookup_lt_is_Some_2 _ _ Hil) as [e He].
      rewrite (entry_offsets_lookup 0 _ _ e He). simpl.
      rewrite u16_id by (unfold len in *; lia).
      assert (Hix : index (offsets n) (Z.of_nat h + i)
                    = Ret (start + len (entries_bytes (take (Z.to_nat i) (drop h es))))).
      { unfold index. destruct (decide _); [|lia]. rewrite Hoffs.
        rewrite lookup_app_r by lia. rewrite Hlo.
        replace (Z.to_nat (Z.of_nat h + i) - h)%nat with (Z.to_nat i) by lia.
        rewrite (entry_offsets_lookup start _ _ e He). reflexivity. }
      rewrite Hix. cbn [mbind res_mbind res_bind mret res_ret]. f_equal.
      assert (len (entries_bytes (take (Z.to_nat i) (drop h es)))
              ≤ len (entries_bytes (drop h es))) as Hle.
      { rewrite <- (take_drop (Z.to_nat i) (drop h es)) at 2.
        rewrite entries_bytes_app, len_app.
        pose proof (len_nonneg (entries_bytes (drop (Z.to_nat i) (drop h es)))). lia. }
      pose proof (len_nonneg (entries_bytes (take (Z.to_nat i) (drop h es)))).
      rewrite u16_id by lia. lia. }
  cbn [mbind res_mbind res_bind].
  assert (Hlf : slice_to (offsets n) (Z.of_nat h) = Ret (entry_offsets 0 (take h es))).
  { rewrite Hoffs. apply slice_to_app_n. exact Hlo. }
  rewrite Hlf. cbn [mbind res_mbind res_bind].
  rewrite Hld. cbn [mbind res_mbind res_bind].
  assert (Hroffs : (λ i, default 0 (entry_offsets 0 (drop h es) !! Z.to_nat i))
                     <$> seqZ 0 (Z.of_nat (length es - h))
                   = entry_offsets 0 (drop h es)).
  { apply list_eq. intros i. rewrite list_lookup_fmap.
    destruct (entry_offsets 0 (drop h es) !! i) as [o|] eqn:E.
    - assert (i < length es - h)%nat as Hi.
      { apply lookup_lt_Some in E. rewrite entry_offsets_length, length_drop in E. exact E. }
      rewrite lookup_seqZ_lt by lia. simpl. rewrite Z.add_0_l, Nat2Z.id, E. reflexivity.
    - apply lookup_ge_None in E. rewrite entry_offsets_length, length_drop in E.
      rewrite lookup_seqZ_ge by lia. reflexivity. }
  rewrite Hroffs.
  set (r := {| typ := typ n; nkeys := Z.of_nat (length es - h); pointers := [];
               offsets := entry_offsets 0 (drop h es);
               data := entries_bytes (drop h es) |}).
  assert (Hr : holds r (drop h es)).
  { unfold holds, r. cbn [nkeys offsets data]. split; [|split; [|split]]; auto.
    - unfold len. rewrite length_drop. reflexivity.
    - pose proof (len_nonneg (entries_bytes (take h es))). fold start in H. lia. }
  assert (Hdrop : drop h es = (k, v) :: drop (S h) es).
  { apply drop_S. exact Eh. }
  assert (Hpk : promoted_key r = Ret k).
  { apply (promoted_key_holds r (drop (S h) es) k v). rewrite <- Hdrop. exact Hr. }
  rewrite Hpk. cbn [mbind res_mbind res_bind mret res_ret].
  exists {| typ := typ n; nkeys := Z.of_nat h; pointers := pointers n;
            offsets := entry_offsets 0 (take h es);
            data := entries_bytes (take h es) |}, r.
  split; [|split; [|split; [exact Hr | repeat split; reflexivity]]].
  - rewrite Hdrop. reflexivity.
  - unfold holds. cbn [nkeys offsets data]. split; [|split; [|split]]; auto.
    + unfold len. rewrite length_take. f_equal. lia.
    + pose proof (len_nonneg (entries_bytes (drop h es))). fold start. lia.
Qed.

Lemma entry_at_holds n es i k v :
  holds n es → typ n = BNODE_LEAF → es !! i = Some (k, v) →
  entry_at n (Z.of_nat i) = Ret (Some (k, v)).
Proof.
  intros Hh Ht Hi. destruct (holds_split n es i (k, v) Hh Hi) as (Hd & Ho & Hlt).
  destruct Hh as (Hn & _ & _ & Hb). rewrite Hd in Hb.
  pose proof (entry_read_bounds (entries_bytes (take i es))
                (entries_bytes (drop (S i) es)) k v) as Hbd.
  unfold entry_at. destruct (decide _) as [Hge|_]; [exfalso; lia|].
  rewrite Ho. cbn [mbind res_mbind res_bind].
  rewrite Hd.
  destruct (decide _) as [Hgt|_]; [exfalso; lia|].
  rewrite (entry_read_key0 _ _ k v). cbn [mbind res_mbind res_bind].
  rewrite (entry_read_key1 _ _ k v Hb). cbn [mbind res_mbind res_bind].
  rewrite (entry_read_val0 _ _ k v Hb). cbn [mbind res_mbind res_bind].
  rewrite (entry_read_val1 _ _ k v Hb). cbn [mbind res_mbind res_bind].
  rewrite (entry_read_keyLen _ _ k v Hb), (entry_read_valLen _ _ k v Hb).
  destruct (decide _) as [Hgt|_].
  { exfalso. rewrite (u16_id (_ + 4)) in Hgt by lia.
    rewrite (u16_id (_ + 4 + len k)) in Hgt by lia. lia. }
  rewrite (entry_read_key _ _ k v Hb). cbn [mbind res_mbind res_bind].
  destruct (decide (typ n = BNODE_LEAF)) as [_|]; [|contradiction].
  destruct (decide _) as [Hgt|_].
  { exfalso. rewrite (u16_id (_ + 4)) in Hgt by lia.
    rewrite (u16_id (_ + 4 + len k)) in Hgt by lia.
    rewrite (u16_id (_ + 4 + len k + len v)) in Hgt by lia. lia. }
  rewrite (entry_read_value _ _ k v Hb). reflexivity.
Qed.

Lemma Iterate_loop_holds {Acc Err} n es (f : list byte → list byte → Acc → Acc * option Err) j s :
  holds n es → typ n = BNODE_LEAF → (j ≤ length es)%nat →
  Iterate_loop n f (seqZ (Z.of_nat j) (Z.of_nat (length es - j))) s
  = Ret (visit f (drop j es) s).
Proof.
  intros Hh Ht. remember (length es - j)%nat as m eqn:Hm.
  revert j s Hm. induction m as [|m IH]; intros j s Hm Hj.
  - rewrite drop_ge by lia. reflexivity.
  - destruct (es !! j) as [[k v]|] eqn:Ej.
    2:{ apply lookup_ge_None in Ej. lia. }
    rewrite seqZ_cons by lia. cbn [Iterate_loop].
    rewrite (entry_at_holds n es j k v Hh Ht Ej). cbn [mbind res_mbind res_bind].
    rewrite (drop_S es (k, v) j Ej). cbn [visit].
    destruct (f k v s) as [s' [err|]]; [reflexivity|].
    replace (Z.succ (Z.of_nat j)) with (Z.of_nat (S j)) by lia.
    replace (Z.pred (Z.of_nat (S m))) with (Z.of_nat m) by lia.
    apply IH; lia.
Qed.

Lemma holds_leaf_ab : holds leaf_ab [(key_a, key_b)].
Proof. repeat split; vm_compute; reflexivity. Defined.

Lemma holds_leaf_ab_cd : holds leaf_ab_cd [(key_a, key_b); (key_c, ["d"%byte])].
Proof. repeat split; vm_compute; reflexivity. Defined.

(** X5: on a leaf holding the entries [es], [insertKV] at a position up to
    the number of entries (the data staying within the range of the
    offsets) returns a leaf holding [es] with the new entry at that
    position: [keys] returns the keys in that order and [getValue] at the
    position returns the new value. *)
Theorem insertKV_then_read n es pos k v :
  holds n es → typ n = BNODE_LEAF → (pos ≤ length es)%nat →
  len (data n) + 4 + len k + len v < 65536 →
  ∃ n', insertKV n (Z.of_nat pos) k v = Ret n'
        ∧ holds n' (insert_at pos (k, v) es)
        ∧ keys n' = Ret (insert_at pos k es.*1)
        ∧ getValue n' (Z.of_nat pos) = Ret v.
Proof.
  intros Hh Ht Hpos Hfit.
  destruct (insertKV_holds n es pos k v Hh Hpos Hfit) as (n' & HI & Hh' & Ht' & _).
  exists n'. split; [exact HI|]. split; [exact Hh'|]. split.
  - rewrite (keys_holds n' _ Hh'). unfold insert_at.
    rewrite fmap_app, fmap_cons, fmap_take, fmap_drop. reflexivity.
  - apply (getValue_holds n' (insert_at pos (k, v) es) pos k v Hh'); [congruence|].
    unfold insert_at. rewrite lookup_app_r by (rewrite length_take; lia).
    rewrite length_take. replace (pos - pos `min` length es)%nat with 0%nat by lia.
    reflexivity.
Qed.

Lemma insertKV_then_read_witness :
  ∃ n', insertKV leaf_ab 1 key_c val_new = Ret n'
        ∧ holds n' [(key_a, key_b); (key_c, val_new)]
        ∧ keys n' = Ret [key_a; key_c]
        ∧ getValue n' 1 = Ret val_new.
Proof.
  apply (insertKV_then_read leaf_ab [(key_a, key_b)] 1 key_c val_new).
  - exact holds_leaf_ab.
  - reflexivity.
  - simpl. lia.
  - vm_compute. reflexivity.
Defined.

(** X6: [removeKV] undoes [insertKV]: on a node holding entries, removing
    at the position where an entry was just inserted gives the node back. *)
Theorem removeKV_undoes_insertKV n es pos k v :
  holds n es → (pos ≤ length es)%nat →
  len (data n) + 4 + len k + len v < 65536 →
  ∃ n', insertKV n (Z.of_nat pos) k v = Ret n'
        ∧ removeKV n' (Z.of_nat pos) = Ret n.
Proof.
  intros Hh Hpos Hfit.
  destruct (insertKV_holds n es pos k v Hh Hpos Hfit) as (n' & HI & Hh' & Ht' & Hp').
  exists n'. split; [exact HI|].
  assert (Hi : insert_at pos (k, v) es !! pos = Some (k, v)).
  { unfold insert_at. rewrite lookup_app_r by (rewrite length_take; lia).
    rewrite length_take. replace (pos - pos `min` length es)%nat with 0%nat by lia.
    reflexivity. }
  destruct (removeKV_holds n' _ pos k v Hh' Hi) as (n'' & HR & Hh'' & Ht'' & Hp'').
  rewrite HR. f_equal.
  assert (Hdel : delete pos (insert_at pos (k, v) es) = es).
  { unfold insert_at. rewrite delete_take_drop.
    rewrite take_app_le by (rewrite length_take; lia).
    rewrite take_take. replace (pos `min` pos)%nat with pos by lia.
    rewrite drop_app_ge by (rewrite length_take; lia).
    rewrite length_take. replace (S pos - pos `min` length es)%nat with 1%nat by lia.
    simpl. rewrite drop_0. apply take_drop. }
  rewrite Hdel in Hh''.
  destruct Hh as (Hn & Ho & Hd & _). destruct Hh'' as (Hn'' & Ho'' & Hd'' & _).
  destruct n as [t1 k1 p1 o1 d1], n'' as [t2 k2 p2 o2 d2]. simpl in *.
  congruence.
Qed.

Lemma removeKV_undoes_insertKV_witness :
  ∃ n', insertKV leaf_ab 0 key_c val_new = Ret n' ∧ removeKV n' 0 = Ret leaf_ab.
Proof.
  apply (removeKV_undoes_insertKV leaf_ab [(key_a, key_b)] 0 key_c val_new).
  - exact holds_leaf_ab.
  - simpl. lia.
  - vm_compute. reflexivity.
Defined.

(** X7: [Split] on a leaf holding at least two entries keeps every entry:
    the receiver keeps the first half (the number of entries divided by
    two), the new node holds the rest in the same order, and the promoted
    key is the first key of the new node. *)
Theorem Split_keeps_entries n es :
  holds n es → (2 ≤ length es)%nat → typ n = BNODE_LEAF →
  ∃ l r kl kr,
    Split n = Ret (l, Some r, default [] (head kr))
    ∧ holds l (take (length es / 2) es) ∧ holds r (drop (length es / 2) es)
    ∧ keys l = Ret kl ∧ keys r = Ret kr ∧ keys n = Ret (kl ++ kr)
    ∧ length kl = (length es / 2)%nat
    ∧ typ l = BNODE_LEAF ∧ typ r = BNODE_LEAF.
Proof.
  intros Hh Hlen Ht.
  destruct (Split_holds n es Hh Hlen) as (l & r & HS & Hl & Hr & Htl & Htr & _).
  { rewrite Ht. discriminate. }
  exists l, r, (take (length es / 2) es).*1, (drop (length es / 2) es).*1.
  split; [exact HS|]. split; [exact Hl|]. split; [exact Hr|].
  split; [apply keys_holds; exact Hl|]. split; [apply keys_holds; exact Hr|].
  split; [|split; [|split; congruence]].
  - rewrite (keys_holds n es Hh). rewrite <- fmap_app, take_drop. reflexivity.
  - rewrite length_fmap, length_take.
    assert (length es / 2 ≤ length es)%nat by (apply Nat.Div0.div_le_upper_bound; lia). lia.
Qed.

Lemma Split_keeps_entries_witness :
  ∃ l r kl kr,
    Split leaf_ab_cd = Ret (l, Some r, default [] (head kr))
    ∧ holds l [(key_a, key_b)] ∧ holds r [(key_c, ["d"%byte])]
    ∧ keys l = Ret kl ∧ keys r = Ret kr ∧ keys leaf_ab_cd = Ret (kl ++ kr)
    ∧ length kl = 1%nat
    ∧ typ l = BNODE_LEAF ∧ typ r = BNODE_LEAF.
Proof.
  apply (Split_keeps_entries leaf_ab_cd [(key_a, key_b); (key_c, ["d"%byte])]).
  - exact holds_leaf_ab_cd.
  - simpl. lia.
  - reflexivity.
Defined.

(** X8: on a leaf holding the entries [es], [Iterate] calls the callback on
    every entry, in order, with its key and its value, and stops at the
    first error the callback returns. *)
Theorem Iterate_visits_entries {Acc Err} n es
    (f : list byte → list byte → Acc → Acc * option Err) s :
  holds n es → typ n = BNODE_LEAF →
  Iterate n f s = Ret (visit f es s).
Proof.
  intros Hh Ht. unfold Iterate. destruct Hh as (Hn & Hrest). rewrite Hn.
  pose proof (Iterate_loop_holds n es f 0 s (conj Hn Hrest) Ht) as H.
  rewrite Nat.sub_0_r in H. apply H. lia.
Qed.

Lemma Iterate_visits_entries_witness :
  Iterate leaf_ab_cd collect_keys [] = Ret ([key_a; key_c], None).
Proof.
  apply (Iterate_visits_entries leaf_ab_cd [(key_a, key_b); (key_c, ["d"%byte])]
           collect_keys []).
  - exact holds_leaf_ab_cd.
  - reflexivity.
Defined.

(** ** Comparison of keys *)

Lemma Compare_Gt_Lt a b : Compare a b = Gt → Compare b a = Lt.
Proof.
  revert b. induction a as [|x a IH]; intros [|y b]; simpl; try discriminate; auto.
  rewrite (N.compare_antisym (Byte.to_N x) (Byte.to_N y)).
  destruct (N.compare (Byte.to_N x) (Byte.to_N y)) eqn:E; simpl; try discriminate; auto.
Qed.

Lemma Compare_Lt_trans a b c : Compare a b = Lt → Compare b c = Lt → Compare a c = Lt.
Proof.
  revert b c. induction a as [|x a IH]; intros [|y b] [|z c]; simpl; try discriminate; auto.
  destruct (N.compare (Byte.to_N x) (Byte.to_N y)) eqn:Exy; try discriminate;
  destruct (N.compare (Byte.to_N y) (Byte.to_N z)) eqn:Eyz; try discriminate.
  - apply N.compare_eq_iff in Exy. apply N.compare_eq_iff in Eyz.
    rewrite Exy, Eyz, N.compare_refl. apply IH.
  - apply N.compare_eq_iff in Exy. rewrite Exy, Eyz. reflexivity.
  - apply N.compare_eq_iff in Eyz. rewrite <- Eyz, Exy. reflexivity.
  - intros _ _. apply N.compare_lt_iff in Exy. apply N.compare_lt_iff in Eyz.
    pose proof (N.lt_trans _ _ _ Exy Eyz) as H.
    apply N.compare_lt_iff in H. rewrite H. reflexivity.
Qed.

Lemma ascending_cons k ks :
  ascending (k :: ks) = true ↔ Forall (λ k', Compare k k' = Lt) ks ∧ ascending ks = true.
Proof.
  simpl. rewrite andb_true_iff, forallb_forall, Forall_forall.
  split; intros [H1 H2]; split; auto; intros x Hx.
  - eapply bool_decide_eq_true_1. apply H1. apply list_elem_of_In. exact Hx.
  - apply bool_decide_eq_true_2. apply H1. apply list_elem_of_In. exact Hx.
Qed.

Lemma ascending_NoDup ks : ascending ks = true → NoDup ks.
Proof.
  induction ks as [|k ks IH]; intros H; [constructor|].
  apply ascending_cons in H as [Hk Hks]. constructor; [|auto].
  intros Hin. rewrite Forall_forall in Hk. apply Hk in Hin.
  rewrite Compare_refl in Hin. discriminate.
Qed.

Lemma ascending_app l1 l2 :
  ascending (l1 ++ l2) = true ↔
  ascending l1 = true ∧ ascending l2 = true
  ∧ Forall (λ a, Forall (λ b, Compare a b = Lt) l2) l1.
Proof.
  induction l1 as [|k l1 IH]; simpl app.
  - split; [intros H; repeat split; auto | intros (_ & H & _); exact H].
  - rewrite !ascending_cons, IH, Forall_app, Forall_cons. tauto.
Qed.

Lemma leaf_position_Some key ks i pos :
  ascending ks = true →
  leaf_position key ks i = Some pos →
  ∃ p : nat, pos = i + Z.of_nat p ∧ (p ≤ length ks)%nat
             ∧ (key ∉ ks)
             ∧ ascending (take p ks ++ key :: drop p ks) = true.
Proof.
  revert i. induction ks as [|k ks IH]; intros i Hasc H; simpl in H.
  - inversion H; subst. exists 0%nat. simpl. repeat split; auto; try lia.
    apply not_elem_of_nil.
  - apply ascending_cons in Hasc as [Hk Hks].
    destruct (Compare key k) eqn:E; [discriminate| |].
    + inversion H; subst. exists 0%nat. simpl take. simpl drop. simpl app.
      repeat split; [lia | simpl; lia | |].
      * intros Hin. apply elem_of_cons in Hin as [->|Hin].
        { rewrite Compare_refl in E. discriminate. }
        rewrite Forall_forall in Hk. apply Hk in Hin.
        apply Compare_Lt_Gt in Hin.
        pose proof (Compare_Lt_trans _ _ _ E (Compare_Gt_Lt _ _ Hin)) as Hc.
        rewrite Compare_refl in Hc. discriminate.
      * apply ascending_cons. split.
        -- constructor; [exact E|].
           eapply Forall_impl; [exact Hk|]. simpl. intros x Hx.
           eapply Compare_Lt_trans; eauto.
        -- apply ascending_cons. auto.
    + destruct (IH _ Hks H) as (p & -> & Hp & Hnotin & Hasc').
      exists (S p). repeat split; [lia | simpl; lia | |].
      * intros Hin. apply elem_of_cons in Hin as [->|Hin]; [|contradiction].
        rewrite Compare_refl in E. discriminate.
      * simpl take. simpl drop. simpl app. apply ascending_cons. split; [|exact Hasc'].
        apply Forall_app. split.
        -- apply Forall_take. exact Hk.
        -- constructor; [apply Compare_Gt_Lt; exact E|]. apply Forall_drop. exact Hk.
Qed.

Lemma leaf_position_None key ks i :
  leaf_position key ks i = None → key ∈ ks.
Proof.
  revert i. induction ks as [|k ks IH]; intros i H; simpl in H; [discriminate|].
  destruct (Compare key k) eqn:E; [|discriminate|].
  - apply Compare_Eq in E. subst. left.
  - right. eapply IH; eauto.
Qed.

Lemma list_find_Compare_Eq key ks :
  list_find (λ k, Compare key k = Eq) ks
  = (λ i, (i, key)) <$> (fst <$> list_find (λ k, k = key) ks).
Proof.
  induction ks as [|k ks IH]; [reflexivity|].
  cbn [list_find]. destruct (decide (Compare key k = Eq)) as [E|E].
  - apply Compare_Eq in E. subst. destruct (decide (k = k)); [reflexivity | congruence].
  - destruct (decide (k = key)) as [->|_].
    + rewrite Compare_refl in E. congruence.
    + rewrite IH. destruct (list_find (λ k0, k0 = key) ks) as [[i x]|]; reflexivity.
Qed.

Lemma ascending_delete ks i : ascending ks = true → ascending (delete i ks) = true.
Proof.
  intros H. rewrite delete_take_drop.
  rewrite <- (take_drop i ks) in H. apply ascending_app in H as (H1 & H2 & H3).
  apply ascending_app. split; [exact H1|].
  destruct (drop i ks) as [|x rest] eqn:E.
  - assert (drop (S i) ks = []) as ->.
    { apply drop_ge. apply (f_equal length) in E. rewrite length_drop in E. simpl in E. lia. }
    split; [reflexivity|]. eapply Forall_impl; [exact H3|]. intros; constructor.
  - assert (drop (S i) ks = rest) as ->.
    { replace (S i) with (i + 1)%nat by lia. rewrite <- drop_drop, E. reflexivity. }
    apply ascending_cons in H2 as [_ H2]. split; [exact H2|].
    eapply Forall_impl; [exact H3|]. simpl. intros a Ha.
    apply Forall_cons in Ha as [_ Ha]. exact Ha.
Qed.

(** ** A tree whose root is a leaf *)

Lemma M_bind_eq {A B} (m : M A) (f : A → M B) s a s1 :
  m s = Ret (a, s1) → (m ≫= f) s = f a s1.
Proof. intros H. unfold mbind, M_mbind, M_bind. rewrite H. reflexivity. Qed.

Lemma lift_eq {A} (r : res A) (a : A) s : r = Ret a → lift r s = Ret (a, s).
Proof. intros ->. reflexivity. Qed.

Lemma deref_eq s a nd : nodes s !! a = Some nd → deref (Some a) s = Ret (nd, s).
Proof. intros H. unfold deref. rewrite H. reflexivity. Qed.

Lemma findLeaf_leaf fuel s a nd key :
  nodes s !! a = Some nd → typ nd = BNODE_LEAF →
  findLeaf (S fuel) (Some a) key s = Ret (Some a, s).
Proof.
  intros Hnd Ht. cbn [findLeaf]. rewrite (M_bind_eq _ _ _ _ _ (deref_eq s a nd Hnd)).
  destruct (decide _); [reflexivity | contradiction].
Qed.

Lemma list_to_map_lookup_keys (es : list entry) key :
  NoDup es.*1 →
  (list_to_map es : gmap (list byte) (list byte)) !! key
  = snd <$> (snd <$> list_find (λ e : entry, e.1 = key) es).
Proof.
  induction es as [|[k v] es IH]; intros Hnd; [reflexivity|].
  cbn [list_to_map foldr]. cbn [list_find]. simpl fst.
  apply NoDup_cons in Hnd as [Hk Hnd].
  destruct (decide (k = key)) as [->|Hne].
  - simpl. apply lookup_insert_eq.
  - simpl. rewrite lookup_insert_ne by exact Hne. rewrite (IH Hnd).
    destruct (list_find _ es) as [[i x]|]; reflexivity.
Qed.

Lemma list_find_fst (es : list entry) key :
  fst <$> list_find (λ k, k = key) es.*1 = fst <$> list_find (λ e : entry, e.1 = key) es.
Proof.
  induction es as [|[k v] es IH]; [reflexivity|].
  cbn [fmap list_fmap list_find]. simpl fst.
  destruct (decide (k = key)); [reflexivity|].
  change (list_fmap _ _ fst es) with (es.*1).
  destruct (list_find (λ k0, k0 = key) es.*1) as [[i x]|] eqn:E1;
  destruct (list_find (λ e : entry, e.1 = key) es) as [[j y]|] eqn:E2;
    simpl in *; congruence.
Qed.

Lemma holds_Size nd es :
  holds nd es → Size nd = 4 + 8 * len (pointers nd) + 2 * len es + len (entries_bytes es).
Proof.
  intros (_ & Ho & Hd & _). unfold Size. rewrite Ho, Hd.
  unfold len at 2. rewrite entry_offsets_length. fold (len es). lia.
Qed.

Lemma insert_at_fst (p : nat) (k v : list byte) (es : list entry) :
  (insert_at p (k, v) es).*1 = take p es.*1 ++ k :: drop p es.*1.
Proof. unfold insert_at. rewrite fmap_app, fmap_cons, fmap_take, fmap_drop. reflexivity. Qed.

Lemma list_to_map_insert_at (p : nat) (k v : list byte) (es : list entry) :
  NoDup (insert_at p (k, v) es).*1 →
  (list_to_map (insert_at p (k, v) es) : sorted_map) = <[k := v]> (list_to_map es).
Proof.
  intros Hnd. unfold sorted_map.
  change (<[k:=v]> (list_to_map es : gmap (list byte) (list byte)))
    with (list_to_map ((k, v) :: es) : gmap (list byte) (list byte)).
  apply list_to_map_proper; [exact Hnd|].
  unfold insert_at. rewrite <- Permutation_middle. rewrite take_drop. reflexivity.
Qed.

Lemma list_to_map_delete_at (es : list entry) i k v :
  NoDup es.*1 → es !! i = Some (k, v) →
  (list_to_map (delete i es) : sorted_map) = delete k (list_to_map es).
Proof.
  intros Hnd Hi. unfold sorted_map.
  assert (Hperm : es ≡ₚ (k, v) :: delete i es) by (apply delete_Permutation; exact Hi).
  rewrite (list_to_map_proper es ((k, v) :: delete i es) Hnd Hperm).
  rewrite list_to_map_cons, delete_insert_eq.
  symmetry. apply delete_id. apply not_elem_of_list_to_map_1.
  assert (NoDup ((k, v) :: delete i es).*1) as Hnd'.
  { rewrite <- Hperm. exact Hnd. }
  rewrite fmap_cons in Hnd'. apply NoDup_cons in Hnd' as [Hn _]. exact Hn.
Qed.

(** [Get] on a tree whose root is a leaf: the value the sorted map of the
    entries has for the key. *)
Lemma Get_root_leaf fuel s nd es key :
  root_leaf s nd es →
  Btree.Get (S fuel) key s
  = Ret (match (list_to_map es : sorted_map) !! key with
         | Some v => (v, None)
         | None => ([], Some ErrKeyNotFound)
         end, s).
Proof.
  intros (a & Hroot & Hnd & Ht & Hh & Hasc).
  unfold Btree.Get.
  rewrite (M_bind_eq get_state _ s s s eq_refl). rewrite Hroot.
  rewrite (M_bind_eq _ _ _ _ _ (findLeaf_leaf fuel s a nd key Hnd Ht)).
  rewrite (M_bind_eq _ _ _ _ _ (deref_eq s a nd Hnd)).
  rewrite (M_bind_eq _ _ _ _ _ (lift_eq _ _ s (keys_holds nd es Hh))).
  rewrite list_find_Compare_Eq, list_find_fst.
  rewrite list_to_map_lookup_keys by (apply ascending_NoDup; exact Hasc).
  destruct (list_find (λ e : entry, e.1 = key) es) as [[i [k v]]|] eqn:E; [|reflexivity].
  apply list_find_Some in E as (Hi & Hk & _). simpl in Hk. subst k.
  cbn [fmap option_fmap option_map fst snd].
  rewrite (M_bind_eq _ _ _ _ _ (lift_eq _ _ s (getValue_holds nd es i key v Hh Ht Hi))).
  reflexivity.
Qed.

(** [Insert] on a tree whose root is a leaf with room for the entry: a
    present key is refused, an absent key is added to the leaf. *)
Lemma Insert_root_leaf fuel s nd es key value :
  root_leaf s nd es →
  len key ≤ BTREE_MAX_KEY_SIZE → len value ≤ BTREE_MAX_VAL_SIZE →
  Size nd + 6 + len key + len value < BTREE_PAGE_SIZE →
  match (list_to_map es : sorted_map) !! key with
  | Some _ => Insert (S fuel) key value s = Ret (Some ErrKeyExists, s)
  | None =>
      ∃ s' nd' es',
        Insert (S fuel) key value s = Ret (None, s')
        ∧ root_leaf s' nd' es'
        ∧ (list_to_map es' : sorted_map) = <[key := value]> (list_to_map es)
        ∧ size s' = int (size s + 1)
        ∧ Size nd' = Size nd + 6 + len key + len value
  end.
Proof.
  intros (a & Hroot & Hnd & Ht & Hh & Hasc) Hk Hv Hroom.
  pose proof (holds_Size nd es Hh) as HSize.
  pose proof (len_nonneg (pointers nd)) as Hp0. pose proof (len_nonneg es) as He0.
  pose proof (len_nonneg key) as Hk0. pose proof (len_nonneg value) as Hv0.
  assert (Hprefix :
            Insert (S fuel) key value s
            = (insertInLeaf (Some a) key value ≫= λ err,
                 match err with
                 | Some e => mret (Some e)
                 | None =>
                     lnd ← deref (Some a);
                     (if IsFull lnd then
                        '(newLeaf, promotedKey) ← SplitAt (Some a);
                        insertInParent (S fuel) (Some a) promotedKey newLeaf
                      else mret tt);;
                     s ← get_state;
                     set_size (int (size s + 1));;
                     mret None
                 end) s).
  { unfold Insert.
    destruct (decide (len key > BTREE_MAX_KEY_SIZE)); [lia|].
    destruct (decide (len value > BTREE_MAX_VAL_SIZE)); [lia|].
    rewrite (M_bind_eq get_state _ s s s eq_refl). rewrite Hroot.
    rewrite (M_bind_eq _ _ _ _ _ (findLeaf_leaf fuel s a nd key Hnd Ht)). reflexivity. }
  rewrite Hprefix. clear Hprefix.
  unfold insertInLeaf.
  destruct ((list_to_map es : sorted_map) !! key) as [old|] eqn:Elook.
  - assert (key ∈ es.*1) as Hin.
    { destruct (decide (key ∈ es.*1)) as [|Hn]; [assumption|].
      apply not_elem_of_list_to_map_1 in Hn.
      change (list_to_map es !! key) with ((list_to_map es : sorted_map) !! key) in Hn.
      congruence. }
    rewrite (M_bind_eq _ _ s (Some ErrKeyExists) s); [reflexivity|].
    rewrite (M_bind_eq _ _ _ _ _ (deref_eq s a nd Hnd)).
    rewrite (M_bind_eq _ _ _ _ _ (lift_eq _ _ s (keys_holds nd es Hh))).
    rewrite (leaf_position_found key _ 0 Hasc Hin). reflexivity.
  - assert (key ∉ es.*1) as Hnotin.
    { apply (not_elem_of_list_to_map (M := gmap (list byte))). exact Elook. }
    destruct (leaf_position key es.*1 0) as [pos|] eqn:Epos.
    2:{ apply leaf_position_None in Epos. contradiction. }
    destruct (leaf_position_Some key _ 0 pos Hasc Epos) as (p & -> & Hp & _ & Hasc').
    rewrite length_fmap in Hp.
    destruct (insertKV_holds nd es p key value Hh Hp) as (nd' & HI & Hh' & Ht' & Hptr').
    { destruct Hh as (_ & _ & Hd & _). rewrite Hd.
      unfold BTREE_PAGE_SIZE in Hroom. lia. }
    rewrite Z.add_0_l in *.
    set (s1 := {| nodes := <[a := nd']> (nodes s); brk := brk s;
                  nodeRelationships := nodeRelationships s;
                  nextNodeID := nextNodeID s; root := root s; size := size s |}).
    assert (HSize' : Size nd' = Size nd + 6 + len key + len value).
    { rewrite (holds_Size nd' _ Hh'), HSize, Hptr'. unfold insert_at.
      rewrite entries_bytes_app, entries_bytes_cons, !len_app, len_entry_bytes.
      simpl fst. simpl snd.
      rewrite <- (take_drop p es) at 5 6. rewrite entries_bytes_app, !len_app.
      assert (len ((key, value) :: drop p es) = len (drop p es) + 1) as ->
        by (unfold len; simpl length; lia).
      lia. }
    rewrite (M_bind_eq _ _ s None s1).
    2:{ rewrite (M_bind_eq _ _ _ _ _ (deref_eq s a nd Hnd)).
        rewrite (M_bind_eq _ _ _ _ _ (lift_eq _ _ s (keys_holds nd es Hh))).
        rewrite Epos.
        rewrite (M_bind_eq _ _ _ _ _ (lift_eq _ _ s HI)). reflexivity. }
    assert (Hnd1 : nodes s1 !! a = Some nd') by apply lookup_insert_eq.
    rewrite (M_bind_eq _ _ _ _ _ (deref_eq s1 a nd' Hnd1)).
    assert (IsFull nd' = false) as ->.
    { unfold IsFull. apply bool_decide_eq_false. lia. }
    eexists _, nd', (insert_at p (key, value) es).
    split; [reflexivity|]. split; [|split; [|split]].
    + exists a. split; [exact Hroot|]. split; [apply lookup_insert_eq|].
      split; [congruence|]. split; [exact Hh'|].
      rewrite insert_at_fst. exact Hasc'.
    + apply list_to_map_insert_at. rewrite insert_at_fst.
      apply ascending_NoDup. exact Hasc'.
    + reflexivity.
    + exact HSize'.
Qed.

(** [Delete] on a tree whose root is a leaf. *)
Lemma Delete_root_leaf fuel s nd es key :
  root_leaf s nd es →
  match (list_to_map es : sorted_map) !! key with
  | None => Btree.Delete (S fuel) key s = Ret (Some ErrKeyNotFound, s)
  | Some _ =>
      ∃ s' nd' es',
        Btree.Delete (S fuel) key s = Ret (None, s')
        ∧ root_leaf s' nd' es'
        ∧ (list_to_map es' : sorted_map) = delete key (list_to_map es)
        ∧ size s' = int (size s - 1)
        ∧ Size nd' ≤ Size nd
  end.
Proof.
  intros (a & Hroot & Hnd & Ht & Hh & Hasc).
  pose proof (ascending_NoDup _ Hasc) as Hnodup.
  unfold Btree.Delete.
  rewrite (M_bind_eq get_state _ s s s eq_refl). rewrite Hroot.
  rewrite (M_bind_eq _ _ _ _ _ (findLeaf_leaf fuel s a nd key Hnd Ht)).
  rewrite (M_bind_eq _ _ _ _ _ (deref_eq s a nd Hnd)).
  rewrite (M_bind_eq _ _ _ _ _ (lift_eq _ _ s (keys_holds nd es Hh))).
  rewrite list_find_Compare_Eq, list_find_fst.
  rewrite list_to_map_lookup_keys by exact Hnodup.
  destruct (list_find (λ e : entry, e.1 = key) es) as [[i [k v]]|] eqn:E; [|reflexivity].
  apply list_find_Some in E as (Hi & Hk & _). simpl in Hk. subst k.
  cbn [fmap option_fmap option_map fst snd].
  destruct (removeKV_holds nd es i key v Hh Hi) as (nd' & HR & Hh' & Ht' & Hptr').
  rewrite (M_bind_eq _ _ _ _ _ (lift_eq _ _ s HR)).
  set (s1 := {| nodes := <[a := nd']> (nodes s); brk := brk s;
                nodeRelationships := nodeRelationships s;
                nextNodeID := nextNodeID s; root := root s; size := size s |}).
  rewrite (M_bind_eq (store (Some a) nd') _ s tt s1 eq_refl).
  rewrite (M_bind_eq get_state _ s1 s1 s1 eq_refl).
  assert (bool_decide (Some a ≠ root s1) = false) as ->.
  { apply bool_decide_eq_false. intros Hne. apply Hne. symmetry. exact Hroot. }
  rewrite andb_false_r.
  eexists _, nd', (delete i es). split; [reflexivity|]. split; [|split; [|split]].
  - exists a. split; [exact Hroot|]. split; [apply lookup_insert_eq|].
    split; [congruence|]. split; [exact Hh'|].
    rewrite list_fmap_delete. apply ascending_delete. exact Hasc.
  - apply (list_to_map_delete_at es i key v Hnodup Hi).
  - reflexivity.
  - rewrite (holds_Size nd' _ Hh'), (holds_Size nd es Hh), Hptr'.
    rewrite <- (take_drop_middle es i (key, v) Hi) at 3 4.
    rewrite delete_take_drop.
    rewrite !entries_bytes_app, entries_bytes_cons, !len_app.
    assert (len ((key, v) :: drop (S i) es) = len (drop (S i) es) + 1) as ->
      by (unfold len; simpl length; lia).
    pose proof (len_nonneg (entry_bytes (key, v))). lia.
Qed.

Lemma NewBTree_root_leaf :
  ∃ s0, NewBTree initial = Ret (tt, s0) ∧ root_leaf s0 (NewNode BNODE_LEAF) []
        ∧ size s0 = 0.
Proof.
  eexists. split; [reflexivity|]. split; [|reflexivity].
  exists 0%nat. repeat split; reflexivity.
Qed.

Lemma ops_bytes_nonneg ops : 0 ≤ ops_bytes ops.
Proof.
  induction ops as [|[k v|k|k] ops IH]; simpl; try lia.
  pose proof (len_nonneg k). pose proof (len_nonneg v). lia.
Qed.

Lemma tree_run_root_leaf fuel ops s nd es :
  root_leaf s nd es → Forall op_in_bounds ops →
  Size nd + ops_bytes ops < BTREE_PAGE_SIZE →
  ∃ s', tree_run (S fuel) ops s = Ret (sorted_map_run (list_to_map es) ops, s').
Proof.
  revert s nd es. induction ops as [|o ops IH]; intros s nd es Hleaf Hb Hroom.
  - eexists. reflexivity.
  - apply Forall_cons in Hb as [Ho Hb]. pose proof (ops_bytes_nonneg ops) as Hnn.
    destruct o as [k v|k|k]; cbn [tree_run tree_step sorted_map_run sorted_map_step].
    + destruct Ho as [Hk Hv]. cbn [ops_bytes] in Hroom.
      pose proof (len_nonneg k) as Hk0. pose proof (len_nonneg v) as Hv0.
      pose proof (Insert_root_leaf fuel s nd es k v Hleaf Hk Hv) as HI.
      destruct ((list_to_map es : sorted_map) !! k) as [old|] eqn:E.
      * assert (HI' : Insert (S fuel) k v s = Ret (Some ErrKeyExists, s)) by (apply HI; lia).
        destruct (IH s nd es Hleaf Hb) as (s' & Hrun); [lia|].
        exists s'. unfold sorted_map in *.
        rewrite (M_bind_eq _ _ s (Failed ErrKeyExists) s).
        2:{ rewrite (M_bind_eq _ _ _ _ _ HI'). reflexivity. }
        rewrite (M_bind_eq _ _ _ _ _ Hrun). reflexivity.
      * destruct HI as (s1 & nd1 & es1 & HI' & Hleaf1 & Hmap & _ & HSize); [lia|].
        destruct (IH s1 nd1 es1 Hleaf1 Hb) as (s' & Hrun); [lia|].
        exists s'. unfold sorted_map in *.
        rewrite (M_bind_eq _ _ s Done s1).
        2:{ rewrite (M_bind_eq _ _ _ _ _ HI'). reflexivity. }
        rewrite (M_bind_eq _ _ _ _ _ Hrun). rewrite Hmap. reflexivity.
    + pose proof (Get_root_leaf fuel s nd es k Hleaf) as HG.
      destruct (IH s nd es Hleaf Hb) as (s' & Hrun); [exact Hroom|].
      exists s'. unfold sorted_map in *.
      destruct (list_to_map es !! k) as [v|] eqn:E.
      * rewrite (M_bind_eq _ _ s (Value v) s).
        2:{ rewrite (M_bind_eq _ _ _ _ _ HG). reflexivity. }
        rewrite (M_bind_eq _ _ _ _ _ Hrun). reflexivity.
      * rewrite (M_bind_eq _ _ s (Failed ErrKeyNotFound) s).
        2:{ rewrite (M_bind_eq _ _ _ _ _ HG). reflexivity. }
        rewrite (M_bind_eq _ _ _ _ _ Hrun). reflexivity.
    + pose proof (Delete_root_leaf fuel s nd es k Hleaf) as HD.
      cbn [ops_bytes] in Hroom.
      destruct ((list_to_map es : sorted_map) !! k) as [old|] eqn:E.
      * destruct HD as (s1 & nd1 & es1 & HD' & Hleaf1 & Hmap & _ & HSize).
        destruct (IH s1 nd1 es1 Hleaf1 Hb) as (s' & Hrun); [lia|].
        exists s'. unfold sorted_map in *.
        rewrite (M_bind_eq _ _ s Done s1).
        2:{ rewrite (M_bind_eq _ _ _ _ _ HD'). reflexivity. }
        rewrite (M_bind_eq _ _ _ _ _ Hrun). rewrite Hmap. reflexivity.
      * destruct (IH s nd es Hleaf Hb) as (s' & Hrun); [exact Hroom|].
        exists s'. unfold sorted_map in *.
        rewrite (M_bind_eq _ _ s (Failed ErrKeyNotFound) s).
        2:{ rewrite (M_bind_eq _ _ _ _ _ HD). reflexivity. }
        rewrite (M_bind_eq _ _ _ _ _ Hrun). reflexivity.
Qed.

(** X1: on a fresh tree, every sequence of [Insert], [Get] and [Delete]
    whose keys and values obey the size bounds and whose insertions add
    less than a page to the root leaf (so that no split happens) returns
    exactly what a sorted map returns for the same sequence: the values,
    key-already-exists on inserting a present key, key-not-found on reading
    or deleting an absent key. *)
Theorem one_page_tree_is_sorted_map fuel ops :
  Forall op_in_bounds ops →
  4 + ops_bytes ops < BTREE_PAGE_SIZE →
  eval (NewBTree;; tree_run (S fuel) ops) = Ret (sorted_map_run ∅ ops).
Proof.
  intros Hb Hroom. destruct NewBTree_root_leaf as (s0 & H0 & Hleaf & _).
  destruct (tree_run_root_leaf fuel ops s0 _ [] Hleaf Hb) as (s' & Hrun).
  { change (Size (NewNode BNODE_LEAF)) with 4. exact Hroom. }
  unfold eval. rewrite (M_bind_eq _ _ _ _ _ H0). rewrite Hrun. reflexivity.
Qed.

Lemma one_page_tree_is_sorted_map_witness :
  eval (NewBTree;; tree_run 1 small_ops) = Ret (sorted_map_run ∅ small_ops).
Proof.
  apply (one_page_tree_is_sorted_map 0 small_ops).
  - unfold small_ops. repeat constructor; vm_compute; discriminate.
  - vm_compute. reflexivity.
Defined.

(** ** Present and missing keys, in any tree *)

(** X2: in a tree whose leaves are sorted, a key that [Get] finds is refused
    by [Insert] with key-already-exists, whatever the value (within the
    bounds), and neither call changes the tree. *)
Theorem Insert_present_key_refused fuel key value s old s1 :
  leaves_sorted s →
  len key ≤ BTREE_MAX_KEY_SIZE → len value ≤ BTREE_MAX_VAL_SIZE →
  Btree.Get fuel key s = Ret (old, None, s1) →
  Insert fuel key value s = Ret (Some ErrKeyExists, s) ∧ s1 = s.
Proof.
  intros Hs Hk Hv HG.
  destruct (Get_found_Insert_exists fuel key value s old s1 Hs Hk HG) as [-> [[_ H]|[Hgt _]]].
  - auto.
  - lia.
Qed.

Lemma Insert_present_key_refused_witness :
  Insert 10 key_k val_new (btree engine_k) = Ret (Some ErrKeyExists, btree engine_k)
  ∧ btree engine_k = btree engine_k.
Proof.
  apply (Insert_present_key_refused 10 key_k val_new (btree engine_k) val_old).
  - exact leaves_sorted_engine_k.
  - vm_compute. discriminate.
  - vm_compute. discriminate.
  - vm_compute. reflexivity.
Defined.

(** X3: [Delete] answers key-not-found exactly when [Get] does, and then
    both leave the tree in the same state. *)
Theorem Delete_missing_iff_Get_missing fuel key s s1 :
  Btree.Delete fuel key s = Ret (Some ErrKeyNotFound, s1)
  ↔ Btree.Get fuel key s = Ret ([], Some ErrKeyNotFound, s1).
Proof.
  unfold Btree.Delete, Btree.Get. split; intros H.
  - apply M_bind_Ret in H as (s0 & s0' & Hg & H). rewrite (M_bind_eq _ _ _ _ _ Hg).
    apply M_bind_Ret in H as (leaf & s2 & Hf & H). rewrite (M_bind_eq _ _ _ _ _ Hf).
    apply M_bind_Ret in H as (nd & s3 & Hd & H). rewrite (M_bind_eq _ _ _ _ _ Hd).
    apply M_bind_Ret in H as (ks & s4 & Hk & H). rewrite (M_bind_eq _ _ _ _ _ Hk).
    destruct (list_find _ ks) as [[pos k]|]; [|inversion H; reflexivity].
    apply M_bind_Ret in H as (nd' & s5 & _ & H).
    apply M_bind_Ret in H as (u & s6 & _ & H).
    apply M_bind_Ret in H as (s7 & s8 & _ & H).
    apply M_bind_Ret in H as (u1 & s9 & _ & H).
    apply M_bind_Ret in H as (s10 & s11 & _ & H).
    apply M_bind_Ret in H as (u' & s12 & _ & H). inversion H.
  - apply M_bind_Ret in H as (s0 & s0' & Hg & H). rewrite (M_bind_eq _ _ _ _ _ Hg).
    apply M_bind_Ret in H as (leaf & s2 & Hf & H). rewrite (M_bind_eq _ _ _ _ _ Hf).
    apply M_bind_Ret in H as (nd & s3 & Hd & H). rewrite (M_bind_eq _ _ _ _ _ Hd).
    apply M_bind_Ret in H as (ks & s4 & Hk & H). rewrite (M_bind_eq _ _ _ _ _ Hk).
    destruct (list_find _ ks) as [[pos k]|]; [|inversion H; reflexivity].
    apply M_bind_Ret in H as (v & s5 & _ & H). inversion H.
Qed.

(** ** The counter of the tree *)

Lemma keeps_size_ret {A} (a : A) : keeps_size (mret a).
Proof. intros s a' s' H. inversion H. reflexivity. Qed.

Lemma keeps_size_bind {A B} (m : M A) (f : A → M B) :
  keeps_size m → (∀ a, keeps_size (f a)) → keeps_size (m ≫= f).
Proof.
  intros Hm Hf s b s' H. apply M_bind_Ret in H as (a & s1 & H1 & H2).
  apply Hm in H1. apply Hf in H2. congruence.
Qed.

Lemma keeps_size_lift {A} (r : res A) : keeps_size (lift r).
Proof. intros s a s' H. apply lift_Ret in H as [_ ->]. reflexivity. Qed.

Lemma keeps_size_deref p : keeps_size (deref p).
Proof. intros s a s' H. apply deref_Ret in H as [-> _]. reflexivity. Qed.

Lemma keeps_size_store p n : keeps_size (store p n).
Proof. intros s a s' H. destruct p; inversion H. reflexivity. Qed.

Lemma keeps_size_alloc n : keeps_size (alloc n).
Proof. intros s a s' H. inversion H. reflexivity. Qed.

Lemma keeps_size_register i a : keeps_size (register i a).
Proof. intros s u s' H. inversion H. reflexivity. Qed.

Lemma keeps_size_set_nextNodeID i : keeps_size (set_nextNodeID i).
Proof. intros s u s' H. inversion H. reflexivity. Qed.

Lemma keeps_size_set_root p : keeps_size (set_root p).
Proof. intros s u s' H. inversion H. reflexivity. Qed.

Lemma keeps_size_get_state : keeps_size get_state.
Proof. intros s u s' H. inversion H. reflexivity. Qed.

Lemma keeps_size_panic {A} p : keeps_size (@panic_with A p).
Proof. intros s u s' H. inversion H. Qed.

Lemma keeps_size_out_of_fuel {A} : keeps_size (@out_of_fuel A).
Proof. intros s u s' H. inversion H. Qed.

(** Decompose a computation into the steps above; [tac] closes the calls. *)
Ltac keeps_with tac :=
  repeat first
    [ apply keeps_size_ret | apply keeps_size_lift | apply keeps_size_deref
    | apply keeps_size_store | apply keeps_size_alloc | apply keeps_size_register
    | apply keeps_size_set_nextNodeID | apply keeps_size_set_root
    | apply keeps_size_get_state | apply keeps_size_panic | apply keeps_size_out_of_fuel
    | tac
    | match goal with
      | |- keeps_size (_ ≫= _) => apply keeps_size_bind; [|intros ?]
      | |- keeps_size (if ?b then _ else _) => destruct b
      | |- keeps_size (match ?x with _ => _ end) => destruct x
      end ].

Lemma keeps_size_getChild n i : keeps_size (getChild n i).
Proof. unfold getChild. keeps_with fail. Qed.

Lemma keeps_size_setChild n i c : keeps_size (setChild n i c).
Proof. unfold setChild. keeps_with fail. Qed.

Lemma keeps_size_children_from n i count : keeps_size (children_from n i count).
Proof.
  revert i. induction count as [|c IH]; intros i; simpl;
    keeps_with ltac:(first [apply keeps_size_getChild | apply IH]).
Qed.

Lemma keeps_size_children n : keeps_size (children n).
Proof. unfold children. keeps_with ltac:(apply keeps_size_children_from). Qed.

Lemma keeps_size_findLeaf fuel n key : keeps_size (findLeaf fuel n key).
Proof.
  revert n. induction fuel as [|fuel IH]; intros n; simpl;
    keeps_with ltac:(first [apply keeps_size_getChild | apply IH]).
Qed.

Lemma keeps_size_findParent fuel r target : keeps_size (findParent fuel r target).
Proof.
  revert r. induction fuel as [|fuel IH]; intros r; simpl; keeps_with fail.
  generalize 0. generalize (length (pointers a)).
  intros count. induction count as [|c IHc]; intros i;
    keeps_with ltac:(first [apply keeps_size_getChild | apply IH | apply IHc]).
Qed.

Lemma keeps_size_SplitAt n : keeps_size (SplitAt n).
Proof. unfold SplitAt. keeps_with fail. Qed.

Lemma keeps_size_insertInParent fuel o key n : keeps_size (insertInParent fuel o key n).
Proof.
  revert o key n. induction fuel as [|fuel IH]; intros o key n; cbn [insertInParent];
    keeps_with ltac:(first [ apply keeps_size_setChild | apply keeps_size_findParent
                           | apply keeps_size_SplitAt | apply IH ]).
Qed.

Lemma keeps_size_insertInLeaf leaf key value : keeps_size (insertInLeaf leaf key value).
Proof. unfold insertInLeaf. keeps_with fail. Qed.

Lemma keeps_size_rebalance fuel n : keeps_size (rebalance fuel n).
Proof.
  unfold rebalance, redistribute, merge.
  keeps_with ltac:(first [ apply keeps_size_findParent | apply keeps_size_children
                         | apply keeps_size_getChild ]).
Qed.

(** X4: the counter behind [Size] moves with the successful operations
    only, in any tree and through any split or rebalancing: an [Insert]
    that returns nil adds one, a [Delete] that returns nil subtracts one
    (in [int] arithmetic), and an operation that returns an error, or a
    [Get], leaves it as it was. *)
Theorem Size_counts_entries fuel key value s :
  (∀ s', Btree.Insert fuel key value s = Ret (None, s') → size s' = int (size s + 1))
  ∧ (∀ e s', Btree.Insert fuel key value s = Ret (Some e, s') → size s' = size s)
  ∧ (∀ s', Btree.Delete fuel key s = Ret (None, s') → size s' = int (size s - 1))
  ∧ (∀ e s', Btree.Delete fuel key s = Ret (Some e, s') → size s' = size s)
  ∧ (∀ r s', Btree.Get fuel key s = Ret (r, s') → size s' = size s).
Proof.
  split; [|split; [|split; [|split]]].
  - intros s' H. unfold Btree.Insert in H.
    destruct (decide _); [inversion H|]. destruct (decide _); [inversion H|].
    apply M_bind_Ret in H as (s0 & s1 & Hg & H). inversion Hg; subst s0 s1; clear Hg.
    apply M_bind_Ret in H as (leaf & s1 & Hf & H). apply keeps_size_findLeaf in Hf.
    apply M_bind_Ret in H as (err & s2 & Hl & H). apply keeps_size_insertInLeaf in Hl.
    destruct err; [inversion H|].
    apply M_bind_Ret in H as (lnd & s3 & Hd & H). apply keeps_size_deref in Hd.
    apply M_bind_Ret in H as (u & s4 & Hs & H).
    assert (size s4 = size s3) as Hs4.
    { destruct (IsFull lnd); [|inversion Hs; reflexivity].
      apply M_bind_Ret in Hs as ([nl pk] & s5 & Hsp & Hs).
      apply keeps_size_SplitAt in Hsp. apply keeps_size_insertInParent in Hs. congruence. }
    apply M_bind_Ret in H as (s5 & s6 & Hg & H). inversion Hg; subst s5 s6; clear Hg.
    apply M_bind_Ret in H as (u' & s7 & Hset & H). inversion Hset; subst. inversion H; subst.
    simpl. congruence.
  - intros e s' H. unfold Btree.Insert in H.
    destruct (decide _); [inversion H; reflexivity|].
    destruct (decide _); [inversion H; reflexivity|].
    apply M_bind_Ret in H as (s0 & s1 & Hg & H). inversion Hg; subst s0 s1; clear Hg.
    apply M_bind_Ret in H as (leaf & s1 & Hf & H). apply keeps_size_findLeaf in Hf.
    apply M_bind_Ret in H as (err & s2 & Hl & H). apply keeps_size_insertInLeaf in Hl.
    destruct err; [inversion H; subst; congruence|].
    apply M_bind_Ret in H as (lnd & s3 & _ & H).
    apply M_bind_Ret in H as (u & s4 & _ & H).
    apply M_bind_Ret in H as (s5 & s6 & _ & H).
    apply M_bind_Ret in H as (u' & s7 & _ & H). inversion H.
  - intros s' H. unfold Btree.Delete in H.
    apply M_bind_Ret in H as (s0 & s1 & Hg & H). inversion Hg; subst s0 s1; clear Hg.
    apply M_bind_Ret in H as (leaf & s1 & Hf & H). apply keeps_size_findLeaf in Hf.
    apply M_bind_Ret in H as (nd & s2 & Hd & H). apply keeps_size_deref in Hd.
    apply M_bind_Ret in H as (ks & s3 & Hk & H). apply keeps_size_lift in Hk.
    destruct (list_find _ ks) as [[pos k]|]; [|inversion H].
    apply M_bind_Ret in H as (nd' & s4 & Hr & H). apply keeps_size_lift in Hr.
    apply M_bind_Ret in H as (u & s5 & Hst & H). apply keeps_size_store in Hst.
    apply M_bind_Ret in H as (s6 & s7 & Hg & H). inversion Hg; subst s6 s7; clear Hg.
    apply M_bind_Ret in H as (u1 & s8 & Hrb & H).
    assert (size s8 = size s5) as Hs8.
    { destruct (_ && _); [apply keeps_size_rebalance in Hrb; exact Hrb | inversion Hrb; reflexivity]. }
    apply M_bind_Ret in H as (s9 & s10 & Hg & H). inversion Hg; subst s9 s10; clear Hg.
    apply M_bind_Ret in H as (u' & s11 & Hset & H). inversion Hset; subst. inversion H; subst.
    simpl. congruence.
  - intros e s' H. unfold Btree.Delete in H.
    apply M_bind_Ret in H as (s0 & s1 & Hg & H). inversion Hg; subst s0 s1; clear Hg.
    apply M_bind_Ret in H as (leaf & s1 & Hf & H). apply keeps_size_findLeaf in Hf.
    apply M_bind_Ret in H as (nd & s2 & Hd & H). apply keeps_size_deref in Hd.
    apply M_bind_Ret in H as (ks & s3 & Hk & H). apply keeps_size_lift in Hk.
    destruct (list_find _ ks) as [[pos k]|]; [|inversion H; subst; congruence].
    apply M_bind_Ret in H as (nd' & s4 & _ & H).
    apply M_bind_Ret in H as (u & s5 & _ & H).
    apply M_bind_Ret in H as (s6 & s7 & _ & H).
    apply M_bind_Ret in H as (u1 & s8 & _ & H).
    apply M_bind_Ret in H as (s9 & s10 & _ & H).
    apply M_bind_Ret in H as (u' & s11 & _ & H). inversion H.
  - intros r s' H. unfold Btree.Get in H.
    apply M_bind_Ret in H as (s0 & s1 & Hg & H). inversion Hg; subst s0 s1; clear Hg.
    apply M_bind_Ret in H as (leaf & s1 & Hf & H). apply keeps_size_findLeaf in Hf.
    apply M_bind_Ret in H as (nd & s2 & Hd & H). apply keeps_size_deref in Hd.
    apply M_bind_Ret in H as (ks & s3 & Hk & H). apply keeps_size_lift in Hk.
    destruct (list_find _ ks) as [[pos k]|].
    + apply M_bind_Ret in H as (v & s4 & Hv & H). apply keeps_size_lift in Hv.
      inversion H; subst. congruence.
    + inversion H; subst. congruence.
Qed.

Lemma Size_counts_entries_witness :
  ∃ s', Insert 10 key_a key_b new_tree = Ret (None, s')
        ∧ size s' = int (size new_tree + 1).
Proof.
  eexists. split.
  - vm_compute. reflexivity.
  - apply (proj1 (Size_counts_entries 10 key_a key_b new_tree)).
    vm_compute. reflexivity.
Defined.

(** ** The database file *)

Lemma initialize_prefix f g :
  (8 ≤ length f)%nat → take 8 f = take 8 g →
  (initialize f).2 = (initialize g).2.
Proof.
  intros Hlen Heq.
  assert (8 ≤ length g)%nat as Hg.
  { apply (f_equal length) in Heq. rewrite !length_take in Heq. lia. }
  unfold initialize.
  destruct (decide (len f = 0)) as [E|_]; [unfold len in E; lia|].
  destruct (decide (len g = 0)) as [E|_]; [unfold len in E; lia|].
  do 8 (destruct f as [|? f]; [simpl in Hlen; lia|]).
  do 8 (destruct g as [|? g]; [simpl in Hg; lia|]).
  simpl in Heq. inversion Heq; subst.
  repeat (destruct (decide _)); reflexivity.
Qed.

Lemma write_at_lookup_lt f off bs i :
  (i < off)%nat → (i < length f)%nat → write_at f off bs !! i = f !! i.
Proof.
  intros Hi Hf. unfold write_at.
  rewrite lookup_app_l by (rewrite length_take, length_app, length_replicate; lia).
  rewrite lookup_take_lt by lia. apply lookup_app_l. exact Hf.
Qed.

Lemma write_at_lookup_mid f off bs i :
  (i < length bs)%nat → write_at f off bs !! (off + i)%nat = bs !! i.
Proof.
  intros Hi. unfold write_at.
  rewrite lookup_app_r by (rewrite length_take, length_app, length_replicate; lia).
  rewrite length_take, length_app, length_replicate.
  replace (off + i - off `min` (length f + (off - length f)))%nat with i by lia.
  apply lookup_app_l. exact Hi.
Qed.

Lemma write_at_length f off bs : (length f ≤ length (write_at f off bs))%nat.
Proof.
  unfold write_at.
  rewrite !length_app, length_take, length_drop, length_app, length_replicate. lia.
Qed.

Lemma write_at_length_ge f off bs : (off + length bs ≤ length (write_at f off bs))%nat.
Proof.
  unfold write_at.
  rewrite !length_app, length_take, length_drop, length_app, length_replicate. lia.
Qed.

Lemma take_eq_lookup {A} (l k : list A) n :
  (n ≤ length l)%nat → (n ≤ length k)%nat →
  (∀ i, (i < n)%nat → l !! i = k !! i) → take n l = take n k.
Proof.
  intros Hl Hk H. apply list_eq. intros i.
  destruct (decide (i < n)%nat).
  - rewrite !lookup_take_lt by lia. auto.
  - rewrite !lookup_take_ge by lia. reflexivity.
Qed.

(** [flush] leaves the first eight bytes of the file alone and writes the
    size and the height of the tree after them. *)
Lemma flush_file fuel e err e' :
  (8 ≤ length (file e))%nat →
  flush fuel e = Ret (err, e') →
  err = None
  ∧ take 8 (file e') = take 8 (file e)
  ∧ ∃ h, Btree.Height fuel (btree e) = Ret (h, btree e')
         ∧ take 8 (drop 8 (file e'))
           = put32 (u32 (Btree.size (btree e'))) ++ put32 (u32 h).
Proof.
  intros Hlen. unfold flush. intros H.
  apply res_bind_Ret in H as ([h t] & Hh & H). cbv zeta in H.
  set (hdr := put32 (u32 (Btree.size t)) ++ put32 (u32 h)) in *.
  set (f1 := write_at (file e) 8 hdr) in *.
  pose proof (write_at_length (file e) 8 hdr) as Hl1. fold f1 in Hl1.
  pose proof (write_at_length_ge (file e) 8 hdr) as Hl1'. fold f1 in Hl1'.
  change (length hdr) with 8%nat in Hl1'.
  assert (H11 : ∀ i, (i < 8)%nat → f1 !! i = file e !! i).
  { intros i Hi. apply write_at_lookup_lt; lia. }
  assert (H1h : ∀ i, (i < 8)%nat → f1 !! (8 + i)%nat = hdr !! i).
  { intros i Hi. apply write_at_lookup_mid. exact Hi. }
  set (f2 := if decide (Btree.size t > 0)
             then write_at f1 16 (serializeNode t) else f1) in *.
  assert (Hl2 : (16 ≤ length f2)%nat).
  { unfold f2. destruct (decide _); [|lia].
    pose proof (write_at_length f1 16 (serializeNode t)). lia. }
  assert (H12 : ∀ i, (i < 16)%nat → f2 !! i = f1 !! i).
  { intros i Hi. unfold f2. destruct (decide _); [|reflexivity].
    apply write_at_lookup_lt; lia. }
  assert (Hhdr : hdr = put32 (u32 (Btree.size t)) ++ put32 (u32 h)) by reflexivity.
  assert (Hlh : length hdr = 8%nat) by reflexivity.
  clearbody f2 f1 hdr.
  unfold mret, res_ret in H. injection H as Herr He'. subst err e'.
  cbn [file btree].
  split; [reflexivity|]. split.
  - apply take_eq_lookup; [lia | lia |]. intros i Hi.
    rewrite H12 by lia. apply H11. exact Hi.
  - exists h. split; [exact Hh|]. rewrite <- Hhdr.
    apply list_eq. intros i. destruct (decide (i < 8)%nat) as [Hi|Hi].
    + rewrite lookup_take_lt by lia. rewrite lookup_drop. rewrite H12 by lia.
      apply H1h. exact Hi.
    + rewrite lookup_take_ge by lia. symmetry. apply lookup_ge_None. lia.
Qed.

Lemma engine_keeps_file_header fuel e :
  (8 ≤ length (file e))%nat →
  (∀ key value err e', EnginePut fuel key value e = Ret (err, e') →
      take 8 (file e') = take 8 (file e)
      ∧ (initialize (file e')).2 = (initialize (file e)).2)
  ∧ (∀ key err e', EngineDelete fuel key e = Ret (err, e') →
      take 8 (file e') = take 8 (file e)
      ∧ (initialize (file e')).2 = (initialize (file e)).2).
Proof.
  intros Hlen.
  assert (Hboth : ∀ (err : option error) t err' e',
            match err with
            | Some _ => mret (err, {| file := file e; btree := t |})
            | None => flush fuel {| file := file e; btree := t |}
            end = Ret (err', e') →
            take 8 (file e') = take 8 (file e)
            ∧ (initialize (file e')).2 = (initialize (file e)).2).
  { intros err t err' e' H. destruct err.
    - inversion H; subst. auto.
    - apply flush_file in H as (_ & Ht & _); [|exact Hlen]. simpl in Ht.
      split; [exact Ht|]. symmetry. apply initialize_prefix; [exact Hlen | congruence]. }
  split.
  - intros key value err e' H. unfold EnginePut in H.
    apply res_bind_Ret in H as ([er t] & _ & H). eapply Hboth; eauto.
  - intros key err e' H. unfold EngineDelete in H.
    apply res_bind_Ret in H as ([er t] & _ & H). eapply Hboth; eauto.
Qed.

(** X13: after a [Put] that returns nil, the eight bytes of the file that
    follow the header are the size and the height of the tree, each as a
    big-endian [uint32]. *)
Theorem Put_records_size_and_height fuel key value e e' :
  (8 ≤ length (file e))%nat →
  EnginePut fuel key value e = Ret (None, e') →
  ∃ t h, Btree.Insert fuel key value (btree e) = Ret (None, t)
         ∧ Btree.Height fuel t = Ret (h, btree e')
         ∧ take 8 (drop 8 (file e'))
           = put32 (u32 (Btree.size (btree e'))) ++ put32 (u32 h).
Proof.
  intros Hlen H. unfold EnginePut in H.
  apply res_bind_Ret in H as ([er t] & HI & H). destruct er as [er|].
  { inversion H. }
  apply flush_file in H as (_ & _ & h & Hh & Hfile); [|exact Hlen].
  exists t, h. auto.
Qed.

Lemma Put_records_size_and_height_witness :
  ∃ e', EnginePut 10 key_k val_old new_engine = Ret (None, e')
        ∧ ∃ t h, Btree.Insert 10 key_k val_old (btree new_engine) = Ret (None, t)
                 ∧ Btree.Height 10 t = Ret (h, btree e')
                 ∧ take 8 (drop 8 (file e'))
                   = put32 (u32 (Btree.size (btree e'))) ++ put32 (u32 h).
Proof.
  eexists. split.
  - vm_compute. reflexivity.
  - apply (Put_records_size_and_height 10 key_k val_old new_engine).
    + vm_compute. lia.
    + vm_compute. reflexivity.
Defined.

(** X12: the file of an engine created by [NewStorageEngine] stays a valid
    database file through every sequence of [Put] and [Delete], whether
    they succeed or not: [initialize], run again on it, accepts the header
    and leaves the file as it is. *)
Theorem database_file_stays_valid fuel ops e0 e' :
  NewStorageEngine = Ret e0 →
  engine_run fuel ops e0 = Ret e' →
  initialize (file e') = (file e', None).
Proof.
  intros H0 Hrun.
  assert (Hinv : (8 ≤ length (file e0))%nat
                 ∧ take 8 (file e0) = put32 MAGIC ++ put32 VERSION).
  { unfold NewStorageEngine in H0.
    apply res_bind_Ret in H0 as ([u t] & _ & H0). inversion H0; subst.
    split; [simpl; lia | reflexivity]. }
  clear H0. revert e0 Hinv Hrun.
  induction ops as [|o ops IH]; intros e0 [Hlen Hhdr] Hrun.
  - inversion Hrun; subst.
    assert (Hi : (initialize (file e')).2 = (initialize (put32 MAGIC ++ put32 VERSION)).2).
    { apply initialize_prefix; [exact Hlen | rewrite Hhdr; reflexivity]. }
    assert (Hf : (initialize (file e')).1 = file e').
    { unfold initialize. destruct (decide _) as [E|_]; [unfold len in E; lia|].
      destruct (file e') as [|? [|? [|? [|? [|? [|? [|? [|? ?]]]]]]]]; try reflexivity.
      repeat (destruct (decide _)); reflexivity. }
    destruct (initialize (file e')) as [f r]. simpl in *. subst. 
    vm_compute. reflexivity.
  - assert (Hstep : ∀ err e1,
              (EnginePut fuel (match o with EnginePutOp k _ => k | EngineDeleteOp k => k end)
                              (match o with EnginePutOp _ v => v | _ => [] end) e0
                 = Ret (err, e1)
               ∨ EngineDelete fuel (match o with EnginePutOp k _ => k | EngineDeleteOp k => k end) e0
                 = Ret (err, e1)) →
              (8 ≤ length (file e1))%nat
              ∧ take 8 (file e1) = put32 MAGIC ++ put32 VERSION).
    { intros err e1 H.
      destruct (engine_keeps_file_header fuel e0 Hlen) as [HP HD].
      assert (take 8 (file e1) = take 8 (file e0)) as Ht.
      { destruct H as [H|H]; [apply HP in H | apply HD in H]; tauto. }
      split; [|congruence].
      apply (f_equal length) in Ht. rewrite !length_take in Ht. lia. }
    destruct o as [k v|k]; cbn [engine_run] in Hrun;
      apply res_bind_Ret in Hrun as ([err e1] & Hop & Hrun);
      apply (IH e1); auto; eapply Hstep; eauto.
Qed.

Lemma database_file_stays_valid_witness :
  ∃ e', engine_run 10 small_engine_ops new_engine = Ret e'
        ∧ initialize (file e') = (file e', None).
Proof.
  eexists. split.
  - vm_compute. reflexivity.
  - apply (database_file_stays_valid 10 small_engine_ops new_engine).
    + vm_compute. reflexivity.
    + vm_compute. reflexivity.
Defined.

(** ** More on the Raft handlers *)

Section Raft_properties.

Context {St : Type} `{!Storage St}.

(** X14: a replica votes for at most one candidate in a term: once
    [RequestVote] has granted the vote to a candidate (whose id is not
    empty), a request from another candidate with the same or a smaller
    term is refused. *)
Theorem RequestVote_one_vote_per_term (n : RaftNode St) req1 req2 now1 now2 :
  CandidateID req1 ≠ "" →
  VoteGranted (RequestVote n req1 now1).2 = true →
  rvTerm req2 ≤ rvTerm req1 →
  CandidateID req2 ≠ CandidateID req1 →
  VoteGranted (RequestVote (RequestVote n req1 now1).1 req2 now2).2 = false.
Proof.
  intros Hc1 Hgrant Hterm Hc2.
  assert (Hn1 : votedFor (RequestVote n req1 now1).1 = CandidateID req1
                ∧ currentTerm (RequestVote n req1 now1).1 = rvTerm req1).
  { revert Hgrant. unfold RequestVote.
    destruct (decide (rvTerm req1 < currentTerm n)); [discriminate|].
    destruct (decide (rvTerm req1 > currentTerm n));
      match goal with |- context [if ?b then _ else _] => destruct b end;
      simpl; try discriminate; intros _; split; try reflexivity; lia. }
  destruct Hn1 as [Hv Ht].
  set (n1 := (RequestVote n req1 now1).1) in *. clearbody n1.
  unfold RequestVote.
  destruct (decide (rvTerm req2 < currentTerm n1)); [reflexivity|].
  destruct (decide (rvTerm req2 > currentTerm n1)); [lia|].
  rewrite Hv.
  rewrite (bool_decide_eq_false_2 (CandidateID req1 = "")) by assumption.
  rewrite (bool_decide_eq_false_2 (CandidateID req1 = CandidateID req2)) by congruence.
  reflexivity.
Qed.

(** X15: the term in the response of [RequestVote] and of [AppendEntries]
    is the receiver's [currentTerm] after the call, which is the larger of
    the request's term and the receiver's term before it. *)
Theorem response_carries_current_term (n : RaftNode St) :
  (∀ req now,
      rvrTerm (RequestVote n req now).2 = currentTerm (RequestVote n req now).1
      ∧ currentTerm (RequestVote n req now).1 = Z.max (rvTerm req) (currentTerm n))
  ∧ (∀ req now n' resp,
      AppendEntries n req now = Ret (n', resp) →
      aerTerm resp = currentTerm n'
      ∧ currentTerm n' = Z.max (aeTerm req) (currentTerm n)).
Proof.
  split.
  - intros req now. unfold RequestVote.
    destruct (decide (rvTerm req < currentTerm n)); simpl; [lia|].
    destruct (decide (rvTerm req > currentTerm n)); simpl;
      match goal with |- context [if ?b then _ else _] => destruct b end; simpl; lia.
  - intros req now n' resp. unfold AppendEntries.
    destruct (decide (aeTerm req < currentTerm n)).
    { intros H; inversion H; subst; simpl. lia. }
    set (n1 := set_lastHeartbeat _ now).
    assert (Hct : currentTerm n1 = Z.max (aeTerm req) (currentTerm n)).
    { unfold n1. destruct (decide (aeTerm req > currentTerm n)); simpl; lia. }
    clearbody n1.
    destruct (decide (len (Entries req) = 0)).
    { intros H; inversion H; subst; simpl. auto. }
    intros H. apply res_bind_Ret in H as (ok & _ & H). destruct (negb ok).
    { inversion H; subst; simpl; auto. }
    apply res_bind_Ret in H as (c & _ & H).
    apply res_bind_Ret in H as (lg & _ & H).
    apply res_bind_Ret in H as (napp & Happly & H). inversion H; subst. simpl.
    apply applyCommittedEntries_currentTerm in Happly. rewrite Happly.
    split; [reflexivity|].
    repeat (match goal with |- context [if ?b then _ else _] => destruct b end; simpl);
      exact Hct.
Qed.



Lemma applyLoop_log count (n n' : RaftNode St) :
  applyLoop count n = Ret n' →
  log n' = log n ∧ state n' = state n ∧ votedFor n' = votedFor n.
Proof.
  revert n. induction count as [|c IH]; intros n; simpl.
  - intros H; inversion H; auto.
  - destruct (decide (lastApplied n < commitIndex n)).
    + intros H. apply res_bind_Ret in H as (n1 & Hn & H).
      apply IH in H. unfold applyNext in Hn.
      apply res_bind_Ret in Hn as (entry & _ & Hn).
      apply res_bind_Ret in Hn as (st & _ & Hn). inversion Hn; subst n1; clear Hn.
      simpl in H. exact H.
    + intros H; inversion H; auto.
Qed.

Lemma appendAll_renumber lg es : appendAll lg es = lg ++ renumber (len lg) es.
Proof.
  revert lg. induction es as [|e es IH]; intros lg; simpl.
  - rewrite app_nil_r. reflexivity.
  - rewrite IH. rewrite <- app_assoc. simpl. f_equal. unfold renumber. simpl.
    f_equal; [f_equal; f_equal; lia|].
    apply imap_ext. intros i x _. simpl. f_equal. f_equal.
    unfold len. rewrite length_app. simpl. lia.
Qed.

Lemma AppendEntries_log_cases (n : RaftNode St) req now n' resp :
  AppendEntries n req now = Ret (n', resp) →
  (log n' = log n ∧ (Success resp = true → Entries req = []))
  ∨ (Success resp = true
     ∧ ∃ pre, pre `prefix_of` log n
              ∧ log n' = pre ++ renumber (len pre) (Entries req)).
Proof.
  unfold AppendEntries.
  destruct (decide (aeTerm req < currentTerm n)).
  { intros H; inversion H; subst. left. split; [reflexivity | discriminate]. }
  set (n1 := set_lastHeartbeat _ now).
  assert (Hlog : log n1 = log n).
  { unfold n1. destruct (decide (aeTerm req > currentTerm n)); reflexivity. }
  clearbody n1.
  destruct (decide (len (Entries req) = 0)) as [E0|_].
  { intros H; inversion H; subst. left. split; [exact Hlog|]. intros _.
    destruct (Entries req); [reflexivity | unfold len in E0; simpl in E0; lia]. }
  intros H. apply res_bind_Ret in H as (ok & _ & H). destruct (negb ok).
  { inversion H; subst. left. split; [exact Hlog | discriminate]. }
  apply res_bind_Ret in H as (c & _ & H).
  apply res_bind_Ret in H as (lg & Hlg & H).
  apply res_bind_Ret in H as (napp & Happly & H). inversion H; subst.
  right. split; [reflexivity|].
  apply applyLoop_log in Happly as (Hl & _ & _). rewrite Hl.
  exists lg. split.
  - rewrite <- Hlog. destruct (decide (c ≠ -1)).
    + unfold slice_to, slice in Hlg. destruct (decide _); [|discriminate].
      inversion Hlg; subst. rewrite drop_0. apply prefix_take.
    + inversion Hlg; subst. reflexivity.
  - rewrite <- appendAll_renumber.
    repeat (match goal with |- context [if ?b then _ else _] => destruct b end; simpl);
      reflexivity.
Qed.

(** X18: a successful [AppendEntries] that carries entries leaves a log
    made of a prefix of the old log followed by all the entries of the
    request, in order, each with its term and command and with [Index] set
    to its position in the log. *)
Theorem AppendEntries_appends (n : RaftNode St) req now n' resp :
  Entries req ≠ [] →
  AppendEntries n req now = Ret (n', resp) →
  Success resp = true →
  ∃ pre, pre `prefix_of` log n
         ∧ log n' = pre ++ renumber (len pre) (Entries req).
Proof.
  intros Hne H Hs. apply AppendEntries_log_cases in H as [[_ He]|[_ H]]; [|exact H].
  exfalso. auto.
Qed.

Lemma log_indexed_prefix lg pre : pre `prefix_of` lg → log_indexed lg → log_indexed pre.
Proof.
  intros [k ->] H i e Hi. apply (H i e). apply lookup_app_l_Some. exact Hi.
Qed.

Lemma log_indexed_renumber pre es :
  len pre + len es ≤ MaxInt →
  log_indexed pre → log_indexed (pre ++ renumber (len pre) es).
Proof.
  intros Hlen H i e Hi. apply lookup_app_Some in Hi as [Hi|[Hge Hi]]; [auto|].
  unfold renumber in Hi. rewrite list_lookup_imap in Hi.
  destruct (es !! (i - length pre)%nat) as [x|] eqn:E; [|discriminate].
  simpl in Hi. inversion Hi; subst; simpl.
  apply lookup_lt_Some in E.
  rewrite int_id by (unfold MaxInt, len in *; lia). unfold len. lia.
Qed.

(** X19: the [Index] of every log entry is its position in the log, counted
    from one: the invariant is kept by the leader appending a client
    request and by [AppendEntries] on a follower, as long as the length of
    the log fits an [int]. *)
Theorem log_entries_numbered_by_position (n : RaftNode St) :
  log_indexed (log n) →
  (∀ operation key value, len (log n) < MaxInt →
      log_indexed (log (handleClientRequest_append n operation key value).1))
  ∧ (∀ req now n' resp, len (log n) + len (Entries req) ≤ MaxInt →
      AppendEntries n req now = Ret (n', resp) → log_indexed (log n')).
Proof.
  intros Hidx. split.
  - intros operation key value Hlen. unfold handleClientRequest_append.
    destruct (decide (state n ≠ Leader)); [exact Hidx|].
    destruct (client_command operation key value) as [command|]; [|exact Hidx].
    simpl. intros i e Hi. apply lookup_app_Some in Hi as [Hi|[Hge Hi]]; [auto|].
    destruct (i - length (log n))%nat eqn:E; [|discriminate].
    inversion Hi; subst; simpl.
    rewrite int_id by (unfold MaxInt, len in *; lia). unfold len. lia.
  - intros req now n' resp Hlen H.
    apply AppendEntries_log_cases in H as [[-> _]|[_ (pre & Hpre & ->)]]; [exact Hidx|].
    apply log_indexed_renumber.
    + apply prefix_length in Hpre. unfold len in *. lia.
    + eapply log_indexed_prefix; eauto.
Qed.

(** X16: a request or a response with a term above [currentTerm] makes the
    replica a follower of that term: in [RequestVote] and [AppendEntries]
    the term is adopted and the role becomes Follower; in the goroutines
    of [startElection], [sendHeartbeats] and [replicateLogEntry] the
    response is integrated by adopting the term, clearing [votedFor] and
    nothing else. *)
Theorem higher_term_makes_follower (n : RaftNode St) :
  (∀ req now, rvTerm req > currentTerm n →
      currentTerm (RequestVote n req now).1 = rvTerm req
      ∧ state (RequestVote n req now).1 = Follower)
  ∧ (∀ req now n' resp, aeTerm req > currentTerm n →
      AppendEntries n req now = Ret (n', resp) →
      currentTerm n' = aeTerm req ∧ state n' = Follower)
  ∧ (∀ resp votes total now, rvrTerm resp > currentTerm n →
      startElection_response n resp votes total now = (adoptTerm n (rvrTerm resp), votes))
  ∧ (∀ resp, aerTerm resp > currentTerm n →
      sendHeartbeats_response n resp = adoptTerm n (aerTerm resp))
  ∧ (∀ resp peer logIndex cnt total, aerTerm resp > currentTerm n →
      replicateLogEntry_response n resp peer logIndex cnt total
      = Ret (adoptTerm n (aerTerm resp), cnt)).
Proof.
  split; [|split; [|split; [|split]]].
  - intros req now Hgt. unfold RequestVote.
    destruct (decide (rvTerm req < currentTerm n)); [lia|].
    destruct (decide (rvTerm req > currentTerm n)); [|lia].
    match goal with |- context [if ?b then _ else _] => destruct b end; simpl; auto.
  - intros req now n' resp Hgt. unfold AppendEntries.
    destruct (decide (aeTerm req < currentTerm n)); [lia|].
    destruct (decide (aeTerm req > currentTerm n)); [|lia].
    set (n1 := set_lastHeartbeat _ now).
    assert (Hct : currentTerm n1 = aeTerm req ∧ state n1 = Follower) by (split; reflexivity).
    clearbody n1.
    destruct (decide (len (Entries req) = 0)).
    { intros H; inversion H; subst; exact Hct. }
    intros H. apply res_bind_Ret in H as (ok & _ & H). destruct (negb ok).
    { inversion H; subst; exact Hct. }
    apply res_bind_Ret in H as (c & _ & H).
    apply res_bind_Ret in H as (lg & _ & H).
    apply res_bind_Ret in H as (napp & Happly & H). inversion H; subst.
    pose proof (applyCommittedEntries_currentTerm _ _ Happly) as Ht.
    apply applyLoop_log in Happly as (_ & Hs & _). rewrite Ht, Hs.
    repeat (match goal with |- context [if ?b then _ else _] => destruct b end; simpl);
      exact Hct.
  - intros resp votes total now Hgt. unfold startElection_response.
    destruct (decide _); [reflexivity | lia].
  - intros resp Hgt. unfold sendHeartbeats_response.
    destruct (decide _); [reflexivity | lia].
  - intros resp peer logIndex cnt total Hgt. unfold replicateLogEntry_response.
    destruct (decide _); [reflexivity | lia].
Qed.


(** X27: integrating a vote response makes the replica a leader only if it
    already was one, or if the vote was granted, the response's term is
    not above [currentTerm], and the votes counted with this one exceed
    half of the cluster. *)
Theorem leader_needs_majority (n : RaftNode St) resp votes total now :
  state (startElection_response n resp votes total now).1 = Leader →
  state n = Leader
  ∨ (VoteGranted resp = true ∧ rvrTerm resp ≤ currentTerm n
     ∧ (startElection_response n resp votes total now).2 = int (votes + 1)
     ∧ int (votes + 1) > total `quot` 2).
Proof.
  unfold startElection_response.
  destruct (decide (rvrTerm resp > currentTerm n)); simpl; [discriminate|].
  destruct (VoteGranted resp); [|auto].
  destruct (decide (int (votes + 1) > total `quot` 2)); simpl; [|auto].
  intros _. right. repeat split; auto; lia.
Qed.

Lemma bytes_Split_head s : ∃ ps, bytes_Split s " "%byte = before_space s :: ps.
Proof.
  induction s as [|c s [ps IH]]; simpl; [eauto|].
  destruct (decide (c = " "%byte)); [eauto|]. rewrite IH. eauto.
Qed.

Lemma bytes_Split_app key rest :
  " "%byte ∉ key →
  bytes_Split (key ++ " "%byte :: rest) " "%byte = key :: bytes_Split rest " "%byte.
Proof.
  induction key as [|c key IH]; intros Hno; simpl.
  - destruct (decide (" "%byte = " "%byte)); [reflexivity | congruence].
  - destruct (decide (c = " "%byte)) as [->|_].
    + exfalso. apply Hno. left.
    + rewrite IH; [reflexivity|]. intros Hin. apply Hno. right. exact Hin.
Qed.

Lemma before_space_id s : " "%byte ∉ s → before_space s = s.
Proof.
  induction s as [|c s IH]; intros Hno; simpl; [reflexivity|].
  destruct (decide (c = " "%byte)) as [->|_].
  - exfalso. apply Hno. left.
  - rewrite IH; [reflexivity|]. intros Hin. apply Hno. right. exact Hin.
Qed.

Lemma slice_to_4 (op rest : list byte) : len op = 4 → slice_to (op ++ rest) 4 = Ret op.
Proof. intros <-. apply slice_to_app. Qed.

Lemma slice_from_4 (op rest : list byte) : len op = 4 → slice_from (op ++ rest) 4 = Ret rest.
Proof. intros <-. apply slice_from_app. Qed.

(** X20: the command [handleClientRequest] builds for a put, with a key
    that is not empty and holds no space, is applied by the apply loop of
    the handlers as [Put] of that key and that value (whose error is
    dropped). *)
Theorem client_put_is_applied_as_Put key value (st : St) :
  key ≠ [] → " "%byte ∉ key → len key < MaxInt →
  ∃ c, client_command "put" key value = Some c
       ∧ applyCommand c st = Put key value st ≫= λ '(_, st'), mret st'.
Proof.
  intros Hne Hsp Hk. eexists. split; [reflexivity|].
  rewrite <- (applyCommand_PUT key value st Hne Hsp Hk).
  unfold put_command. rewrite <- app_assoc. reflexivity.
Qed.

(** X21: the command [handleClientRequest] builds for a delete is applied
    by the apply loop of the handlers as [Delete] of that key, for every
    key. *)
Theorem client_delete_is_applied_as_Delete key value (st : St) :
  ∃ c, client_command "delete" key value = Some c
       ∧ applyCommand c st = Delete key st ≫= λ '(_, st'), mret st'.
Proof.
  eexists. split; [reflexivity|]. unfold applyCommand.
  rewrite (res_bind_eq _ DEL_) by (apply slice_to_4; reflexivity).
  destruct (decide (DEL_ = PUT_)) as [E|_]; [discriminate E|].
  destruct (decide (DEL_ = DEL_)) as [_|]; [|congruence].
  rewrite (res_bind_eq _ key) by (apply slice_from_4; reflexivity).
  reflexivity.
Qed.

(** X22: the apply loop leaves the storage untouched for a PUT command
    without a space after the key, for a PUT command with an empty key, and
    for a command of at least four bytes that starts with neither [PUT ]
    nor [DEL ]. *)
Theorem applyCommand_ignores_malformed (st : St) :
  (∀ kv, " "%byte ∉ kv → applyCommand (PUT_ ++ kv) st = Ret st)
  ∧ (∀ rest, applyCommand (PUT_ ++ " "%byte :: rest) st = Ret st)
  ∧ (∀ op rest, len op = 4 → op ≠ PUT_ → op ≠ DEL_ →
        applyCommand (op ++ rest) st = Ret st).
Proof.
  split; [|split].
  - intros kv Hno. unfold applyCommand.
    rewrite (res_bind_eq _ PUT_) by (apply slice_to_4; reflexivity).
    destruct (decide (PUT_ = PUT_)) as [_|]; [|congruence].
    rewrite (res_bind_eq _ kv) by (apply slice_from_4; reflexivity).
    assert (Hsp : ∀ i, spaceIndex kv i = -1).
    { clear -Hno. induction kv as [|c kv IH]; intros i; simpl; [reflexivity|].
      destruct (decide (c = " "%byte)) as [->|_].
      - exfalso. apply Hno. left.
      - apply IH. intros Hin. apply Hno. right. exact Hin. }
    rewrite Hsp. destruct (decide (-1 > 0)); [lia | reflexivity].
  - intros rest. unfold applyCommand.
    rewrite (res_bind_eq _ PUT_) by (apply slice_to_4; reflexivity).
    destruct (decide (PUT_ = PUT_)) as [_|]; [|congruence].
    rewrite (res_bind_eq _ (" "%byte :: rest)) by (apply slice_from_4; reflexivity).
    simpl. destruct (decide (" "%byte = " "%byte)); [|congruence].
    destruct (decide (0 > 0)); [lia | reflexivity].
  - intros op rest Hlen Hp Hd. unfold applyCommand.
    rewrite (res_bind_eq _ op) by (apply slice_to_4; assumption).
    destruct (decide (op = PUT_)); [contradiction|].
    destruct (decide (op = DEL_)); [contradiction|]. reflexivity.
Qed.

(** X23: [applyEntry], the leader's own apply path, stores a put under its
    key (a key without a space) with the part of the value that precedes
    its first space. *)
Theorem applyEntry_put_stores_first_word t i key value (st : St) :
  " "%byte ∉ key →
  applyEntry {| Term := t; Index := i; Command := put_command key value |} st
  = Put key (before_space value) st ≫= λ '(_, st'), mret st'.
Proof.
  intros Hsp. unfold applyEntry, put_command. cbn [Command].
  destruct (decide (len (PUT_ ++ key ++ " "%byte :: value) < 4)) as [Hlt|_].
  { unfold len in Hlt. rewrite length_app in Hlt. simpl in Hlt. lia. }
  rewrite (res_bind_eq _ PUT_) by (apply slice_to_4; reflexivity).
  destruct (decide (PUT_ = PUT_)) as [_|]; [|congruence].
  rewrite (res_bind_eq _ (key ++ " "%byte :: value)) by (apply slice_from_4; reflexivity).
  rewrite bytes_Split_app by assumption.
  destruct (bytes_Split_head value) as [ps ->].
  destruct (decide _) as [_|Hn]; [|unfold len in Hn; simpl in Hn; lia].
  reflexivity.
Qed.

(** X24: for a put whose key (not empty) and value hold no space, the
    leader's [applyEntry] and the followers' apply loop do the same to the
    storage. *)
Theorem apply_paths_agree t i key value (st : St) :
  key ≠ [] → " "%byte ∉ key → " "%byte ∉ value → len key < MaxInt →
  applyEntry {| Term := t; Index := i; Command := put_command key value |} st
  = applyCommand (put_command key value) st.
Proof.
  intros Hne Hk Hv Hlen. rewrite applyCommand_PUT by assumption.
  unfold applyEntry, put_command. cbn [Command].
  destruct (decide (len (PUT_ ++ key ++ " "%byte :: value) < 4)) as [Hlt|_].
  { unfold len in Hlt. rewrite length_app in Hlt. simpl in Hlt. lia. }
  rewrite (res_bind_eq _ PUT_) by (apply slice_to_4; reflexivity).
  destruct (decide (PUT_ = PUT_)) as [_|]; [|congruence].
  rewrite (res_bind_eq _ (key ++ " "%byte :: value)) by (apply slice_from_4; reflexivity).
  rewrite bytes_Split_app by assumption.
  destruct (bytes_Split_head value) as [ps ->].
  destruct (decide _) as [_|Hn]; [|unfold len in Hn; simpl in Hn; lia].
  rewrite before_space_id by assumption. reflexivity.
Qed.

Lemma index_app_l {A} (l k : list A) z :
  0 ≤ z < len l → Go.index (l ++ k) z = Go.index l z.
Proof.
  intros Hz. unfold Go.index, len in *. destruct (decide _); [|lia].
  rewrite lookup_app_l by lia. reflexivity.
Qed.

(** X26: a put accepted by a leader reaches a follower that has the same
    log and a term not above the leader's: the leader appends the entry,
    the request [replicateLogEntry] builds for it is answered with success
    by [AppendEntries] on the follower whenever it returns, the follower's
    log is then equal to the leader's, and the call does return when the
    follower has nothing to apply. *)
Theorem replicated_put_reaches_follower (leader follower : RaftNode St) key value now :
  state leader = Leader →
  log follower = log leader →
  currentTerm follower ≤ currentTerm leader →
  len (log leader) < MaxInt →
  ∃ leader' entry logIndex req,
    handleClientRequest_append leader "put" key value = (leader', inr (entry, logIndex))
    ∧ replicateLogEntry_request leader' (currentTerm leader') entry logIndex = Ret req
    ∧ (∀ n' resp, AppendEntries follower req now = Ret (n', resp) →
         Success resp = true ∧ log n' = log leader')
    ∧ (commitIndex leader ≤ commitIndex follower →
       commitIndex follower ≤ lastApplied follower →
       ∃ n' resp, AppendEntries follower req now = Ret (n', resp)).
Proof.
  intros Hstate Hlog Hterm Hlen.
  unfold handleClientRequest_append.
  destruct (decide (state leader ≠ Leader)) as [Hn|_]; [contradiction|].
  simpl client_command. cbv iota.
  set (entry := {| Term := currentTerm leader; Index := int (len (log leader) + 1);
                   Command := (PUT_ ++ key) ++ [" "%byte] ++ value |}).
  set (leader' := set_log leader (log leader ++ [entry])).
  assert (Hlen' : len (log leader') = len (log leader) + 1).
  { unfold leader'. simpl. unfold len. rewrite length_app. simpl. lia. }
  assert (Hge : 0 ≤ len (log leader)) by (unfold len; lia).
  assert (Hprev : ∃ t, getPrevLogTerm leader' (len (log leader)) = Ret t
                       ∧ logContainsEntry follower (len (log leader)) t = Ret true).
  { unfold getPrevLogTerm, logContainsEntry. rewrite Hlog.
    destruct (decide (len (log leader) = 0)); [eauto|].
    destruct (decide (len (log leader) > len (log leader'))); [lia|].
    destruct (decide (len (log leader) > len (log leader))); [lia|].
    rewrite int_id by (unfold MaxInt in *; lia).
    unfold leader' at 1. simpl log. rewrite index_app_l by lia.
    unfold Go.index. destruct (decide _); [|lia].
    destruct (log leader !! Z.to_nat (len (log leader) - 1)) as [e|] eqn:E.
    - exists (Term e). simpl. split; [reflexivity|].
      f_equal. apply bool_decide_eq_true. reflexivity.
    - apply lookup_ge_None in E. unfold len in *. lia. }
  destruct Hprev as (t & Hprev & Hcontains).
  exists leader', entry, (len (log leader')).
  eexists. split; [reflexivity|].
  split.
  { unfold replicateLogEntry_request. rewrite Hlen'.
    replace (len (log leader) + 1 - 1) with (len (log leader)) by lia.
    rewrite int_id by (unfold MaxInt in *; lia).
    rewrite Hprev. reflexivity. }
  set (req := {| aeTerm := currentTerm leader'; LeaderID := id leader';
                 PrevLogIndex := len (log leader); PrevLogTerm := t;
                 Entries := [entry]; LeaderCommit := commitIndex leader' |}).
  assert (Hrun : ∃ n2, log n2 = log leader'
                       ∧ (commitIndex leader ≤ commitIndex follower →
                          commitIndex n2 = commitIndex follower)
                       ∧ lastApplied n2 = lastApplied follower
                       ∧ AppendEntries follower req now
                         = (applyCommittedEntries n2 ≫= λ n,
                              mret (n, {| aerTerm := currentTerm n; Success := true |}))).
  { unfold AppendEntries.
    destruct (decide (aeTerm req < currentTerm follower)) as [Hlt|_].
    { simpl in Hlt. lia. }
    set (n1 := set_lastHeartbeat _ now).
    assert (Hlog1 : log n1 = log leader).
    { unfold n1. destruct (decide _); simpl; exact Hlog. }
    assert (Hci1 : commitIndex n1 = commitIndex follower).
    { unfold n1. destruct (decide _); reflexivity. }
    assert (Hla1 : lastApplied n1 = lastApplied follower).
    { unfold n1. destruct (decide _); reflexivity. }
    assert (Hc1 : logContainsEntry n1 (len (log leader)) t = Ret true).
    { revert Hcontains. unfold logContainsEntry. rewrite Hlog1, Hlog. auto. }
    clearbody n1.
    destruct (decide (len (Entries req) = 0)) as [E0|_]; [discriminate E0|].
    simpl PrevLogIndex. simpl PrevLogTerm. rewrite Hc1. simpl negb.
    rewrite (res_bind_eq _ true) by reflexivity. cbv iota.
    simpl Entries. unfold conflictIndex.
    rewrite (int_id (len (log leader) + 1)) by (unfold MaxInt in *; lia).
    rewrite Z.add_0_r. rewrite int_id by (unfold MaxInt in *; lia).
    rewrite Hlog1.
    destruct (decide (len (log leader) + 1 < len (log leader))); [lia|].
    rewrite (res_bind_eq _ (-1)) by reflexivity.
    destruct (decide (-1 ≠ -1)) as [Hc|_]; [congruence|].
    rewrite (res_bind_eq _ (log leader)) by reflexivity.
    eexists. split; [|split; [|split; [|reflexivity]]].
    - destruct (decide _); [destruct (decide _)|]; reflexivity.
    - intros Hle. destruct (decide _) as [Hgt|_]; [|simpl; exact Hci1].
      simpl in Hgt. rewrite Hci1 in Hgt. lia.
    - destruct (decide _); [destruct (decide _)|]; simpl; exact Hla1. }
  destruct Hrun as (n2 & Hlog2 & Hci2 & Hla2 & Hrun).
  split.
  - intros n' resp H. rewrite Hrun in H.
    apply res_bind_Ret in H as (n3 & Happly & H). inversion H; subst; clear H.
    split; [reflexivity|].
    apply applyLoop_log in Happly as (Hl & _ & _). congruence.
  - intros Hle Hla. rewrite Hrun. unfold applyCommittedEntries.
    rewrite Hci2 by assumption. rewrite Hla2.
    replace (Z.to_nat (commitIndex follower - lastApplied follower)) with 0%nat by lia.
    simpl. eauto.
Qed.

End Raft_properties.

Lemma RequestVote_one_vote_per_term_witness :
  VoteGranted (RequestVote (RequestVote fresh_node vote_n2 0).1 vote_n3 1).2 = false.
Proof.
  apply (RequestVote_one_vote_per_term fresh_node vote_n2 vote_n3 0 1).
  - discriminate.
  - vm_compute. reflexivity.
  - vm_compute. discriminate.
  - discriminate.
Defined.

Lemma response_carries_current_term_witness :
  ∃ n' resp,
    AppendEntries (Storage0 := engine_storage 10) fresh_node append_first 0 = Ret (n', resp)
    ∧ aerTerm resp = currentTerm n'
    ∧ currentTerm n' = Z.max (aeTerm append_first) (currentTerm fresh_node).
Proof.
  eexists _, _. split.
  - vm_compute. reflexivity.
  - apply (proj2 (response_carries_current_term (Storage0 := engine_storage 10) fresh_node)
             append_first 0).
    vm_compute. reflexivity.
Defined.


Lemma AppendEntries_appends_witness :
  ∃ n', AppendEntries (Storage0 := engine_storage 10) fresh_node append_first 0
          = Ret (n', {| aerTerm := 1; Success := true |})
        ∧ ∃ pre, pre `prefix_of` log fresh_node
                 ∧ log n' = pre ++ renumber (len pre) (Entries append_first).
Proof.
  eexists. split.
  - vm_compute. reflexivity.
  - eapply (AppendEntries_appends (Storage0 := engine_storage 10) fresh_node append_first 0).
    + discriminate.
    + vm_compute. reflexivity.
    + reflexivity.
Defined.

Lemma log_indexed_nil : log_indexed [].
Proof. intros i e H. rewrite lookup_nil in H. discriminate. Defined.

Lemma log_entries_numbered_by_position_witness :
  log_indexed (log (handleClientRequest_append leader_node "put" key_k val_new).1).
Proof.
  apply (proj1 (log_entries_numbered_by_position (Storage0 := engine_storage 10)
                  leader_node log_indexed_nil)).
  vm_compute. reflexivity.
Defined.

Lemma higher_term_makes_follower_witness :
  currentTerm (RequestVote fresh_node vote_n2 0).1 = rvTerm vote_n2
  ∧ state (RequestVote fresh_node vote_n2 0).1 = Follower.
Proof.
  apply (proj1 (higher_term_makes_follower (Storage0 := engine_storage 10) fresh_node)
           vote_n2 0).
  vm_compute. reflexivity.
Defined.


Lemma leader_needs_majority_witness :
  state candidate_node = Leader
  ∨ (VoteGranted granted_vote = true ∧ rvrTerm granted_vote ≤ currentTerm candidate_node
     ∧ (startElection_response candidate_node granted_vote 1 3 0).2 = int (1 + 1)
     ∧ int (1 + 1) > 3 `quot` 2).
Proof.
  apply (leader_needs_majority candidate_node granted_vote 1 3 0).
  vm_compute. reflexivity.
Defined.

Lemma key_k_has_no_space : " "%byte ∉ key_k.
Proof.
  intros H. apply list_elem_of_In in H. simpl in H.
  destruct H as [H|[]]. discriminate.
Defined.

Lemma val_new_has_no_space : " "%byte ∉ val_new.
Proof.
  intros H. apply list_elem_of_In in H. simpl in H.
  destruct H as [H|[H|[H|[]]]]; discriminate.
Defined.

Lemma client_put_is_applied_as_Put_witness :
  ∃ c, client_command "put" key_k val_new = Some c
       ∧ applyCommand (Storage0 := engine_storage 10) c new_engine
         = EnginePut 10 key_k val_new new_engine ≫= λ '(_, st'), mret st'.
Proof.
  apply (client_put_is_applied_as_Put (Storage0 := engine_storage 10) key_k val_new new_engine).
  - discriminate.
  - exact key_k_has_no_space.
  - vm_compute. reflexivity.
Defined.

Lemma applyCommand_ignores_malformed_witness :
  applyCommand (Storage0 := engine_storage 10) (PUT_ ++ key_k) new_engine = Ret new_engine.
Proof.
  apply (proj1 (applyCommand_ignores_malformed (Storage0 := engine_storage 10) new_engine)).
  exact key_k_has_no_space.
Defined.

Lemma applyEntry_put_stores_first_word_witness :
  applyEntry (Storage0 := engine_storage 10)
    {| Term := 1; Index := 1; Command := put_command key_k val_new |} new_engine
  = EnginePut 10 key_k (before_space val_new) new_engine ≫= λ '(_, st'), mret st'.
Proof.
  apply (applyEntry_put_stores_first_word (Storage0 := engine_storage 10)
           1 1 key_k val_new new_engine).
  exact key_k_has_no_space.
Defined.

Lemma apply_paths_agree_witness :
  applyEntry (Storage0 := engine_storage 10)
    {| Term := 1; Index := 1; Command := put_command key_k val_new |} new_engine
  = applyCommand (Storage0 := engine_storage 10) (put_command key_k val_new) new_engine.
Proof.
  apply (apply_paths_agree (Storage0 := engine_storage 10) 1 1 key_k val_new new_engine).
  - discriminate.
  - exact key_k_has_no_space.
  - exact val_new_has_no_space.
  - vm_compute. reflexivity.
Defined.

Lemma replicated_put_reaches_follower_witness :
  ∃ leader' entry logIndex req,
    handleClientRequest_append leader_node "put" key_k val_new
      = (leader', inr (entry, logIndex))
    ∧ replicateLogEntry_request leader' (currentTerm leader') entry logIndex = Ret req
    ∧ (∀ n' resp,
         AppendEntries (Storage0 := engine_storage 10) fresh_node req 5 = Ret (n', resp) →
         Success resp = true ∧ log n' = log leader')
    ∧ (commitIndex leader_node ≤ commitIndex fresh_node →
       commitIndex fresh_node ≤ lastApplied fresh_node →
       ∃ n' resp,
         AppendEntries (Storage0 := engine_storage 10) fresh_node req 5 = Ret (n', resp)).
Proof.
  apply (replicated_put_reaches_follower (Storage0 := engine_storage 10)
           leader_node fresh_node key_k val_new 5).
  - reflexivity.
  - reflexivity.
  - vm_compute. discriminate.
  - vm_compute. reflexivity.
Defined.
